(** * Resume-data storage over an embedded SQL database

    A shallow embedding of [src/base/bittorrent/dbresumedatastorage.cpp]:
    the statements the storage issues, the synchronous readers
    ([registeredTorrents], [load], [doLoadAll]), the schema manager
    ([createDB], [updateDB], [currentDBVersion], the constructor) and the
    three jobs of the asynchronous writer ([StoreJob], [RemoveJob],
    [StoreQueueJob]).

    What the file does not contain is taken as follows.
    - The SQL engine behind [QSqlQuery] is modelled by a small relational
      store ([Database]) that interprets exactly the statement forms the
      source builds; a statement is kept as a syntax tree and [sql_text]
      gives back the text the source produces.
    - libtorrent ([write_resume_data], [read_resume_data], [bencode],
      [bdecode], the [torrent_info] constructor) and the profile's path
      conversion are interfaces ([Libtorrent], [Profile]); every theorem
      holds for all their implementations.
    - Failures of the driver that do not follow from the stored data
      (I/O errors and the like) are injected through the [Driver]
      interface. *)

From Stdlib Require Import ZArith Floats Ascii DecimalString Lia.
From stdpp Require Import gmap strings list pretty sorting.

Open Scope Z_scope.

(** ** Values bound to and read from a query *)

(** [QVariant] as the SQLite driver produces and consumes it: the four
    storage classes this schema uses. *)
Inductive QVariant : Type :=
| Null
| Int (i : Z)
| Text (s : string)
| Blob (b : string).

#[global] Instance QVariant_eq_dec : EqDecision QVariant.
Proof. solve_decision. Defined.

(** [QString::toInt]: a decimal integer, [None] when the text is not one. *)
Definition QString_toInt (s : string) : option Z :=
  match s with
  | "" | "-" => None
  | _ => Z.of_int <$> NilEmpty.int_of_string s
  end.

(** Conversion of a 64-bit value to [int] keeps the low 32 bits. *)
Definition wrap_int (z : Z) : Z := (z + 2 ^ 31) mod 2 ^ 32 - 2 ^ 31.

(** [QVariant::toInt(&ok)]: the value when [ok], [None] otherwise. *)
Definition toInt_ok (v : QVariant) : option Z :=
  match v with
  | Null => None
  | Int i => Some (wrap_int i)
  | Text s | Blob s => QString_toInt s
  end.

Definition toInt (v : QVariant) : Z := default 0 (toInt_ok v).

Definition toString (v : QVariant) : string :=
  match v with
  | Null => ""
  | Int i => pretty i
  | Text s | Blob s => s
  end.

Definition toByteArray (v : QVariant) : string := toString v.

Definition toBool (v : QVariant) : bool :=
  match v with
  | Null => false
  | Int i => negb (i =? 0)
  | Text s | Blob s =>
      negb (bool_decide (s = "") || bool_decide (s = "0") || bool_decide (s = "false"))
  end.

Definition fromBool (b : bool) : QVariant := Int (if b then 1 else 0).

(** ** Columns and statements *)

Module Column.
Record t : Type := mk { name : string; placeholder : string }.
End Column.

#[global] Instance Column_eq_dec : EqDecision Column.t.
Proof. solve_decision. Defined.

Definition makeColumn (columnName : string) : Column.t :=
  {| Column.name := columnName; Column.placeholder := ":" +:+ columnName |}.

Definition DB_VERSION : Z := 4.

Definition DB_TABLE_META : string := "meta".
Definition DB_TABLE_TORRENTS : string := "torrents".
Definition META_VERSION : string := "version".

Definition DB_COLUMN_ID := makeColumn "id".
Definition DB_COLUMN_TORRENT_ID := makeColumn "torrent_id".
Definition DB_COLUMN_QUEUE_POSITION := makeColumn "queue_position".
Definition DB_COLUMN_NAME := makeColumn "name".
Definition DB_COLUMN_CATEGORY := makeColumn "category".
Definition DB_COLUMN_TAGS := makeColumn "tags".
Definition DB_COLUMN_TARGET_SAVE_PATH := makeColumn "target_save_path".
Definition DB_COLUMN_DOWNLOAD_PATH := makeColumn "download_path".
Definition DB_COLUMN_CONTENT_LAYOUT := makeColumn "content_layout".
Definition DB_COLUMN_RATIO_LIMIT := makeColumn "ratio_limit".
Definition DB_COLUMN_SEEDING_TIME_LIMIT := makeColumn "seeding_time_limit".
Definition DB_COLUMN_HAS_OUTER_PIECES_PRIORITY := makeColumn "has_outer_pieces_priority".
Definition DB_COLUMN_HAS_SEED_STATUS := makeColumn "has_seed_status".
Definition DB_COLUMN_OPERATING_MODE := makeColumn "operating_mode".
Definition DB_COLUMN_STOPPED := makeColumn "stopped".
Definition DB_COLUMN_STOP_CONDITION := makeColumn "stop_condition".
Definition DB_COLUMN_RESUMEDATA := makeColumn "libtorrent_resume_data".
Definition DB_COLUMN_METADATA := makeColumn "metadata".
Definition DB_COLUMN_VALUE := makeColumn "value".

(** The text after the column name in a column definition, read into its
    parts: ["INTEGER NOT NULL DEFAULT -1"] is
    [{| affinity := "INTEGER"; not_null := true; default_value := Some (Int (-1)) |}]. *)
Record ColumnConstraints : Type := {
  affinity : string;
  primary_key : bool;
  not_null : bool;
  unique : bool;
  default_value : option QVariant
}.

#[global] Instance ColumnConstraints_eq_dec : EqDecision ColumnConstraints.
Proof. solve_decision. Defined.

Definition INTEGER_PRIMARY_KEY := {| affinity := "INTEGER"; primary_key := true; not_null := false; unique := false; default_value := None |}.
Definition TEXT_NOT_NULL_UNIQUE := {| affinity := "TEXT"; primary_key := false; not_null := true; unique := true; default_value := None |}.
Definition BLOB_NOT_NULL_UNIQUE := {| affinity := "BLOB"; primary_key := false; not_null := true; unique := true; default_value := None |}.
Definition INTEGER_NOT_NULL_DEFAULT (d : Z) := {| affinity := "INTEGER"; primary_key := false; not_null := true; unique := false; default_value := Some (Int d) |}.
Definition TEXT_NOT_NULL_DEFAULT (d : string) := {| affinity := "TEXT"; primary_key := false; not_null := true; unique := false; default_value := Some (Text d) |}.
Definition NULLABLE (ty : string) := {| affinity := ty; primary_key := false; not_null := false; unique := false; default_value := None |}.
Definition NOT_NULL (ty : string) := {| affinity := ty; primary_key := false; not_null := true; unique := false; default_value := None |}.

Definition makeColumnDefinition (column : Column.t) (definition : ColumnConstraints)
  : string * ColumnConstraints :=
  (Column.name column, definition).

(** The statement forms of the source.  [Insert] carries the optional
    [ON CONFLICT (c) DO UPDATE SET (..) = (..)] tail; [Update] and the
    selections carry their optional [WHERE c = :c] and [ORDER BY]. *)
Inductive Statement : Type :=
| CreateTable (tableName : string) (items : list (string * ColumnConstraints))
| CreateIndex (if_not_exists : bool) (indexName tableName column : string)
| AlterTableAdd (tableName : string) (item : string * ColumnConstraints)
| Insert (tableName : string) (columns : list Column.t)
         (on_conflict : option (Column.t * list Column.t))
| Update (tableName : string) (columns : list Column.t) (where_ : option Column.t)
| Delete (tableName : string) (where_ : Column.t)
| Select (column : option string) (tableName : string)
         (where_ : option Column.t) (order_by : option string)
| SelectCount (column tableName : string)
| PragmaJournalModeWAL.

Definition makeCreateTableStatement (tableName : string)
    (items : list (string * ColumnConstraints)) : Statement :=
  CreateTable tableName items.

Definition makeInsertStatement (tableName : string) (columns : list Column.t) : Statement :=
  Insert tableName columns None.

Definition makeUpdateStatement (tableName : string) (columns : list Column.t) : Statement :=
  Update tableName columns None.

Definition makeOnConflictUpdateStatement (constraint : Column.t) (columns : list Column.t)
  : Column.t * list Column.t :=
  (constraint, columns).

(** [insert + onConflict]: the concatenation of the two statement texts. *)
Definition appendOnConflict (s : Statement) (tail : Column.t * list Column.t) : Statement :=
  match s with
  | Insert t cs _ => Insert t cs (Some tail)
  | _ => s
  end.

(** *** The statement text *)

Definition quoted (name : string) : string := "`" +:+ name +:+ "`".

Definition join (sep : string) (l : list string) : string := String.concat sep l.

Definition joinColumns (columns : list Column.t) : string * string :=
  (join "," (quoted ∘ Column.name <$> columns), join "," (Column.placeholder <$> columns)).

Definition constraints_text (d : ColumnConstraints) : string :=
  affinity d
  +:+ (if primary_key d then " PRIMARY KEY" else "")
  +:+ (if not_null d then " NOT NULL" else "")
  +:+ (if unique d then " UNIQUE" else "")
  +:+ match default_value d with
      | Some (Int i) => " DEFAULT " +:+ pretty i
      | Some (Text s) => " DEFAULT " +:+ quoted s
      | _ => ""
      end.

Definition column_definition_text (item : string * ColumnConstraints) : string :=
  quoted item.1 +:+ " " +:+ constraints_text item.2.

Definition where_text (w : option Column.t) : string :=
  match w with
  | Some c => " WHERE " +:+ quoted (Column.name c) +:+ " = " +:+ Column.placeholder c
  | None => ""
  end.

Definition sql_text (s : Statement) : string :=
  match s with
  | CreateTable t items =>
      "CREATE TABLE " +:+ quoted t +:+ " (" +:+ join "," (column_definition_text <$> items) +:+ ")"
  | CreateIndex ine i t c =>
      "CREATE INDEX " +:+ (if ine then "IF NOT EXISTS " else "") +:+ quoted i
      +:+ " ON " +:+ quoted t +:+ " (" +:+ quoted c +:+ ")"
  | AlterTableAdd t item =>
      "ALTER TABLE " +:+ quoted t +:+ " ADD " +:+ column_definition_text item
  | Insert t cs oc =>
      "INSERT INTO " +:+ quoted t +:+ " (" +:+ (joinColumns cs).1 +:+ ") VALUES ("
      +:+ (joinColumns cs).2 +:+ ")"
      +:+ match oc with
          | Some (c, us) =>
              " ON CONFLICT (" +:+ quoted (Column.name c) +:+ ") DO UPDATE SET ("
              +:+ (joinColumns us).1 +:+ ") = (" +:+ (joinColumns us).2 +:+ ")"
          | None => ""
          end
  | Update t [c] (Some w) =>
      "UPDATE " +:+ quoted t +:+ " SET " +:+ quoted (Column.name c) +:+ " = "
      +:+ Column.placeholder c +:+ where_text (Some w) +:+ ";"
  | Update t cs w =>
      "UPDATE " +:+ quoted t +:+ " SET (" +:+ (joinColumns cs).1 +:+ ") = ("
      +:+ (joinColumns cs).2 +:+ ")" +:+ where_text w
  | Delete t w => "DELETE FROM " +:+ quoted t +:+ where_text (Some w) +:+ ";"
  | Select c t w o =>
      "SELECT " +:+ from_option quoted "*" c +:+ " FROM " +:+ quoted t +:+ where_text w
      +:+ from_option (λ o, " ORDER BY " +:+ quoted o) "" o +:+ ";"
  | SelectCount c t => "SELECT COUNT(" +:+ quoted c +:+ ") FROM " +:+ quoted t +:+ ";"
  | PragmaJournalModeWAL => "PRAGMA journal_mode = WAL;"
  end.

(** ** The relational store

    A table keeps the constraints of its columns by name and its rows in
    row-id order; a row maps column names to values.  This is the part of
    SQLite the statements above exercise: defaults and row ids on insert,
    [NOT NULL] and [UNIQUE] checks, the upsert, and [ORDER BY]. *)

Abbreviation Row := (gmap string QVariant).
Abbreviation Bindings := (gmap string QVariant).

Record Table : Type := {
  tbl_columns : gmap string ColumnConstraints;
  tbl_rows : list Row
}.

Record Database : Type := {
  db_tables : gmap string Table;
  db_indexes : gmap string (string * string);
  db_wal : bool
}.

Definition empty_database : Database :=
  {| db_tables := ∅; db_indexes := ∅; db_wal := false |}.

Inductive SqlError : Type :=
| NoSuchTable
| NoSuchColumn
| AlreadyExists
| ConstraintFailed
| DriverFailure.

Definition value (r : Row) (column : string) : QVariant := default Null (r !! column).

(** [query.bindValue]: a placeholder never bound reads as NULL. *)
Definition boundValue (b : Bindings) (placeholder : string) : QVariant :=
  default Null (b !! placeholder).

Definition bindValue (placeholder : string) (v : QVariant) (b : Bindings) : Bindings :=
  <[placeholder := v]> b.

(** SQL [=]: never true on NULL. *)
Definition sql_eqb (a b : QVariant) : bool :=
  match a, b with
  | Null, _ | _, Null => false
  | _, _ => bool_decide (a = b)
  end.

(** The order of [ORDER BY]: NULL, then integers, then text, then blobs. *)
Definition sql_leb (a b : QVariant) : bool :=
  match a, b with
  | Null, _ => true
  | _, Null => false
  | Int i, Int j => i <=? j
  | Int _, _ => true
  | _, Int _ => false
  | Text s, Text t => String.leb s t
  | Text _, Blob _ => true
  | Blob _, Text _ => false
  | Blob s, Blob t => String.leb s t
  end.

Fixpoint insert_ordered (column : string) (r : Row) (sorted : list Row) : list Row :=
  match sorted with
  | [] => [r]
  | r' :: rest =>
      if sql_leb (value r column) (value r' column) then r :: sorted
      else r' :: insert_ordered column r rest
  end.

(** Rows with equal keys keep their row-id order. *)
Definition order_by (column : string) (rows : list Row) : list Row :=
  foldr (insert_ordered column) [] rows.

Definition matches (where_ : option Column.t) (b : Bindings) (r : Row) : bool :=
  match where_ with
  | None => true
  | Some c => sql_eqb (value r (Column.name c)) (boundValue b (Column.placeholder c))
  end.

Definition assignments (columns : list Column.t) (b : Bindings) : Row :=
  list_to_map ((λ c, (Column.name c, boundValue b (Column.placeholder c))) <$> columns).

Definition has_columns (t : Table) (names : list string) : bool :=
  forallb (λ c, bool_decide (is_Some (tbl_columns t !! c))) names.

Definition not_null_ok (t : Table) (r : Row) : bool :=
  bool_decide (map_Forall (λ c d, not_null d = true → value r c ≠ Null) (tbl_columns t)).

Definition unique_ok (t : Table) (rows : list Row) : bool :=
  bool_decide (map_Forall
    (λ c d, unique d || primary_key d = true →
            NoDup (filter (λ v, v ≠ Null) ((λ r, value r c) <$> rows)))
    (tbl_columns t)).

Definition rowid (column : string) (r : Row) : Z :=
  match value r column with Int i => i | _ => 0 end.

Definition next_rowid (column : string) (rows : list Row) : Z :=
  1 + foldr Z.max 0 (rowid column <$> rows).

(** The row an [INSERT] offers: listed columns take their bound values,
    the others their declared default, and an [INTEGER PRIMARY KEY] left
    NULL takes the next row id. *)
Definition candidate_row (t : Table) (columns : list Column.t) (b : Bindings) : Row :=
  map_imap (λ c d,
    let v := match assignments columns b !! c with
             | Some v => v
             | None => default Null (default_value d)
             end in
    Some (if primary_key d && bool_decide (v = Null)
          then Int (next_rowid c (tbl_rows t)) else v))
    (tbl_columns t).

Definition with_rows (t : Table) (rows : list Row) : Table :=
  {| tbl_columns := tbl_columns t; tbl_rows := rows |}.

Definition with_table (db : Database) (name : string) (t : Table) : Database :=
  {| db_tables := <[name := t]> (db_tables db);
     db_indexes := db_indexes db; db_wal := db_wal db |}.

Definition conflicting_row (target : string) (r : Row) (rows : list Row) : option (nat * Row) :=
  list_find (λ r', sql_eqb (value r' target) (value r target) = true) rows.

Definition exec_insert (db : Database) (tableName : string) (columns : list Column.t)
    (on_conflict : option (Column.t * list Column.t)) (b : Bindings)
  : SqlError + Database :=
  match db_tables db !! tableName with
  | None => inl NoSuchTable
  | Some t =>
      let listed := (Column.name <$> columns)
                    ++ from_option (λ oc, Column.name oc.1 :: (Column.name <$> oc.2)) [] on_conflict in
      if negb (has_columns t listed) then inl NoSuchColumn else
      let r := candidate_row t columns b in
      if negb (not_null_ok t r) then inl ConstraintFailed else
      let plain :=
        let rows' := tbl_rows t ++ [r] in
        if unique_ok t rows' then inr (with_table db tableName (with_rows t rows'))
        else inl ConstraintFailed in
      match on_conflict with
      | None => plain
      | Some (target, updated) =>
          match conflicting_row (Column.name target) r (tbl_rows t) with
          | None => plain
          | Some (i, r') =>
              let r'' := assignments updated b ∪ r' in
              let rows' := <[i := r'']> (tbl_rows t) in
              if not_null_ok t r'' && unique_ok t rows'
              then inr (with_table db tableName (with_rows t rows'))
              else inl ConstraintFailed
          end
      end
  end.

Definition exec_update (db : Database) (tableName : string) (columns : list Column.t)
    (where_ : option Column.t) (b : Bindings) : SqlError + Database :=
  match db_tables db !! tableName with
  | None => inl NoSuchTable
  | Some t =>
      let listed := (Column.name <$> columns) ++ from_option (λ c, [Column.name c]) [] where_ in
      if negb (has_columns t listed) then inl NoSuchColumn else
      let rows' := (λ r, if matches where_ b r then assignments columns b ∪ r else r)
                     <$> tbl_rows t in
      if forallb (not_null_ok t) rows' && unique_ok t rows'
      then inr (with_table db tableName (with_rows t rows'))
      else inl ConstraintFailed
  end.

Definition exec_delete (db : Database) (tableName : string) (where_ : Column.t)
    (b : Bindings) : SqlError + Database :=
  match db_tables db !! tableName with
  | None => inl NoSuchTable
  | Some t =>
      if negb (has_columns t [Column.name where_]) then inl NoSuchColumn else
      inr (with_table db tableName
             (with_rows t (filter (λ r, matches (Some where_) b r = false) (tbl_rows t))))
  end.

Definition exec_select (db : Database) (column : option string) (tableName : string)
    (where_ : option Column.t) (order : option string) (b : Bindings)
  : SqlError + list Row :=
  match db_tables db !! tableName with
  | None => inl NoSuchTable
  | Some t =>
      let listed := from_option (λ c, [c]) [] column
                    ++ from_option (λ c, [Column.name c]) [] where_
                    ++ from_option (λ c, [c]) [] order in
      if negb (has_columns t listed) then inl NoSuchColumn else
      let selected := filter (λ r, matches where_ b r = true) (tbl_rows t) in
      let ordered := from_option (λ o, order_by o selected) selected order in
      inr (from_option (λ c, (λ r, {[ c := value r c ]}) <$> ordered) ordered column)
  end.

Definition exec_alter_add (db : Database) (tableName : string)
    (item : string * ColumnConstraints) : SqlError + Database :=
  match db_tables db !! tableName with
  | None => inl NoSuchTable
  | Some t =>
      if bool_decide (is_Some (tbl_columns t !! item.1)) then inl AlreadyExists
      else if primary_key item.2 || unique item.2
              || (not_null item.2 && bool_decide (default_value item.2 = None))
      then inl ConstraintFailed
      else inr (with_table db tableName
                  {| tbl_columns := <[item.1 := item.2]> (tbl_columns t);
                     tbl_rows := (λ r, <[item.1 := default Null (default_value item.2)]> r)
                                   <$> tbl_rows t |})
  end.

Definition on_ok {E A B : Type} (f : A → B) (r : E + A) : E + B :=
  match r with
  | inl e => inl e
  | inr a => inr (f a)
  end.

(** One statement against the store: the new store and the result rows,
    or the error the engine reports. *)
Definition sql_exec (wal : bool) (s : Statement) (b : Bindings) (db : Database)
  : SqlError + (Database * list Row) :=
  match s with
  | CreateTable t items =>
      if bool_decide (is_Some (db_tables db !! t)) then inl AlreadyExists
      else inr (with_table db t {| tbl_columns := list_to_map items; tbl_rows := [] |}, [])
  | CreateIndex ine i t c =>
      match db_tables db !! t with
      | None => inl NoSuchTable
      | Some tb =>
          if negb (has_columns tb [c]) then inl NoSuchColumn
          else if bool_decide (is_Some (db_indexes db !! i))
          then (if ine then inr (db, []) else inl AlreadyExists)
          else inr ({| db_tables := db_tables db;
                       db_indexes := <[i := (t, c)]> (db_indexes db);
                       db_wal := db_wal db |}, [])
      end
  | AlterTableAdd t item => on_ok (λ db', (db', [])) (exec_alter_add db t item)
  | Insert t cs oc => on_ok (λ db', (db', [])) (exec_insert db t cs oc b)
  | Update t cs w => on_ok (λ db', (db', [])) (exec_update db t cs w b)
  | Delete t w => on_ok (λ db', (db', [])) (exec_delete db t w b)
  | Select c t w o => on_ok (λ rows, (db, rows)) (exec_select db c t w o b)
  | SelectCount c t =>
      match db_tables db !! t with
      | None => inl NoSuchTable
      | Some tb =>
          if negb (has_columns tb [c]) then inl NoSuchColumn
          else inr (db, [ {[ "COUNT" :=
                 Int (Z.of_nat (length (filter (λ r, value r c ≠ Null) (tbl_rows tb)))) ]} ])
      end
  | PragmaJournalModeWAL =>
      inr ({| db_tables := db_tables db; db_indexes := db_indexes db;
              db_wal := wal || db_wal db |},
           [ {[ "journal_mode" := Text (if wal then "wal" else "delete") ]} ])
  end.

(** What [prepare] checks: the statement compiles against the schema. *)
Definition sql_prepare (s : Statement) (db : Database) : option SqlError :=
  match s with
  | Insert t cs oc =>
      match db_tables db !! t with
      | None => Some NoSuchTable
      | Some tb =>
          if has_columns tb ((Column.name <$> cs)
               ++ from_option (λ oc, Column.name oc.1 :: (Column.name <$> oc.2)) [] oc)
          then None else Some NoSuchColumn
      end
  | Update t cs w =>
      match db_tables db !! t with
      | None => Some NoSuchTable
      | Some tb =>
          if has_columns tb ((Column.name <$> cs) ++ from_option (λ c, [Column.name c]) [] w)
          then None else Some NoSuchColumn
      end
  | Delete t w =>
      match db_tables db !! t with
      | None => Some NoSuchTable
      | Some tb => if has_columns tb [Column.name w] then None else Some NoSuchColumn
      end
  | Select c t w o =>
      match db_tables db !! t with
      | None => Some NoSuchTable
      | Some tb =>
          if has_columns tb (from_option (λ c, [c]) [] c
               ++ from_option (λ c, [Column.name c]) [] w ++ from_option (λ c, [c]) [] o)
          then None else Some NoSuchColumn
      end
  | _ => None
  end.

(** ** Strings and numbers of the row codec *)

(** [QString::split(sep)]: empty parts are kept, and the empty string
    splits into one empty part. *)
Fixpoint split (sep : ascii) (s : string) : list string :=
  match s with
  | EmptyString => [""]
  | String c s' =>
      if Ascii.eqb c sep then "" :: split sep s'
      else match split sep s' with
           | w :: ws => String c w :: ws
           | [] => [String c ""]
           end
  end.

Definition lower (c : ascii) : ascii :=
  let n := nat_of_ascii c in
  if ((65 <=? n) && (n <=? 90))%nat then ascii_of_nat (n + 32) else c.

Fixpoint toLower (s : string) : string :=
  match s with
  | EmptyString => EmptyString
  | String c s' => String (lower c) (toLower s')
  end.

(** The integer part of a double, when it is finite. *)
Definition truncate (x : float) : option Z :=
  match Prim2SF x with
  | S754_zero _ => Some 0
  | S754_finite s m e => Some (cond_Zopp s (Z.shiftl (Zpos m) e))
  | _ => None
  end.

Definition INT_MIN : Z := - 2 ^ 31.
Definition INT_MAX : Z := 2 ^ 31 - 1.

(** [static_cast<int>(x)]: truncation toward zero.  Outside the range of
    [int] the conversion is undefined in C++; the model returns what the
    x86-64 conversion instruction yields there, [INT_MIN]. *)
Definition static_cast_int (x : float) : Z :=
  match truncate x with
  | Some z => if (INT_MIN <=? z) && (z <=? INT_MAX) then z else INT_MIN
  | None => INT_MIN
  end.

(** The conversion of an [int] to [double], exact on that range. *)
Definition int_to_double (i : Z) : float :=
  match i with
  | Z0 => 0%float
  | Zpos _ => PrimFloat.of_uint63 (Uint63.of_Z i)
  | Zneg p => PrimFloat.opp (PrimFloat.of_uint63 (Uint63.of_Z (Zpos p)))
  end.

(** ** The types the storage exchanges with its callers *)

Module TorrentID.
(** A digest, identified with its hexadecimal text. *)
Record t : Type := fromString { toString : string }.
End TorrentID.

#[global] Instance TorrentID_eq_dec : EqDecision TorrentID.t.
Proof. solve_decision. Defined.

Inductive TorrentContentLayout : Type := Original | Subfolder | NoSubfolder.
Inductive TorrentOperatingMode : Type := AutoManaged | Forced.

Module StopCondition.
Inductive t : Type := None | MetadataReceived | FilesChecked.
End StopCondition.

#[global] Instance TorrentContentLayout_eq_dec : EqDecision TorrentContentLayout.
Proof. solve_decision. Defined.
#[global] Instance TorrentOperatingMode_eq_dec : EqDecision TorrentOperatingMode.
Proof. solve_decision. Defined.
#[global] Instance StopCondition_eq_dec : EqDecision StopCondition.t.
Proof. solve_decision. Defined.

(** Modelled from the spec: [Utils::String::fromEnum] and [toEnum] are
    declared outside this file; an enumeration is persisted as its string
    tag, and an unknown tag reads as the default the caller passes. *)
Class QEnum (E : Type) : Type := {
  fromEnum : E → string;
  toEnum : string → E → E
}.

#[global] Instance TorrentContentLayout_enum : QEnum TorrentContentLayout := {|
  fromEnum e := match e with
                | Original => "Original" | Subfolder => "Subfolder"
                | NoSubfolder => "NoSubfolder"
                end;
  toEnum s d := if bool_decide (s = "Original") then Original
                else if bool_decide (s = "Subfolder") then Subfolder
                else if bool_decide (s = "NoSubfolder") then NoSubfolder
                else d
|}.

#[global] Instance TorrentOperatingMode_enum : QEnum TorrentOperatingMode := {|
  fromEnum e := match e with AutoManaged => "AutoManaged" | Forced => "Forced" end;
  toEnum s d := if bool_decide (s = "AutoManaged") then AutoManaged
                else if bool_decide (s = "Forced") then Forced
                else d
|}.

#[global] Instance StopCondition_enum : QEnum StopCondition.t := {|
  fromEnum e := match e with
                | StopCondition.None => "None"
                | StopCondition.MetadataReceived => "MetadataReceived"
                | StopCondition.FilesChecked => "FilesChecked"
                end;
  toEnum s d := if bool_decide (s = "None") then StopCondition.None
                else if bool_decide (s = "MetadataReceived") then StopCondition.MetadataReceived
                else if bool_decide (s = "FilesChecked") then StopCondition.FilesChecked
                else d
|}.

(** *** libtorrent *)

Module lt.
(** [lt::entry]; a dictionary keeps its keys in increasing order. *)
#[local] Unset Elimination Schemes.
Inductive entry : Type :=
| int_t (i : Z)
| string_t (s : string)
| list_t (l : list entry)
| dictionary_t (d : list (string * entry))
| undefined_t.
#[local] Set Elimination Schemes.

Definition dictionary_type : Type := list (string * entry).

(** A node handle, empty when the key was not there. *)
Definition node_type : Type := option (string * entry).

Fixpoint extract (key : string) (d : dictionary_type) : node_type * dictionary_type :=
  match d with
  | [] => (None, [])
  | (k, v) :: rest =>
      if bool_decide (k = key) then (Some (k, v), rest)
      else let '(n, rest') := extract key rest in (n, (k, v) :: rest')
  end.

Fixpoint insert_sorted (k : string) (v : entry) (d : dictionary_type) : dictionary_type :=
  match d with
  | [] => [(k, v)]
  | (k', v') :: rest =>
      if bool_decide (k = k') then d
      else if String.ltb k k' then (k, v) :: d
      else (k', v') :: insert_sorted k v rest
  end.

(** [std::map::insert(node_type&&)]: an empty handle inserts nothing, a
    key already there is kept. *)
Definition insert (n : node_type) (d : dictionary_type) : dictionary_type :=
  match n with
  | None => d
  | Some (k, v) => insert_sorted k v d
  end.

(** A decoded node, [None] for the node of no type. *)
Definition bdecode_node : Type := option entry.
Definition error_code : Type := bool.

Definition bit (n : Z) : Z := Z.shiftl 1 n.

(** The bits of [lt::torrent_flags] this file names. *)
Module torrent_flags.
Definition paused : Z := bit 4.
Definition auto_managed : Z := bit 5.
Definition stop_when_ready : Z := bit 10.
End torrent_flags.

Record torrent_info : Type := {
  info_section : entry;
  creation_date : Z;
  creator : string;
  comment : string
}.

(** [lt::add_torrent_params]: the three fields the storage touches; all
    the rest of the resume state travels in [resume_state]. *)
Record add_torrent_params : Type := {
  save_path : string;
  flags : Z;
  ti : option torrent_info;
  resume_state : dictionary_type
}.
End lt.

(** The libtorrent functions the storage calls.  [bencode] is [None] when
    the call throws [std::exception]; the two decoders also report an error
    code, which the callers below never read. *)
Class Libtorrent : Type := {
  write_resume_data : lt.add_torrent_params → lt.dictionary_type;
  read_resume_data : lt.bdecode_node → lt.add_torrent_params * lt.error_code;
  bencode : lt.entry → option string;
  bdecode : string → lt.bdecode_node * lt.error_code;
  make_torrent_info : lt.bdecode_node → lt.torrent_info * lt.error_code
}.

(** [Profile::instance()]'s conversion between absolute and portable paths. *)
Class Profile : Type := {
  toPortablePath : string → string;
  fromPortablePath : string → string
}.

Module LoadTorrentParams.
Record t : Type := {
  ltAddTorrentParams : lt.add_torrent_params;
  name : string;
  category : string;
  tags : gset string;
  savePath : string;
  downloadPath : string;
  contentLayout : TorrentContentLayout;
  operatingMode : TorrentOperatingMode;
  useAutoTMM : bool;
  firstLastPiecePriority : bool;
  hasFinishedStatus : bool;
  stopped : bool;
  stopCondition : StopCondition.t;
  ratioLimit : float;
  seedingTimeLimit : Z
}.
End LoadTorrentParams.

(** ** Errors, events and the state the operations run in *)

Inductive Message : Type :=
| lastError_text (e : SqlError)
| Not_found
| Database_is_corrupted
| Couldnt_obtain_query_result
| WAL_mode_is_probably_unsupported
| Couldnt_load_resume_data (id : string) (err : Message)
| Couldnt_enable_WAL (err : Message)
| Couldnt_begin_transaction (err : Message)
| Couldnt_save_torrent_metadata
| Couldnt_store_resume_data (id : string) (err : Message)
| Couldnt_delete_resume_data (id : string) (err : Message)
| Couldnt_store_queue_positions (err : Message).

(** What a call can throw: [RuntimeError] with its message, or a
    [std::exception] of the standard library. *)
Inductive Exception : Type :=
| RuntimeError (message : Message)
| std_exception.

Inductive LogLevel : Type := WARNING | CRITICAL.

Definition LoadResumeDataResult : Type := Message + LoadTorrentParams.t.

Inductive Event : Type :=
| lockForRead
| lockForWrite
| unlock
| loadStarted (torrents : list TorrentID.t)
| onResumeDataLoaded (id : TorrentID.t) (result : LoadResumeDataResult)
| loadFinished
| LogMsg (message : Message) (level : LogLevel)
| workerStarted.

(** The store as the connection that writes sees it, the state saved when
    the transaction now open began ([None] with no transaction open), and
    what has been observed so far, oldest first.  The reading operations
    are run on [w_db]: what they read is what is committed whenever no
    transaction is open. *)
Record World : Type := {
  w_db : Database;
  w_saved : option Database;
  w_events : list Event
}.

(** Failures of the driver that the stored data does not explain. *)
Class Driver : Type := {
  open_fails : bool;
  transaction_fails : bool;
  commit_fails : bool;
  prepare_fails : Statement → bool;
  exec_fails : Statement → bool;
  wal_available : bool
}.

Definition M (A : Type) : Type := World → (Exception + A) * World.

#[global] Instance M_ret : MRet M := λ A a w, (inr a, w).
#[global] Instance M_bind : MBind M := λ A B f m w,
  match m w with
  | (inl e, w') => (inl e, w')
  | (inr a, w') => f a w'
  end.

Definition throw {A : Type} (e : Exception) : M A := λ w, (inl e, w).

(** [try { body } catch (const RuntimeError &err) { handler }] *)
Definition try_catch {A : Type} (body : M A) (handler : Message → M A) : M A := λ w,
  match body w with
  | (inl (RuntimeError err), w') => handler err w'
  | r => r
  end.

Definition emit (e : Event) : M unit := λ w,
  (inr tt, {| w_db := w_db w; w_saved := w_saved w; w_events := w_events w ++ [e] |}).

(** A scoped locker: released when the scope is left, also by a throw. *)
Definition locked {A : Type} (acquire : Event) (body : M A) : M A := λ w,
  let '(r, w') := (emit acquire ≫= λ _, body) w in
  (r, (emit unlock w').2).

Fixpoint for_each {A : Type} (l : list A) (f : A → M unit) : M unit :=
  match l with
  | [] => mret tt
  | x :: l' => f x ≫= λ _, for_each l' f
  end.

(** *** The two column codecs with a lossy corner

    The tag set and the ratio limit are the two fields whose column value
    is computed; both directions are named here and used by [StoreJob] and
    [parseQueryResultRow] below. *)

(** Lines 833-834: an empty set binds a null string, any other set its
    tags joined by commas, in the order the set enumerates them. *)
Definition tags_value (tags : gset string) : QVariant :=
  if bool_decide (tags = ∅) then Null else Text (join "," (elements tags)).

(** Lines 221-226. *)
Definition tags_of_value (v : QVariant) : gset string :=
  let tagsData := toString v in
  if negb (bool_decide (tagsData = "")) then list_to_set (split "," tagsData) else ∅.

(** Line 836: [static_cast<int>(ratioLimit * 1000)]. *)
Definition ratio_value (ratioLimit : float) : QVariant :=
  Int (static_cast_int (PrimFloat.mul ratioLimit 1000)).

(** Line 229: [toInt() / 1000.0]. *)
Definition ratio_of_value (v : QVariant) : float :=
  PrimFloat.div (int_to_double (toInt v)) 1000.

Definition has_flag (flags mask : Z) : bool := negb (Z.land flags mask =? 0).
Definition set_flag (flags mask : Z) : Z := Z.lor flags mask.
Definition clear_flag (flags mask : Z) : Z := Z.land flags (Z.lnot mask).

Section Storage.
Context `{!Libtorrent, !Profile, !Driver}.

(** *** The connection *)

Definition set_db (w : World) (db : Database) : World :=
  {| w_db := db; w_saved := w_saved w; w_events := w_events w |}.

(** [QSqlDatabase::open] *)
Definition db_open : M unit := λ w,
  if open_fails then (inl (RuntimeError (lastError_text DriverFailure)), w) else (inr tt, w).

(** [QSqlQuery::exec]: the result rows, or the error [lastError] reports. *)
Definition query_exec (s : Statement) (b : Bindings) : M (SqlError + list Row) := λ w,
  if exec_fails s then (inr (inl DriverFailure), w)
  else match sql_exec wal_available s b (w_db w) with
       | inl e => (inr (inl e), w)
       | inr (db', rows) => (inr (inr rows), set_db w db')
       end.

Definition query_prepare (s : Statement) : M (option SqlError) := λ w,
  (inr (if prepare_fails s then Some DriverFailure else sql_prepare s (w_db w)), w).

(** [if (!query.exec()) throw RuntimeError(query.lastError().text());] *)
Definition exec_or_throw (s : Statement) (b : Bindings) : M (list Row) :=
  r ← query_exec s b;
  match r with
  | inl e => throw (RuntimeError (lastError_text e))
  | inr rows => mret rows
  end.

(** [if (!query.prepare(s)) throw RuntimeError(query.lastError().text());] *)
Definition prepare_or_throw (s : Statement) : M unit :=
  r ← query_prepare s;
  match r with
  | Some e => throw (RuntimeError (lastError_text e))
  | None => mret tt
  end.

(** [QSqlDatabase::transaction]: [BEGIN] is refused when the driver fails
    and when a transaction is already open on the connection. *)
Definition db_transaction : M bool := λ w,
  if transaction_fails || bool_decide (is_Some (w_saved w)) then (inr false, w)
  else (inr true, {| w_db := w_db w; w_saved := Some (w_db w); w_events := w_events w |}).

(** [QSqlDatabase::commit]: [COMMIT] is refused when the driver fails and
    when no transaction is open.  A commit that fails leaves the
    transaction open: what it wrote stays uncommitted. *)
Definition db_commit : M bool := λ w,
  if commit_fails || bool_decide (w_saved w = None) then (inr false, w)
  else (inr true, {| w_db := w_db w; w_saved := None; w_events := w_events w |}).

Definition db_rollback : M unit := λ w,
  (inr tt, {| w_db := default (w_db w) (w_saved w); w_saved := None;
              w_events := w_events w |}).

(** [QSqlDatabase::close]: what an open transaction wrote is lost. *)
Definition db_close : M unit := λ w,
  (inr tt, {| w_db := default (w_db w) (w_saved w); w_saved := None;
              w_events := w_events w |}).

(** What is stored for good, and what another connection reads: the
    state saved when the open transaction began, or, with no transaction
    open, the store as it is. *)
Definition committed (w : World) : Database := default (w_db w) (w_saved w).

(** [db.record(table).contains(column)] *)
Definition record_contains (db : Database) (tableName column : string) : bool :=
  match db_tables db !! tableName with
  | Some t => bool_decide (is_Some (tbl_columns t !! column))
  | None => false
  end.

(** *** Decoding a row (lines 216-274) *)

Definition parseQueryResultRow (query : Row) : LoadTorrentParams.t :=
  let tags := tags_of_value (value query (Column.name DB_COLUMN_TAGS)) in
  let savePath :=
    fromPortablePath (toString (value query (Column.name DB_COLUMN_TARGET_SAVE_PATH))) in
  let useAutoTMM := bool_decide (savePath = "") in
  let downloadPath :=
    if negb useAutoTMM
    then fromPortablePath (toString (value query (Column.name DB_COLUMN_DOWNLOAD_PATH)))
    else "" in
  let bencodedResumeData := toByteArray (value query (Column.name DB_COLUMN_RESUMEDATA)) in
  let resumeDataRoot := (bdecode bencodedResumeData).1 in
  let p := (read_resume_data resumeDataRoot).1 in
  let bencodedMetadata := toByteArray (value query (Column.name DB_COLUMN_METADATA)) in
  let ti :=
    if negb (bool_decide (bencodedMetadata = ""))
    then Some (make_torrent_info (bdecode bencodedMetadata).1).1
    else lt.ti p in
  let save_path := fromPortablePath (lt.save_path p) in
  let stop_when_ready := has_flag (lt.flags p) lt.torrent_flags.stop_when_ready in
  {| LoadTorrentParams.ltAddTorrentParams :=
       {| lt.save_path := save_path;
          lt.flags := if stop_when_ready
                      then clear_flag (lt.flags p) lt.torrent_flags.stop_when_ready
                      else lt.flags p;
          lt.ti := ti;
          lt.resume_state := lt.resume_state p |};
     LoadTorrentParams.name := toString (value query (Column.name DB_COLUMN_NAME));
     LoadTorrentParams.category := toString (value query (Column.name DB_COLUMN_CATEGORY));
     LoadTorrentParams.tags := tags;
     LoadTorrentParams.savePath := savePath;
     LoadTorrentParams.downloadPath := downloadPath;
     LoadTorrentParams.contentLayout :=
       toEnum (toString (value query (Column.name DB_COLUMN_CONTENT_LAYOUT))) Original;
     LoadTorrentParams.operatingMode :=
       toEnum (toString (value query (Column.name DB_COLUMN_OPERATING_MODE))) AutoManaged;
     LoadTorrentParams.useAutoTMM := useAutoTMM;
     LoadTorrentParams.firstLastPiecePriority :=
       toBool (value query (Column.name DB_COLUMN_HAS_OUTER_PIECES_PRIORITY));
     LoadTorrentParams.hasFinishedStatus :=
       toBool (value query (Column.name DB_COLUMN_HAS_SEED_STATUS));
     LoadTorrentParams.stopped := toBool (value query (Column.name DB_COLUMN_STOPPED));
     LoadTorrentParams.stopCondition :=
       if stop_when_ready then StopCondition.FilesChecked
       else toEnum (toString (value query (Column.name DB_COLUMN_STOP_CONDITION)))
                   StopCondition.None;
     LoadTorrentParams.ratioLimit :=
       ratio_of_value (value query (Column.name DB_COLUMN_RATIO_LIMIT));
     LoadTorrentParams.seedingTimeLimit :=
       toInt (value query (Column.name DB_COLUMN_SEEDING_TIME_LIMIT)) |}.

(** *** Synchronous reads (lines 339-442) *)

Definition selectTorrentIDStatement : Statement :=
  Select (Some (Column.name DB_COLUMN_TORRENT_ID)) DB_TABLE_TORRENTS None
         (Some (Column.name DB_COLUMN_QUEUE_POSITION)).

Definition torrentID_of (query : Row) : TorrentID.t :=
  TorrentID.fromString (toString (value query (Column.name DB_COLUMN_TORRENT_ID))).

Definition registeredTorrents : M (list TorrentID.t) :=
  rows ← exec_or_throw selectTorrentIDStatement ∅;
  mret (torrentID_of <$> rows).

Definition selectTorrentStatement : Statement :=
  Select None DB_TABLE_TORRENTS (Some DB_COLUMN_TORRENT_ID) None.

Definition load (id : TorrentID.t) : M LoadResumeDataResult :=
  found ← try_catch
    (prepare_or_throw selectTorrentStatement;;
     rows ← exec_or_throw selectTorrentStatement
              (bindValue (Column.placeholder DB_COLUMN_TORRENT_ID)
                         (Text (TorrentID.toString id)) ∅);
     match rows with
     | [] => throw (RuntimeError Not_found)
     | query :: _ => mret (inr query)
     end)
    (λ err, mret (inl (Couldnt_load_resume_data (TorrentID.toString id) err)));
  match found with
  | inl unexpected => mret (inl unexpected)
  | inr query => mret (inr (parseQueryResultRow query))
  end.

Definition selectStatement : Statement :=
  Select None DB_TABLE_TORRENTS None (Some (Column.name DB_COLUMN_QUEUE_POSITION)).

Definition doLoadAll : M unit :=
  (db_open;;
   locked lockForRead
     (rows ← exec_or_throw selectTorrentIDStatement ∅;
      emit (loadStarted (torrentID_of <$> rows));;
      rows ← exec_or_throw selectStatement ∅;
      for_each rows (λ query,
        emit (onResumeDataLoaded (torrentID_of query) (inr (parseQueryResultRow query))))));;
  emit loadFinished.

(** *** The schema manager (lines 444-638) *)

Definition selectDBVersionStatement : Statement :=
  Select (Some (Column.name DB_COLUMN_VALUE)) DB_TABLE_META (Some DB_COLUMN_NAME) None.

Definition currentDBVersion : M Z :=
  prepare_or_throw selectDBVersionStatement;;
  locked lockForRead
    (rows ← exec_or_throw selectDBVersionStatement
              (bindValue (Column.placeholder DB_COLUMN_NAME) (Text META_VERSION) ∅);
     match rows with
     | [] => throw (RuntimeError Database_is_corrupted)
     | query :: _ =>
         match toInt_ok (value query (Column.name DB_COLUMN_VALUE)) with
         | None => throw (RuntimeError Database_is_corrupted)
         | Some dbVersion => mret dbVersion
         end
     end).

Definition enableWALMode : M unit :=
  rows ← exec_or_throw PragmaJournalModeWAL ∅;
  match rows with
  | [] => throw (RuntimeError Couldnt_obtain_query_result)
  | query :: _ =>
      let result := toString (value query "journal_mode") in
      if negb (bool_decide (toLower result = toLower "WAL"))
      then throw (RuntimeError WAL_mode_is_probably_unsupported)
      else mret tt
  end.

Definition tableMetaItems : list (string * ColumnConstraints) := [
  makeColumnDefinition DB_COLUMN_ID INTEGER_PRIMARY_KEY;
  makeColumnDefinition DB_COLUMN_NAME TEXT_NOT_NULL_UNIQUE;
  makeColumnDefinition DB_COLUMN_VALUE (NULLABLE "BLOB")
].

Definition tableTorrentsItems : list (string * ColumnConstraints) := [
  makeColumnDefinition DB_COLUMN_ID INTEGER_PRIMARY_KEY;
  makeColumnDefinition DB_COLUMN_TORRENT_ID BLOB_NOT_NULL_UNIQUE;
  makeColumnDefinition DB_COLUMN_QUEUE_POSITION (INTEGER_NOT_NULL_DEFAULT (-1));
  makeColumnDefinition DB_COLUMN_NAME (NULLABLE "TEXT");
  makeColumnDefinition DB_COLUMN_CATEGORY (NULLABLE "TEXT");
  makeColumnDefinition DB_COLUMN_TAGS (NULLABLE "TEXT");
  makeColumnDefinition DB_COLUMN_TARGET_SAVE_PATH (NULLABLE "TEXT");
  makeColumnDefinition DB_COLUMN_DOWNLOAD_PATH (NULLABLE "TEXT");
  makeColumnDefinition DB_COLUMN_CONTENT_LAYOUT (NOT_NULL "TEXT");
  makeColumnDefinition DB_COLUMN_RATIO_LIMIT (NOT_NULL "INTEGER");
  makeColumnDefinition DB_COLUMN_SEEDING_TIME_LIMIT (NOT_NULL "INTEGER");
  makeColumnDefinition DB_COLUMN_HAS_OUTER_PIECES_PRIORITY (NOT_NULL "INTEGER");
  makeColumnDefinition DB_COLUMN_HAS_SEED_STATUS (NOT_NULL "INTEGER");
  makeColumnDefinition DB_COLUMN_OPERATING_MODE (NOT_NULL "TEXT");
  makeColumnDefinition DB_COLUMN_STOPPED (NOT_NULL "INTEGER");
  makeColumnDefinition DB_COLUMN_STOP_CONDITION (TEXT_NOT_NULL_DEFAULT "None");
  makeColumnDefinition DB_COLUMN_RESUMEDATA (NOT_NULL "BLOB");
  makeColumnDefinition DB_COLUMN_METADATA (NULLABLE "BLOB")
].

Definition torrentsQueuePositionIndexName : string :=
  DB_TABLE_TORRENTS +:+ "_" +:+ Column.name DB_COLUMN_QUEUE_POSITION +:+ "_INDEX".

Definition bindMetaVersion : Bindings :=
  bindValue (Column.placeholder DB_COLUMN_VALUE) (Int DB_VERSION)
    (bindValue (Column.placeholder DB_COLUMN_NAME) (Text META_VERSION) ∅).

(** [if (!db.transaction()) throw ...] and [if (!db.commit()) throw ...] *)
Definition transaction_or_throw : M unit :=
  db_transaction ≫= λ ok : bool,
  if ok then mret tt else throw (RuntimeError (lastError_text DriverFailure)).

Definition commit_or_throw : M unit :=
  db_commit ≫= λ ok : bool,
  if ok then mret tt else throw (RuntimeError (lastError_text DriverFailure)).

(** [catch (const RuntimeError &) { db.rollback(); throw; }] *)
Definition rollback_and_rethrow {A : Type} (body : M A) : M A :=
  try_catch body (λ err, db_rollback;; throw (RuntimeError err)).

Definition createDB : M unit :=
  try_catch enableWALMode (λ err, emit (LogMsg (Couldnt_enable_WAL err) WARNING));;
  transaction_or_throw;;
  rollback_and_rethrow
    (let createTableMetaQuery := makeCreateTableStatement DB_TABLE_META tableMetaItems in
     exec_or_throw createTableMetaQuery ∅;;
     let insertMetaVersionQuery :=
       makeInsertStatement DB_TABLE_META [DB_COLUMN_NAME; DB_COLUMN_VALUE] in
     prepare_or_throw insertMetaVersionQuery;;
     exec_or_throw insertMetaVersionQuery bindMetaVersion;;
     let createTableTorrentsQuery :=
       makeCreateTableStatement DB_TABLE_TORRENTS tableTorrentsItems in
     exec_or_throw createTableTorrentsQuery ∅;;
     let createTorrentsQueuePositionIndexQuery :=
       CreateIndex false torrentsQueuePositionIndexName DB_TABLE_TORRENTS
                   (Column.name DB_COLUMN_QUEUE_POSITION) in
     exec_or_throw createTorrentsQueuePositionIndexQuery ∅;;
     commit_or_throw).

(** One guarded step of a migration: the column is added when counting
    it fails. *)
Definition add_column_if_missing (item : string * ColumnConstraints) : M unit :=
  let testQuery := SelectCount item.1 DB_TABLE_TORRENTS in
  tested ← query_exec testQuery ∅;
  match tested with
  | inr _ => mret tt
  | inl _ =>
      let alterTableTorrentsQuery := AlterTableAdd DB_TABLE_TORRENTS item in
      exec_or_throw alterTableTorrentsQuery ∅;; mret tt
  end.

(** [Q_ASSERT(fromVersion > 0)] and [Q_ASSERT(fromVersion != DB_VERSION)]
    compile to nothing in a release build and are not modelled. *)
Definition updateDB (fromVersion : Z) : M unit :=
  locked lockForWrite
    (transaction_or_throw;;
     rollback_and_rethrow
       ((if fromVersion =? 1
         then add_column_if_missing
                (makeColumnDefinition DB_COLUMN_DOWNLOAD_PATH (NULLABLE "TEXT"))
         else mret tt);;
        (if fromVersion <=? 2
         then add_column_if_missing
                (makeColumnDefinition DB_COLUMN_STOP_CONDITION (TEXT_NOT_NULL_DEFAULT "None"))
         else mret tt);;
        (if fromVersion <=? 3
         then exec_or_throw
                (CreateIndex true torrentsQueuePositionIndexName DB_TABLE_TORRENTS
                             (Column.name DB_COLUMN_QUEUE_POSITION)) ∅;; mret tt
         else mret tt);;
        let updateMetaVersionQuery :=
          makeUpdateStatement DB_TABLE_META [DB_COLUMN_NAME; DB_COLUMN_VALUE] in
        prepare_or_throw updateMetaVersionQuery;;
        exec_or_throw updateMetaVersionQuery bindMetaVersion;;
        commit_or_throw)).

(** The constructor (lines 306-330); [needCreateDB] is [!dbPath.exists()]. *)
Definition DBResumeDataStorage (needCreateDB : bool) : M unit :=
  db_open;;
  (if needCreateDB then createDB
   else
     (dbVersion ← (λ w, (if negb (record_contains (w_db w) DB_TABLE_TORRENTS
                                    (Column.name DB_COLUMN_DOWNLOAD_PATH))
                         then mret 1 else currentDBVersion) w);
      if dbVersion <? DB_VERSION then updateDB dbVersion else mret tt));;
  emit workerStarted.

(** Opening a store on a file: [None] when the path does not exist yet,
    in which case the driver starts from an empty database. *)
Definition open (file : option Database) : (Exception + unit) * World :=
  DBResumeDataStorage (bool_decide (file = None))
    {| w_db := default empty_database file; w_saved := None; w_events := [] |}.
End Storage.

(** ** The jobs of the asynchronous writer (lines 734-924) *)

Inductive Job : Type :=
| StoreJob (torrentID : TorrentID.t) (resumeData : LoadTorrentParams.t)
| RemoveJob (torrentID : TorrentID.t)
| StoreQueueJob (queue : list TorrentID.t).

Section Jobs.
Context `{!Libtorrent, !Profile, !Driver}.

(** The native resume data as the job adjusts it before encoding
    (lines 747-768). *)
Definition StoreJob_params (m_resumeData : LoadTorrentParams.t) : lt.add_torrent_params :=
  let p := LoadTorrentParams.ltAddTorrentParams m_resumeData in
  {| lt.save_path := toPortablePath (lt.save_path p);
     lt.flags :=
       if LoadTorrentParams.stopped m_resumeData
       then clear_flag (set_flag (lt.flags p) lt.torrent_flags.paused)
                       lt.torrent_flags.auto_managed
       else if bool_decide (LoadTorrentParams.operatingMode m_resumeData = AutoManaged)
       then set_flag (lt.flags p) lt.torrent_flags.auto_managed
       else clear_flag (clear_flag (lt.flags p) lt.torrent_flags.paused)
                       lt.torrent_flags.auto_managed;
     lt.ti := lt.ti p;
     lt.resume_state := lt.resume_state p |}.

Definition StoreJob_columns : list Column.t := [
  DB_COLUMN_TORRENT_ID;
  DB_COLUMN_NAME;
  DB_COLUMN_CATEGORY;
  DB_COLUMN_TAGS;
  DB_COLUMN_TARGET_SAVE_PATH;
  DB_COLUMN_DOWNLOAD_PATH;
  DB_COLUMN_CONTENT_LAYOUT;
  DB_COLUMN_RATIO_LIMIT;
  DB_COLUMN_SEEDING_TIME_LIMIT;
  DB_COLUMN_HAS_OUTER_PIECES_PRIORITY;
  DB_COLUMN_HAS_SEED_STATUS;
  DB_COLUMN_OPERATING_MODE;
  DB_COLUMN_STOPPED;
  DB_COLUMN_STOP_CONDITION;
  DB_COLUMN_RESUMEDATA
].

(** The values bound to the statement (lines 830-852). *)
Definition StoreJob_bindings (m_torrentID : TorrentID.t) (m_resumeData : LoadTorrentParams.t)
    (bencodedResumeData bencodedMetadata : string) : Bindings :=
  let query : Bindings := ∅ in
  let query := bindValue (Column.placeholder DB_COLUMN_TORRENT_ID)
                 (Text (TorrentID.toString m_torrentID)) query in
  let query := bindValue (Column.placeholder DB_COLUMN_NAME)
                 (Text (LoadTorrentParams.name m_resumeData)) query in
  let query := bindValue (Column.placeholder DB_COLUMN_CATEGORY)
                 (Text (LoadTorrentParams.category m_resumeData)) query in
  let query := bindValue (Column.placeholder DB_COLUMN_TAGS)
                 (tags_value (LoadTorrentParams.tags m_resumeData)) query in
  let query := bindValue (Column.placeholder DB_COLUMN_CONTENT_LAYOUT)
                 (Text (fromEnum (LoadTorrentParams.contentLayout m_resumeData))) query in
  let query := bindValue (Column.placeholder DB_COLUMN_RATIO_LIMIT)
                 (ratio_value (LoadTorrentParams.ratioLimit m_resumeData)) query in
  let query := bindValue (Column.placeholder DB_COLUMN_SEEDING_TIME_LIMIT)
                 (Int (LoadTorrentParams.seedingTimeLimit m_resumeData)) query in
  let query := bindValue (Column.placeholder DB_COLUMN_HAS_OUTER_PIECES_PRIORITY)
                 (fromBool (LoadTorrentParams.firstLastPiecePriority m_resumeData)) query in
  let query := bindValue (Column.placeholder DB_COLUMN_HAS_SEED_STATUS)
                 (fromBool (LoadTorrentParams.hasFinishedStatus m_resumeData)) query in
  let query := bindValue (Column.placeholder DB_COLUMN_OPERATING_MODE)
                 (Text (fromEnum (LoadTorrentParams.operatingMode m_resumeData))) query in
  let query := bindValue (Column.placeholder DB_COLUMN_STOPPED)
                 (fromBool (LoadTorrentParams.stopped m_resumeData)) query in
  let query := bindValue (Column.placeholder DB_COLUMN_STOP_CONDITION)
                 (Text (fromEnum (LoadTorrentParams.stopCondition m_resumeData))) query in
  let query :=
    if negb (LoadTorrentParams.useAutoTMM m_resumeData)
    then bindValue (Column.placeholder DB_COLUMN_DOWNLOAD_PATH)
           (Text (toPortablePath (LoadTorrentParams.downloadPath m_resumeData)))
           (bindValue (Column.placeholder DB_COLUMN_TARGET_SAVE_PATH)
              (Text (toPortablePath (LoadTorrentParams.savePath m_resumeData))) query)
    else query in
  let query := bindValue (Column.placeholder DB_COLUMN_RESUMEDATA)
                 (Blob bencodedResumeData) query in
  if negb (bool_decide (bencodedMetadata = ""))
  then bindValue (Column.placeholder DB_COLUMN_METADATA) (Blob bencodedMetadata) query
  else query.

(** Lines 817-861: encode the resume data and run the upsert. *)
Definition StoreJob_upsert (m_torrentID : TorrentID.t) (m_resumeData : LoadTorrentParams.t)
    (columns : list Column.t) (data : lt.dictionary_type) (bencodedMetadata : string)
  : M unit :=
  match bencode (lt.dictionary_t data) with
  | None => throw std_exception
  | Some bencodedResumeData =>
      let insertTorrentStatement :=
        appendOnConflict (makeInsertStatement DB_TABLE_TORRENTS columns)
          (makeOnConflictUpdateStatement DB_COLUMN_TORRENT_ID columns) in
      try_catch
        (prepare_or_throw insertTorrentStatement;;
         exec_or_throw insertTorrentStatement
           (StoreJob_bindings m_torrentID m_resumeData bencodedResumeData bencodedMetadata);;
         mret tt)
        (λ err, emit (LogMsg (Couldnt_store_resume_data (TorrentID.toString m_torrentID) err)
                             CRITICAL))
  end.

(** The metadata dictionary taken out of the resume data (lines 794-800),
    with what is left of the resume data. *)
Definition extract_metadata (data : lt.dictionary_type)
  : lt.dictionary_type * lt.dictionary_type :=
  let metadataDict : lt.dictionary_type := [] in
  let '(node, dataDict) := lt.extract "info" data in
  let metadataDict := lt.insert node metadataDict in
  let '(node, dataDict) := lt.extract "creation date" dataDict in
  let metadataDict := lt.insert node metadataDict in
  let '(node, dataDict) := lt.extract "created by" dataDict in
  let metadataDict := lt.insert node metadataDict in
  let '(node, dataDict) := lt.extract "comment" dataDict in
  let metadataDict := lt.insert node metadataDict in
  (metadataDict, dataDict).

Definition StoreJob_perform (m_torrentID : TorrentID.t) (m_resumeData : LoadTorrentParams.t)
  : M unit :=
  let p := StoreJob_params m_resumeData in
  let columns := StoreJob_columns in
  let data := write_resume_data p in
  match lt.ti p with
  | Some _ =>
      let '(metadataDict, dataDict) := extract_metadata data in
      match bencode (lt.dictionary_t metadataDict) with
      | None => emit (LogMsg Couldnt_save_torrent_metadata CRITICAL)
      | Some bencodedMetadata =>
          StoreJob_upsert m_torrentID m_resumeData (columns ++ [DB_COLUMN_METADATA])
                          dataDict bencodedMetadata
      end
  | None => StoreJob_upsert m_torrentID m_resumeData columns data ""
  end.

Definition deleteTorrentStatement : Statement :=
  Delete DB_TABLE_TORRENTS DB_COLUMN_TORRENT_ID.

Definition RemoveJob_perform (m_torrentID : TorrentID.t) : M unit :=
  try_catch
    (prepare_or_throw deleteTorrentStatement;;
     exec_or_throw deleteTorrentStatement
       (bindValue (Column.placeholder DB_COLUMN_TORRENT_ID)
                  (Text (TorrentID.toString m_torrentID)) ∅);;
     mret tt)
    (λ err, emit (LogMsg (Couldnt_delete_resume_data (TorrentID.toString m_torrentID) err)
                         CRITICAL)).

Definition updateQueuePosStatement : Statement :=
  Update DB_TABLE_TORRENTS [DB_COLUMN_QUEUE_POSITION] (Some DB_COLUMN_TORRENT_ID).

(** The loop of lines 910-917, [pos] being the position of the head of
    [queue]. *)
Fixpoint StoreQueueJob_loop (queue : list TorrentID.t) (pos : Z) : M unit :=
  match queue with
  | [] => mret tt
  | torrentID :: rest =>
      exec_or_throw updateQueuePosStatement
        (bindValue (Column.placeholder DB_COLUMN_QUEUE_POSITION) (Int pos)
           (bindValue (Column.placeholder DB_COLUMN_TORRENT_ID)
                      (Text (TorrentID.toString torrentID)) ∅));;
      StoreQueueJob_loop rest (pos + 1)
  end.

Definition StoreQueueJob_perform (m_queue : list TorrentID.t) : M unit :=
  try_catch
    (prepare_or_throw updateQueuePosStatement;;
     StoreQueueJob_loop m_queue 0)
    (λ err, emit (LogMsg (Couldnt_store_queue_positions err) CRITICAL)).

(** [job->perform(db)] *)
Definition perform (job : Job) : M unit :=
  match job with
  | StoreJob torrentID resumeData => StoreJob_perform torrentID resumeData
  | RemoveJob torrentID => RemoveJob_perform torrentID
  | StoreQueueJob queue => StoreQueueJob_perform queue
  end.
End Jobs.

(** ** The worker thread (lines 646-702)

    The job queue, its mutex and the wait condition are not modelled;
    what they decide is given to the model as the schedule of a run: the
    jobs already queued when the thread enters its loop, and then, for
    each time the thread is woken by [addJob], the jobs it pops before it
    next finds the queue empty.  The run ends with the interruption that
    follows the last batch.  A batch is never empty: after a wake-up the
    code takes the front of the queue without looking at it again. *)

Section Worker.
Context `{!Libtorrent, !Profile, !Driver}.

(** Lines 659-666: what the loop does when it finds the queue empty. *)
Definition Worker_commit (transactedJobsCount : nat) : M unit :=
  if bool_decide (0 < transactedJobsCount)%nat
  then db_commit;; emit unlock
  else mret tt.

(** Lines 674-696, once per wake-up; a transaction that cannot begin
    ends the loop. *)
Fixpoint Worker_loop (batches : list (list Job)) : M unit :=
  match batches with
  | [] => mret tt
  | jobs :: rest =>
      emit lockForWrite;;
      db_transaction ≫= λ ok : bool,
      if negb ok
      then emit (LogMsg (Couldnt_begin_transaction (lastError_text DriverFailure)) WARNING);;
           emit unlock
      else for_each jobs perform;;
           Worker_commit (length jobs);;
           Worker_loop rest
  end.

(** The whole of [run]: the loop is left with [break] on every path, and
    the connection is closed. *)
Definition Worker_run (queued : list Job) (batches : list (list Job)) : M unit :=
  db_open;;
  for_each queued perform;;
  Worker_commit (length queued);;
  Worker_loop batches;;
  db_close.
End Worker.

(** ** Implementations of the interfaces, for evaluating the model

    A bencoding codec over [lt.entry], a resume-data layout that writes
    each named flag under its own key, the identity path conversion of a
    profile that is not relocatable, and a driver that never fails on its
    own.  The theorems below do not depend on them; they serve to run the
    model on concrete stores. *)

Module Reference.
Import lt.

Definition bencode_string (s : string) : string :=
  pretty (Z.of_nat (String.length s)) +:+ ":" +:+ s.

Fixpoint bencode_entry (e : entry) : string :=
  match e with
  | int_t i => "i" +:+ pretty i +:+ "e"
  | string_t s => bencode_string s
  | list_t l =>
      "l" +:+ (fix items (l : list entry) : string :=
                 match l with
                 | [] => ""
                 | x :: l' => bencode_entry x +:+ items l'
                 end) l +:+ "e"
  | dictionary_t d =>
      "d" +:+ (fix items (d : list (string * entry)) : string :=
                 match d with
                 | [] => ""
                 | (k, v) :: d' => bencode_string k +:+ bencode_entry v +:+ items d'
                 end) d +:+ "e"
  | undefined_t => "0:"
  end.

(** The text up to the first [stop], and what follows it. *)
Fixpoint until (stop : ascii) (s : string) : option (string * string) :=
  match s with
  | EmptyString => None
  | String c s' =>
      if Ascii.eqb c stop then Some ("", s')
      else '(w, rest) ← until stop s'; Some (String c w, rest)
  end.

Fixpoint take_bytes (n : nat) (s : string) : option (string * string) :=
  match n, s with
  | O, _ => Some ("", s)
  | S n', String c s' => '(w, rest) ← take_bytes n' s'; Some (String c w, rest)
  | S _, EmptyString => None
  end.

Definition bdecode_string (s : string) : option (string * string) :=
  '(len, rest) ← until ":" s;
  n ← QString_toInt len;
  if n <? 0 then None else take_bytes (Z.to_nat n) rest.

Fixpoint bdecode_entry (fuel : nat) (s : string) : option (entry * string) :=
  match fuel with
  | O => None
  | S fuel' =>
      match s with
      | String "i" rest =>
          '(digits, rest') ← until "e" rest;
          i ← QString_toInt digits;
          Some (int_t i, rest')
      | String "l" rest =>
          '(l, rest') ← bdecode_list fuel' rest; Some (list_t l, rest')
      | String "d" rest =>
          '(d, rest') ← bdecode_dict fuel' rest; Some (dictionary_t d, rest')
      | _ => '(w, rest) ← bdecode_string s; Some (string_t w, rest)
      end
  end
with bdecode_list (fuel : nat) (s : string) : option (list entry * string) :=
  match fuel with
  | O => None
  | S fuel' =>
      match s with
      | String "e" rest => Some ([], rest)
      | _ =>
          '(x, rest) ← bdecode_entry fuel' s;
          '(l, rest') ← bdecode_list fuel' rest;
          Some (x :: l, rest')
      end
  end
with bdecode_dict (fuel : nat) (s : string) : option (list (string * entry) * string) :=
  match fuel with
  | O => None
  | S fuel' =>
      match s with
      | String "e" rest => Some ([], rest)
      | _ =>
          '(k, rest) ← bdecode_string s;
          '(v, rest') ← bdecode_entry fuel' rest;
          '(d, rest'') ← bdecode_dict fuel' rest';
          Some ((k, v) :: d, rest'')
      end
  end.

Definition bdecode (buffer : string) : bdecode_node * error_code :=
  match bdecode_entry (S (String.length buffer)) buffer with
  | Some (e, _) => (Some e, false)
  | None => (None, true)
  end.

Definition find (key : string) (d : dictionary_type) : option entry :=
  (extract key d).1 ≫= λ n, Some n.2.

Definition flag_keys : list (string * Z) := [
  ("paused", torrent_flags.paused);
  ("auto_managed", torrent_flags.auto_managed);
  ("stop_when_ready", torrent_flags.stop_when_ready)
].

Definition write_resume_data (p : add_torrent_params) : dictionary_type :=
  let d := resume_state p in
  let d := insert (Some ("save_path", string_t (save_path p))) d in
  let d := foldr (λ '(k, mask) d,
               insert (Some (k, int_t (if has_flag (flags p) mask then 1 else 0))) d)
             d flag_keys in
  match ti p with
  | None => d
  | Some t =>
      let d := insert (Some ("info", info_section t)) d in
      let d := if bool_decide (comment t = "") then d
               else insert (Some ("comment", string_t (comment t))) d in
      let d := if creation_date t =? 0 then d
               else insert (Some ("creation date", int_t (creation_date t))) d in
      if bool_decide (creator t = "") then d
      else insert (Some ("created by", string_t (creator t))) d
  end.

Definition entry_string (e : option entry) : string :=
  match e with Some (string_t s) => s | _ => "" end.

Definition entry_int (e : option entry) : Z :=
  match e with Some (int_t i) => i | _ => 0 end.

Definition read_resume_data (rd : bdecode_node) : add_torrent_params * error_code :=
  match rd with
  | Some (dictionary_t d) =>
      ({| save_path := entry_string (find "save_path" d);
          flags := foldr (λ '(k, mask) f,
                     if entry_int (find k d) =? 0 then f else set_flag f mask) 0 flag_keys;
          ti := None;
          resume_state :=
            foldr (λ k d, (extract k d).2) d ("save_path" :: flag_keys.*1) |}, false)
  | _ => ({| save_path := ""; flags := 0; ti := None; resume_state := [] |}, true)
  end.

Definition make_torrent_info (root : bdecode_node) : torrent_info * error_code :=
  match root with
  | Some (dictionary_t d) =>
      ({| info_section := default undefined_t (find "info" d);
          creation_date := entry_int (find "creation date" d);
          creator := entry_string (find "created by" d);
          comment := entry_string (find "comment" d) |},
       negb (bool_decide (is_Some (find "info" d))))
  | _ => ({| info_section := undefined_t; creation_date := 0;
             creator := ""; comment := "" |}, true)
  end.

Definition libtorrent : Libtorrent :=
  Build_Libtorrent write_resume_data read_resume_data
                   (λ e, Some (bencode_entry e)) bdecode make_torrent_info.

(** A profile that is not relocatable converts no path. *)
Definition profile : Profile := Build_Profile (λ path, path) (λ path, path).

Definition driver : Driver := {|
  open_fails := false;
  transaction_fails := false;
  commit_fails := false;
  prepare_fails := λ _, false;
  exec_fails := λ _, false;
  wal_available := true
|}.
End Reference.

(** The driver functions that matter to a statement did not fail. *)
Definition driver_ok `{!Driver} (s : Statement) : Prop :=
  prepare_fails s = false ∧ exec_fails s = false.

(** * Properties *)

#[local] Set Warnings "-clear-no-such-hyp".

(** ** Flag arithmetic *)

Lemma bit_pow2 n : 0 <= n → lt.bit n = 2 ^ n.
Proof. intros. unfold lt.bit. by rewrite Z.shiftl_1_l. Qed.

Lemma has_flag_bit f n : 0 <= n → has_flag f (lt.bit n) = Z.testbit f n.
Proof.
  intros Hn. unfold has_flag. rewrite bit_pow2 by done.
  destruct (Z.testbit f n) eqn:Hb.
  - apply negb_true_iff, Z.eqb_neq. intros H0.
    assert (Z.testbit (Z.land f (2 ^ n)) n = true) as Hc.
    { rewrite Z.land_spec, Hb, Z.pow2_bits_true; done. }
    rewrite H0, Z.bits_0 in Hc. done.
  - apply negb_false_iff, Z.eqb_eq. apply Z.bits_inj'. intros k Hk.
    rewrite Z.land_spec, Z.bits_0, Z.pow2_bits_eqb by done.
    destruct (Z.eqb_spec n k) as [->|]; [by rewrite Hb | by rewrite andb_false_r].
Qed.

Lemma testbit_set_flag f n k : 0 <= n → 0 <= k →
  Z.testbit (set_flag f (lt.bit n)) k = Z.testbit f k || (n =? k).
Proof.
  intros. unfold set_flag. rewrite bit_pow2 by done.
  by rewrite Z.lor_spec, Z.pow2_bits_eqb.
Qed.

Lemma testbit_clear_flag f n k : 0 <= n → 0 <= k →
  Z.testbit (clear_flag f (lt.bit n)) k = Z.testbit f k && negb (n =? k).
Proof.
  intros. unfold clear_flag. rewrite bit_pow2 by done.
  by rewrite Z.land_spec, Z.lnot_spec, Z.pow2_bits_eqb.
Qed.

(** ** Rows of the torrents table *)

Definition torrents (db : Database) : option Table := db_tables db !! DB_TABLE_TORRENTS.

Definition has_id (id : TorrentID.t) (r : Row) : Prop :=
  sql_eqb (value r (Column.name DB_COLUMN_TORRENT_ID)) (Text (TorrentID.toString id)) = true.

#[global] Instance has_id_dec id r : Decision (has_id id r).
Proof. unfold has_id. apply _. Defined.

Definition find_row (db : Database) (id : TorrentID.t) : option Row :=
  t ← torrents db; snd <$> list_find (has_id id) (tbl_rows t).

Definition torrents_schema : gmap string ColumnConstraints := list_to_map tableTorrentsItems.

Record table_ok (t : Table) : Prop := {
  ok_schema : tbl_columns t = torrents_schema;
  ok_unique : unique_ok t (tbl_rows t) = true;
  ok_not_null : Forall (λ r, not_null_ok t r = true) (tbl_rows t)
}.

Lemma sql_eqb_eq a b : sql_eqb a b = true ↔ a = b ∧ a ≠ Null.
Proof.
  destruct a, b; simpl; rewrite ?bool_decide_eq_true; split;
    intros; destruct_and?; try done; by simplify_eq.
Qed.

Lemma has_id_value id r :
  has_id id r ↔ value r "torrent_id" = Text (TorrentID.toString id).
Proof.
  unfold has_id. rewrite sql_eqb_eq. simpl. split; [naive_solver|].
  intros ->. done.
Qed.

Lemma assignments_lookup names B c :
  assignments (makeColumn <$> names) B !! c =
    if decide (c ∈ names) then Some (boundValue B (":" +:+ c)) else None.
Proof.
  unfold assignments. induction names as [|n names IH]; csimpl.
  - by rewrite lookup_empty.
  - rewrite lookup_insert, IH. repeat case_decide; set_solver.
Qed.

Lemma value_union_assigned names B r c :
  c ∈ names → value (assignments (makeColumn <$> names) B ∪ r) c = boundValue B (":" +:+ c).
Proof.
  intros Hc. unfold value. rewrite lookup_union, assignments_lookup.
  case_decide; [|done]. by destruct (r !! c).
Qed.

Lemma value_union_kept names B r c :
  c ∉ names → value (assignments (makeColumn <$> names) B ∪ r) c = value r c.
Proof.
  intros Hc. unfold value. rewrite lookup_union, assignments_lookup.
  case_decide; [done|]. by destruct (r !! c).
Qed.

Lemma lookup_union_kept names B (r : Row) c :
  c ∉ names → (assignments (makeColumn <$> names) B ∪ r) !! c = r !! c.
Proof.
  intros Hc. rewrite lookup_union, assignments_lookup.
  case_decide; [done|]. by destruct (r !! c).
Qed.

Lemma candidate_row_listed t names B c d :
  tbl_columns t !! c = Some d → c ∈ names →
  value (candidate_row t (makeColumn <$> names) B) c =
    if primary_key d && bool_decide (boundValue B (":" +:+ c) = Null)
    then Int (next_rowid c (tbl_rows t)) else boundValue B (":" +:+ c).
Proof.
  intros Hd Hc. unfold value, candidate_row. rewrite map_lookup_imap, Hd. simpl.
  rewrite assignments_lookup. by case_decide.
Qed.

Lemma candidate_row_unlisted t names B c d :
  tbl_columns t !! c = Some d → c ∉ names →
  value (candidate_row t (makeColumn <$> names) B) c =
    if primary_key d && bool_decide (default Null (default_value d) = Null)
    then Int (next_rowid c (tbl_rows t)) else default Null (default_value d).
Proof.
  intros Hd Hc. unfold value, candidate_row. rewrite map_lookup_imap, Hd. simpl.
  rewrite assignments_lookup. by case_decide.
Qed.

Lemma schema_entries c d :
  torrents_schema !! c = Some d → (c, d) ∈ tableTorrentsItems.
Proof. apply elem_of_list_to_map_2. Qed.

Ltac schema_cases H :=
  apply schema_entries in H; unfold tableTorrentsItems, makeColumnDefinition in H;
  repeat (apply elem_of_cons in H as [H|H]; [injection H as -> ->|]);
  [..|by apply elem_of_nil in H].

Lemma unique_columns c d :
  torrents_schema !! c = Some d → unique d || primary_key d = true →
  c = "id" ∨ c = "torrent_id".
Proof. intros H Hu. schema_cases H; simpl in Hu; try discriminate; auto. Qed.

Lemma names_of_columns (names : list string) : Column.name <$> (makeColumn <$> names) = names.
Proof. induction names; csimpl; by f_equal. Qed.

Lemma has_columns_schema t l :
  tbl_columns t = torrents_schema →
  has_columns t l = forallb (λ c, bool_decide (is_Some (torrents_schema !! c))) l.
Proof. intros Hs. unfold has_columns. by rewrite Hs. Qed.

Lemma next_rowid_fresh c rows : Int (next_rowid c rows) ∉ (λ r, value r c) <$> rows.
Proof.
  intros Hin. apply list_elem_of_fmap in Hin as (r & Hv & Hr).
  assert (rowid c r < next_rowid c rows) as Hlt.
  { unfold next_rowid. clear Hv. induction Hr; csimpl; lia. }
  unfold rowid in Hlt. rewrite <- Hv in Hlt. lia.
Qed.

Definition upserted (t : Table) (names : list string) (B : Bindings) (id : TorrentID.t)
  : list Row :=
  match list_find (has_id id) (tbl_rows t) with
  | Some (i, r') => <[i := assignments (makeColumn <$> names) B ∪ r']> (tbl_rows t)
  | None => tbl_rows t ++ [candidate_row t (makeColumn <$> names) B]
  end.

Section upsert.
Context (t : Table) (names : list string) (B : Bindings) (id : TorrentID.t).
Hypothesis (Hok : table_ok t).
Hypothesis (Hcols : forallb (λ c, bool_decide (is_Some (torrents_schema !! c))) names = true).
Hypothesis (Htid : "torrent_id" ∈ names) (Hid : "id" ∉ names).
Hypothesis (Hbound : boundValue B ":torrent_id" = Text (TorrentID.toString id)).
Hypothesis (Hnn : ∀ c d, torrents_schema !! c = Some d → not_null d = true →
                         c ∈ names → boundValue B (":" +:+ c) ≠ Null).
Hypothesis (Hrest : ∀ c d, torrents_schema !! c = Some d → not_null d = true →
                           c ∉ names → c = "queue_position").

Let cand := candidate_row t (makeColumn <$> names) B.

Lemma candidate_torrent_id : value cand "torrent_id" = Text (TorrentID.toString id).
Proof.
  unfold cand.
  rewrite (candidate_row_listed _ _ _ _ BLOB_NOT_NULL_UNIQUE);
    [|by rewrite (ok_schema _ Hok)|done].
  change (":" +:+ "torrent_id") with ":torrent_id". by rewrite Hbound.
Qed.

Lemma candidate_id : value cand "id" = Int (next_rowid "id" (tbl_rows t)).
Proof.
  unfold cand.
  by rewrite (candidate_row_unlisted _ _ _ _ INTEGER_PRIMARY_KEY);
    [|by rewrite (ok_schema _ Hok)|done].
Qed.

Lemma candidate_queue_position :
  "queue_position" ∉ names → value cand "queue_position" = Int (-1).
Proof.
  intros Hq. unfold cand.
  by rewrite (candidate_row_unlisted _ _ _ _ (INTEGER_NOT_NULL_DEFAULT (-1)));
    [|by rewrite (ok_schema _ Hok)|done].
Qed.

Lemma candidate_not_null : not_null_ok t cand = true.
Proof.
  apply bool_decide_eq_true, map_Forall_lookup. intros c d Hc Hd.
  unfold cand. destruct (decide (c ∈ names)) as [Hin|Hout].
  - rewrite (candidate_row_listed _ _ _ _ d) by done.
    rewrite (ok_schema _ Hok) in Hc. pose proof (Hnn c d Hc Hd Hin) as Hv.
    by destruct (primary_key d && _).
  - rewrite (candidate_row_unlisted _ _ _ _ d) by done.
    rewrite (ok_schema _ Hok) in Hc.
    rewrite (Hrest c d Hc Hd Hout) in Hc. vm_compute in Hc. by injection Hc as <-.
Qed.

Lemma conflicting_row_find :
  conflicting_row "torrent_id" cand (tbl_rows t) = list_find (has_id id) (tbl_rows t).
Proof.
  unfold conflicting_row. apply list_find_ext. intros r.
  unfold has_id. by rewrite candidate_torrent_id.
Qed.

Lemma updated_not_null i r' :
  tbl_rows t !! i = Some r' →
  not_null_ok t (assignments (makeColumn <$> names) B ∪ r') = true.
Proof.
  intros Hr'. apply bool_decide_eq_true, map_Forall_lookup. intros c d Hc Hd.
  pose proof (Forall_lookup_1 _ _ _ _ (ok_not_null _ Hok) Hr') as Hold.
  apply bool_decide_eq_true in Hold.
  rewrite (ok_schema _ Hok) in Hc.
  destruct (decide (c ∈ names)) as [Hin|Hout].
  - rewrite value_union_assigned by done. eauto.
  - rewrite value_union_kept by done. eapply Hold; [|done].
    by rewrite (ok_schema _ Hok).
Qed.

Lemma updated_unique i r' :
  list_find (has_id id) (tbl_rows t) = Some (i, r') →
  unique_ok t (<[i := assignments (makeColumn <$> names) B ∪ r']> (tbl_rows t)) = true.
Proof.
  intros (Hi & Hr' & _)%list_find_Some.
  apply bool_decide_eq_true, map_Forall_lookup. intros c d Hc Hu.
  pose proof (ok_unique _ Hok) as Hold.
  apply bool_decide_eq_true in Hold. specialize (Hold c d Hc Hu).
  rewrite (ok_schema _ Hok) in Hc.
  rewrite list_fmap_insert, list_insert_id; [done|].
  rewrite list_lookup_fmap, Hi. simpl. f_equal.
  destruct (unique_columns c d Hc Hu) as [-> | ->].
  - by rewrite value_union_kept.
  - rewrite value_union_assigned by done.
    change (":" +:+ "torrent_id") with ":torrent_id".
    rewrite Hbound. by apply has_id_value in Hr'.
Qed.

Lemma inserted_unique :
  list_find (has_id id) (tbl_rows t) = None →
  unique_ok t (tbl_rows t ++ [cand]) = true.
Proof.
  intros Hnone. apply bool_decide_eq_true, map_Forall_lookup. intros c d Hc Hu.
  pose proof (ok_unique _ Hok) as Hold.
  apply bool_decide_eq_true in Hold. specialize (Hold c d Hc Hu).
  rewrite (ok_schema _ Hok) in Hc.
  rewrite fmap_app, filter_app. simpl.
  assert (value cand c ∉ (λ r, value r c) <$> tbl_rows t) as Hfresh.
  { destruct (unique_columns c d Hc Hu) as [-> | ->].
    - rewrite candidate_id. apply next_rowid_fresh.
    - rewrite candidate_torrent_id. intros (r & Hv & Hr)%list_elem_of_fmap.
      apply list_find_None in Hnone. rewrite Forall_forall in Hnone.
      apply (Hnone r Hr). by apply has_id_value. }
  rewrite filter_cons. case_decide; rewrite filter_nil.
  - apply NoDup_app. split_and!; [done| |apply NoDup_singleton].
    intros v Hv ->%list_elem_of_singleton. by apply list_elem_of_filter in Hv as [_ ?].
  - by rewrite app_nil_r.
Qed.

Lemma upsert_has_columns : has_columns t (names ++ "torrent_id" :: names) = true.
Proof.
  rewrite (has_columns_schema _ _ (ok_schema _ Hok)).
  apply forallb_forall. intros c Hc. rewrite forallb_forall in Hcols.
  apply Hcols. apply in_app_or in Hc as [Hc|[<-|Hc]]; [done| |done].
  by apply list_elem_of_In.
Qed.

Lemma exec_upsert db :
  torrents db = Some t →
  exec_insert db DB_TABLE_TORRENTS (makeColumn <$> names)
              (Some (DB_COLUMN_TORRENT_ID, makeColumn <$> names)) B =
    inr (with_table db DB_TABLE_TORRENTS (with_rows t (upserted t names B id))).
Proof.
  intros Ht. unfold torrents in Ht. unfold exec_insert. rewrite Ht.
  cbn [from_option fst snd Column.name DB_COLUMN_TORRENT_ID makeColumn].
  rewrite names_of_columns, upsert_has_columns. cbn [negb].
  fold cand. rewrite candidate_not_null. cbn [negb].
  rewrite conflicting_row_find. unfold upserted.
  destruct (list_find (has_id id) (tbl_rows t)) as [[i r']|] eqn:Hfind.
  - rewrite (updated_not_null i r'), updated_unique; [done..|].
    by apply list_find_Some in Hfind as (? & _).
  - fold cand. by rewrite inserted_unique.
Qed.

(** The upsert keeps the table well formed. *)
Lemma upserted_ok : table_ok (with_rows t (upserted t names B id)).
Proof.
  pose proof Hok as [Hs Hu Hn]. unfold upserted.
  destruct (list_find (has_id id) (tbl_rows t)) as [[i r']|] eqn:Hfind; split;
    cbn [with_rows tbl_columns tbl_rows]; try done.
  - by apply updated_unique.
  - apply Forall_insert; [done|]. apply (updated_not_null i).
    by apply list_find_Some in Hfind as (? & _).
  - by apply inserted_unique.
  - apply Forall_app. split; [done|]. apply Forall_singleton, candidate_not_null.
Qed.
End upsert.

Definition StoreJob_names : list string := Column.name <$> StoreJob_columns.

Lemma StoreJob_columns_names : StoreJob_columns = makeColumn <$> StoreJob_names.
Proof. reflexivity. Qed.

Lemma StoreJob_columns_metadata :
  StoreJob_columns ++ [DB_COLUMN_METADATA] = makeColumn <$> (StoreJob_names ++ ["metadata"]).
Proof. reflexivity. Qed.

Section bindings.
Context `{!Profile}.
Context (id : TorrentID.t) (rd : LoadTorrentParams.t) (b md : string).

Let B := StoreJob_bindings id rd b md.

Ltac bound :=
  unfold B, boundValue, StoreJob_bindings, bindValue; cbv zeta;
  repeat match goal with
         | |- context [if negb ?c then _ else _] => destruct c; simpl negb; cbv iota
         end;
  repeat (rewrite lookup_insert_ne by done);
  rewrite ?lookup_insert_eq, ?lookup_empty; try done.

Lemma bound_torrent_id : boundValue B ":torrent_id" = Text (TorrentID.toString id).
Proof. bound. Qed.
Lemma bound_name : boundValue B ":name" = Text (LoadTorrentParams.name rd).
Proof. bound. Qed.
Lemma bound_category : boundValue B ":category" = Text (LoadTorrentParams.category rd).
Proof. bound. Qed.
Lemma bound_tags : boundValue B ":tags" = tags_value (LoadTorrentParams.tags rd).
Proof. bound. Qed.
Lemma bound_content_layout :
  boundValue B ":content_layout" = Text (fromEnum (LoadTorrentParams.contentLayout rd)).
Proof. bound. Qed.
Lemma bound_ratio_limit :
  boundValue B ":ratio_limit" = ratio_value (LoadTorrentParams.ratioLimit rd).
Proof. bound. Qed.
Lemma bound_seeding_time_limit :
  boundValue B ":seeding_time_limit" = Int (LoadTorrentParams.seedingTimeLimit rd).
Proof. bound. Qed.
Lemma bound_has_outer_pieces_priority :
  boundValue B ":has_outer_pieces_priority"
  = fromBool (LoadTorrentParams.firstLastPiecePriority rd).
Proof. bound. Qed.
Lemma bound_has_seed_status :
  boundValue B ":has_seed_status" = fromBool (LoadTorrentParams.hasFinishedStatus rd).
Proof. bound. Qed.
Lemma bound_operating_mode :
  boundValue B ":operating_mode" = Text (fromEnum (LoadTorrentParams.operatingMode rd)).
Proof. bound. Qed.
Lemma bound_stopped : boundValue B ":stopped" = fromBool (LoadTorrentParams.stopped rd).
Proof. bound. Qed.
Lemma bound_stop_condition :
  boundValue B ":stop_condition" = Text (fromEnum (LoadTorrentParams.stopCondition rd)).
Proof. bound. Qed.
Lemma bound_resume_data : boundValue B ":libtorrent_resume_data" = Blob b.
Proof. bound. Qed.
Lemma bound_target_save_path :
  boundValue B ":target_save_path" =
    if LoadTorrentParams.useAutoTMM rd then Null
    else Text (toPortablePath (LoadTorrentParams.savePath rd)).
Proof. bound. Qed.
Lemma bound_download_path :
  boundValue B ":download_path" =
    if LoadTorrentParams.useAutoTMM rd then Null
    else Text (toPortablePath (LoadTorrentParams.downloadPath rd)).
Proof. bound. Qed.
Lemma bound_metadata :
  boundValue B ":metadata" = if bool_decide (md = "") then Null else Blob md.
Proof. bound. Qed.
Lemma bound_queue_position : boundValue B ":queue_position" = Null.
Proof. bound. Qed.
End bindings.

Section run.
Context `{!Libtorrent, !Profile, !Driver}.

Lemma prepare_or_throw_run s w :
  prepare_or_throw s w =
    if prepare_fails s then (inl (RuntimeError (lastError_text DriverFailure)), w)
    else match sql_prepare s (w_db w) with
         | Some e => (inl (RuntimeError (lastError_text e)), w)
         | None => (inr tt, w)
         end.
Proof.
  unfold prepare_or_throw, query_prepare, mbind, M_bind. simpl.
  destruct (prepare_fails s); [done|]. by destruct (sql_prepare s (w_db w)).
Qed.

Lemma exec_or_throw_run s b w :
  exec_or_throw s b w =
    if exec_fails s then (inl (RuntimeError (lastError_text DriverFailure)), w)
    else match sql_exec wal_available s b (w_db w) with
         | inl e => (inl (RuntimeError (lastError_text e)), w)
         | inr (db', rows) => (inr rows, set_db w db')
         end.
Proof.
  unfold exec_or_throw, query_exec, mbind, M_bind. simpl.
  destruct (exec_fails s); [done|].
  by destruct (sql_exec wal_available s b (w_db w)) as [e|[db' rows]].
Qed.

Definition store_statement (names : list string) : Statement :=
  Insert DB_TABLE_TORRENTS (makeColumn <$> names)
         (Some (DB_COLUMN_TORRENT_ID, makeColumn <$> names)).

Definition log (w : World) (e : Event) : World :=
  {| w_db := w_db w; w_saved := w_saved w; w_events := w_events w ++ [e] |}.

Definition storable (names : list string) : Prop :=
  names = StoreJob_names ∨ names = StoreJob_names ++ ["metadata"].

Lemma storable_cols names :
  storable names →
  forallb (λ c, bool_decide (is_Some (torrents_schema !! c))) names = true.
Proof. by intros [-> | ->]; vm_compute. Qed.

Lemma storable_torrent_id names : storable names → "torrent_id" ∈ names.
Proof. intros [-> | ->]; compute_done. Qed.

Lemma storable_id names : storable names → "id" ∉ names.
Proof. intros [-> | ->]; compute_done. Qed.

Lemma storable_queue_position names : storable names → "queue_position" ∉ names.
Proof. intros [-> | ->]; compute_done. Qed.

Lemma storable_rest names c d :
  storable names → torrents_schema !! c = Some d → not_null d = true →
  c ∉ names → c = "queue_position".
Proof.
  intros Hn Hc Hd Hout. schema_cases Hc; simpl in Hd; try discriminate; try done;
    exfalso; apply Hout; destruct Hn as [-> | ->]; compute_done.
Qed.

Lemma storable_not_null names id rd b md c d :
  storable names → torrents_schema !! c = Some d → not_null d = true → c ∈ names →
  boundValue (StoreJob_bindings id rd b md) (":" +:+ c) ≠ Null.
Proof.
  intros Hn Hc Hd Hin. schema_cases Hc; simpl in Hd; try discriminate; simpl.
  - by rewrite bound_torrent_id.
  - exfalso. by apply (storable_queue_position names).
  - by rewrite bound_content_layout.
  - by rewrite bound_ratio_limit.
  - by rewrite bound_seeding_time_limit.
  - by rewrite bound_has_outer_pieces_priority.
  - by rewrite bound_has_seed_status.
  - by rewrite bound_operating_mode.
  - by rewrite bound_stopped.
  - by rewrite bound_stop_condition.
  - by rewrite bound_resume_data.
Qed.

Lemma store_statement_prepare names db t :
  storable names → torrents db = Some t → table_ok t →
  sql_prepare (store_statement names) db = None.
Proof.
  intros Hn Ht Hok. unfold torrents in Ht. unfold store_statement, sql_prepare.
  rewrite Ht. cbn [from_option fst snd Column.name DB_COLUMN_TORRENT_ID makeColumn].
  by rewrite names_of_columns, upsert_has_columns
    by auto using storable_cols, storable_torrent_id.
Qed.

Lemma store_statement_exec names db t id rd b md :
  storable names → torrents db = Some t → table_ok t →
  sql_exec wal_available (store_statement names) (StoreJob_bindings id rd b md) db =
    inr (with_table db DB_TABLE_TORRENTS
           (with_rows t (upserted t names (StoreJob_bindings id rd b md) id)), []).
Proof.
  intros Hn Ht Hok. unfold store_statement, sql_exec.
  rewrite (exec_upsert t names _ id); eauto using storable_cols, storable_torrent_id,
    storable_id, bound_torrent_id, storable_rest.
  intros c d. by apply storable_not_null.
Qed.

(** What a store job leaves in the table when its statement ran. *)
Definition stored (w : World) (t : Table) (names : list string) (id : TorrentID.t)
    (rd : LoadTorrentParams.t) (b md : string) : World :=
  set_db w (with_table (w_db w) DB_TABLE_TORRENTS
              (with_rows t (upserted t names (StoreJob_bindings id rd b md) id))).

Lemma StoreJob_upsert_run names id rd data md w t :
  storable names → torrents (w_db w) = Some t → table_ok t →
  StoreJob_upsert id rd (makeColumn <$> names) data md w =
    match bencode (lt.dictionary_t data) with
    | None => (inl std_exception, w)
    | Some b =>
        if prepare_fails (store_statement names) || exec_fails (store_statement names)
        then (inr tt, log w (LogMsg (Couldnt_store_resume_data (TorrentID.toString id)
                                       (lastError_text DriverFailure)) CRITICAL))
        else (inr tt, stored w t names id rd b md)
    end.
Proof.
  intros Hn Ht Hok. unfold StoreJob_upsert.
  destruct (bencode (lt.dictionary_t data)) as [b|]; [|done].
  change (appendOnConflict _ _) with (store_statement names).
  unfold try_catch, mbind, M_bind at 1.
  rewrite prepare_or_throw_run, (store_statement_prepare _ _ t) by done.
  destruct (prepare_fails (store_statement names)); [done|]. simpl orb.
  unfold mbind, M_bind.
  rewrite exec_or_throw_run, (store_statement_exec _ _ t) by done.
  by destruct (exec_fails (store_statement names)).
Qed.
End run.

Lemma toString_inj id id' : TorrentID.toString id = TorrentID.toString id' → id = id'.
Proof. destruct id, id'. simpl. by intros ->. Qed.

Lemma has_id_unique id id' r : has_id id r → has_id id' r → id = id'.
Proof.
  rewrite !has_id_value. intros -> [=]. by apply toString_inj.
Qed.

Lemma list_find_replace_other {A} (P : A → Prop) `{!∀ x, Decision (P x)} l i x y :
  l !! i = Some x → ¬ P x → ¬ P y → list_find P (<[i:=y]> l) = list_find P l.
Proof.
  revert i. induction l as [|z l IH]; intros [|i] Hi Hx Hy; simplify_eq/=.
  - by rewrite !decide_False.
  - case_decide; [done|]. by rewrite (IH i).
Qed.

Lemma list_find_replace_same {A} (P : A → Prop) `{!∀ x, Decision (P x)} l i x y :
  list_find P l = Some (i, x) → P y → list_find P (<[i:=y]> l) = Some (i, y).
Proof.
  intros (Hi & Hx & Hleast)%list_find_Some Hy. apply list_find_Some. split_and!.
  - apply list_lookup_insert_eq. by eapply lookup_lt_Some.
  - done.
  - intros j z Hj Hlt. rewrite list_lookup_insert_ne in Hj by lia. eauto.
Qed.

Lemma torrents_with_table db t : torrents (with_table db DB_TABLE_TORRENTS t) = Some t.
Proof. unfold torrents, with_table. simpl. apply lookup_insert_eq. Qed.

Section find_stored.
Context (t : Table) (names : list string) (B : Bindings) (id : TorrentID.t).
Hypothesis (Hok : table_ok t).
Hypothesis (Htid : "torrent_id" ∈ names).
Hypothesis (Hbound : boundValue B ":torrent_id" = Text (TorrentID.toString id)).

Let updated (r' : Row) : Row := assignments (makeColumn <$> names) B ∪ r'.

Lemma updated_has_id r' : has_id id (updated r').
Proof.
  apply has_id_value. unfold updated. rewrite value_union_assigned by done.
  change (":" +:+ "torrent_id") with ":torrent_id". by rewrite Hbound.
Qed.

Lemma candidate_has_id : has_id id (candidate_row t (makeColumn <$> names) B).
Proof. apply has_id_value. by apply candidate_torrent_id. Qed.

Lemma find_upserted_same :
  snd <$> list_find (has_id id) (upserted t names B id) =
    Some (match list_find (has_id id) (tbl_rows t) with
          | Some (_, r') => updated r'
          | None => candidate_row t (makeColumn <$> names) B
          end).
Proof.
  unfold upserted. destruct (list_find (has_id id) (tbl_rows t)) as [[i r']|] eqn:Hfind.
  - by rewrite (list_find_replace_same _ _ _ r') by auto using updated_has_id.
  - rewrite list_find_app_r by done. simpl.
    by rewrite decide_True by apply candidate_has_id.
Qed.

Lemma find_upserted_other id' :
  id' ≠ id →
  snd <$> list_find (has_id id') (upserted t names B id) =
    snd <$> list_find (has_id id') (tbl_rows t).
Proof.
  intros Hne. unfold upserted.
  destruct (list_find (has_id id) (tbl_rows t)) as [[i r']|] eqn:Hfind.
  - apply list_find_Some in Hfind as (Hi & Hr' & _).
    rewrite (list_find_replace_other _ _ _ r'); [done..| |].
    + intros ?. by apply Hne, (has_id_unique _ _ r').
    + intros ?. by eapply Hne, has_id_unique, updated_has_id.
  - destruct (list_find (has_id id') (tbl_rows t)) as [[j r]|] eqn:Hfind'.
    + by rewrite (list_find_app_l _ _ _ _ _ Hfind').
    + rewrite list_find_app_r by done. simpl. rewrite decide_False; [done|].
      intros ?. by eapply Hne, has_id_unique, candidate_has_id.
Qed.
End find_stored.

(** ** The store job *)

Section store_job.
Context `{!Libtorrent, !Profile, !Driver}.

(** The part of the written resume data that goes into the resume
    column: all of it, or what is left once the metadata is taken out. *)
Definition resume_part (p : lt.add_torrent_params) : lt.dictionary_type :=
  match lt.ti p with
  | Some _ => (extract_metadata (write_resume_data p)).2
  | None => write_resume_data p
  end.

(** The two blobs a store job encodes (lines 788-819): the resume data
    and, for a descriptor with metadata, the metadata.  [None] when an
    encoder throws. *)
Definition encoded_blobs (rd : LoadTorrentParams.t) : option (string * option string) :=
  let p := StoreJob_params rd in
  match lt.ti p with
  | Some _ =>
      md ← bencode (lt.dictionary_t (extract_metadata (write_resume_data p)).1);
      b ← bencode (lt.dictionary_t (resume_part p));
      Some (b, Some md)
  | None => b ← bencode (lt.dictionary_t (resume_part p)); Some (b, None)
  end.

(** The columns the statement of a store job lists (lines 770-815). *)
Definition stored_names (rd : LoadTorrentParams.t) : list string :=
  match lt.ti (StoreJob_params rd) with
  | Some _ => StoreJob_names ++ ["metadata"]
  | None => StoreJob_names
  end.

Lemma stored_names_storable rd : storable (stored_names rd).
Proof. unfold stored_names, storable. destruct (lt.ti _); auto. Qed.

Lemma StoreJob_perform_run id rd w t b md :
  torrents (w_db w) = Some t → table_ok t →
  encoded_blobs rd = Some (b, md) →
  StoreJob_perform id rd w =
    if prepare_fails (store_statement (stored_names rd))
       || exec_fails (store_statement (stored_names rd))
    then (inr tt, log w (LogMsg (Couldnt_store_resume_data (TorrentID.toString id)
                                   (lastError_text DriverFailure)) CRITICAL))
    else (inr tt, stored w t (stored_names rd) id rd b (default "" md)).
Proof.
  intros Ht Hok Hb. unfold StoreJob_perform, encoded_blobs, stored_names, resume_part in *.
  destruct (lt.ti (StoreJob_params rd)) as [ti|].
  - destruct (extract_metadata _) as [metadataDict dataDict]. cbn [fst snd] in Hb.
    destruct (bencode (lt.dictionary_t metadataDict)) as [m|]; [|done].
    cbn [mbind option_bind] in Hb.
    destruct (bencode (lt.dictionary_t dataDict)) as [b'|] eqn:Hb'; [|done].
    injection Hb as <- <-. rewrite StoreJob_columns_metadata.
    rewrite (StoreJob_upsert_run _ _ _ _ _ _ t), Hb' by (unfold storable; auto). done.
  - destruct (bencode (lt.dictionary_t _)) as [b'|] eqn:Hb'; [|done].
    injection Hb as <- <-. rewrite StoreJob_columns_names.
    rewrite (StoreJob_upsert_run _ _ _ _ _ _ t), Hb' by (unfold storable; auto). done.
Qed.

(** Whatever the encoders and the driver do, a store job leaves the store
    as it was or with the one row upserted. *)
Lemma StoreJob_perform_db id rd w t :
  torrents (w_db w) = Some t → table_ok t →
  w_db (StoreJob_perform id rd w).2 = w_db w
  ∨ ∃ names b md, storable names
      ∧ w_db (StoreJob_perform id rd w).2 = w_db (stored w t names id rd b md).
Proof.
  intros Ht Hok. unfold StoreJob_perform.
  assert (∀ names data md, storable names →
    w_db (StoreJob_upsert id rd (makeColumn <$> names) data md w).2 = w_db w
    ∨ ∃ names' b' md', storable names'
        ∧ w_db (StoreJob_upsert id rd (makeColumn <$> names) data md w).2
          = w_db (stored w t names' id rd b' md')) as Hup.
  { intros names data md Hn. rewrite (StoreJob_upsert_run _ _ _ _ _ _ t) by done.
    destruct (bencode _) as [b|]; [|by left].
    destruct (_ || _); [by left|]. right. by exists names, b, md. }
  destruct (lt.ti (StoreJob_params rd)).
  - destruct (extract_metadata _) as [metadataDict dataDict].
    destruct (bencode (lt.dictionary_t metadataDict)); [|by left].
    rewrite StoreJob_columns_metadata. apply Hup. unfold storable; auto.
  - rewrite StoreJob_columns_names. apply Hup. unfold storable; auto.
Qed.

Lemma find_row_stored_same w t names id rd b md :
  storable names → torrents (w_db w) = Some t → table_ok t →
  find_row (w_db (stored w t names id rd b md)) id =
    Some (match find_row (w_db w) id with
          | Some r' => assignments (makeColumn <$> names) (StoreJob_bindings id rd b md) ∪ r'
          | None => candidate_row t (makeColumn <$> names) (StoreJob_bindings id rd b md)
          end).
Proof.
  intros Hn Ht Hok. unfold find_row, stored. cbn [w_db set_db].
  rewrite torrents_with_table, Ht. cbn [mbind option_bind with_rows tbl_rows].
  rewrite find_upserted_same by eauto using storable_torrent_id, bound_torrent_id.
  by destruct (list_find (has_id id) (tbl_rows t)) as [[i r']|].
Qed.

Lemma find_row_stored_other w t names id rd b md id' :
  storable names → torrents (w_db w) = Some t → table_ok t → id' ≠ id →
  find_row (w_db (stored w t names id rd b md)) id' = find_row (w_db w) id'.
Proof.
  intros Hn Ht Hok Hne. unfold find_row, stored. cbn [w_db set_db].
  rewrite torrents_with_table, Ht. cbn [mbind option_bind with_rows tbl_rows].
  by rewrite find_upserted_other by eauto using storable_torrent_id, bound_torrent_id.
Qed.

(** A store job keeps the queue position of every row it finds and
    gives the default to the row it creates. *)
Lemma stored_queue_position w t names id rd b md id' r' :
  storable names → torrents (w_db w) = Some t → table_ok t →
  find_row (w_db (stored w t names id rd b md)) id' = Some r' →
  value r' "queue_position" =
    match find_row (w_db w) id' with
    | Some r => value r "queue_position"
    | None => Int (-1)
    end.
Proof.
  intros Hn Ht Hok Hr'. destruct (decide (id' = id)) as [->|Hne].
  - rewrite find_row_stored_same in Hr' by done. injection Hr' as <-.
    destruct (find_row (w_db w) id) as [r|].
    + apply value_union_kept. by apply storable_queue_position.
    + apply candidate_queue_position; [done|]. by apply storable_queue_position.
  - rewrite find_row_stored_other in Hr' by done. by rewrite Hr'.
Qed.
End store_job.

(** ** The remove job *)

Lemma list_find_filter_implied {A} (P Q : A → Prop)
    `{!∀ x, Decision (P x), !∀ x, Decision (Q x)} (l : list A) :
  (∀ x, P x → Q x) → snd <$> list_find P (filter Q l) = snd <$> list_find P l.
Proof.
  intros HPQ. induction l as [|x l IH]; [done|].
  rewrite filter_cons. cbn [list_find]. destruct (decide (P x)) as [HP|HP].
  - rewrite decide_True by auto. cbn [list_find]. by rewrite decide_True.
  - destruct (decide (Q x)).
    + cbn [list_find]. rewrite decide_False by done.
      destruct (list_find P (filter Q l)) as [[??]|], (list_find P l) as [[??]|];
        simplify_eq/=; done.
    + by destruct (list_find P (filter Q l)) as [[??]|], (list_find P l) as [[??]|];
        simplify_eq/=.
Qed.

Lemma list_find_filter_excluded {A} (P Q : A → Prop)
    `{!∀ x, Decision (P x), !∀ x, Decision (Q x)} (l : list A) :
  (∀ x, P x → ¬ Q x) → list_find P (filter Q l) = None.
Proof.
  intros HPQ. apply list_find_None, Forall_forall.
  intros x [HQ _]%list_elem_of_filter HP. by apply (HPQ x).
Qed.

Definition bind_torrent_id (id : TorrentID.t) : Bindings :=
  bindValue (Column.placeholder DB_COLUMN_TORRENT_ID) (Text (TorrentID.toString id)) ∅.

Lemma matches_torrent_id id r :
  matches (Some DB_COLUMN_TORRENT_ID) (bind_torrent_id id) r = true ↔ has_id id r.
Proof.
  unfold matches, bind_torrent_id, bindValue, boundValue, has_id.
  by rewrite lookup_insert_eq.
Qed.

Lemma has_torrent_id_column t :
  tbl_columns t = torrents_schema → has_columns t ["torrent_id"] = true.
Proof. intros Hs. rewrite (has_columns_schema _ _ Hs). by vm_compute. Qed.

(** The rows a remove job leaves. *)
Definition removed (t : Table) (id : TorrentID.t) : list Row :=
  filter (λ r, matches (Some DB_COLUMN_TORRENT_ID) (bind_torrent_id id) r = false)
         (tbl_rows t).

Section remove_job.
Context `{!Libtorrent, !Profile, !Driver}.

Lemma RemoveJob_perform_run id w t :
  torrents (w_db w) = Some t → table_ok t →
  RemoveJob_perform id w =
    if prepare_fails deleteTorrentStatement || exec_fails deleteTorrentStatement
    then (inr tt, log w (LogMsg (Couldnt_delete_resume_data (TorrentID.toString id)
                                   (lastError_text DriverFailure)) CRITICAL))
    else (inr tt, set_db w (with_table (w_db w) DB_TABLE_TORRENTS
                              (with_rows t (removed t id)))).
Proof.
  intros Ht Hok. unfold RemoveJob_perform, try_catch, mbind, M_bind at 1.
  rewrite prepare_or_throw_run.
  assert (sql_prepare deleteTorrentStatement (w_db w) = None) as ->.
  { unfold deleteTorrentStatement, sql_prepare. unfold torrents in Ht. rewrite Ht.
    change (Column.name DB_COLUMN_TORRENT_ID) with "torrent_id".
    by rewrite (has_torrent_id_column _ (ok_schema _ Hok)). }
  destruct (prepare_fails deleteTorrentStatement); [done|]. cbn [orb].
  unfold mbind, M_bind. rewrite exec_or_throw_run.
  destruct (exec_fails deleteTorrentStatement); [done|].
  unfold deleteTorrentStatement, sql_exec, exec_delete. unfold torrents in Ht. rewrite Ht.
  change (Column.name DB_COLUMN_TORRENT_ID) with "torrent_id".
  by rewrite (has_torrent_id_column _ (ok_schema _ Hok)).
Qed.

Lemma find_row_removed w t id id' :
  torrents (w_db w) = Some t →
  find_row (with_table (w_db w) DB_TABLE_TORRENTS (with_rows t (removed t id))) id' =
    if decide (id' = id) then None else find_row (w_db w) id'.
Proof.
  intros Ht. unfold find_row. rewrite torrents_with_table, Ht.
  cbn [mbind option_bind with_rows tbl_rows]. unfold removed.
  destruct (decide (id' = id)) as [->|Hne].
  - rewrite list_find_filter_excluded; [done|].
    intros r Hr. apply matches_torrent_id in Hr. by rewrite Hr.
  - apply list_find_filter_implied. intros r Hr.
    apply not_true_is_false. intros Hm%matches_torrent_id.
    by apply Hne, (has_id_unique _ _ r).
Qed.
End remove_job.

(** ** What a store job writes and what it keeps *)

(** The value each listed column takes from a descriptor (lines 830-850),
    [b] being the encoded resume data. *)
Definition StoreJob_values `{!Profile} (id : TorrentID.t) (rd : LoadTorrentParams.t)
    (b : string) : list (string * QVariant) := [
  ("torrent_id", Text (TorrentID.toString id));
  ("name", Text (LoadTorrentParams.name rd));
  ("category", Text (LoadTorrentParams.category rd));
  ("tags", tags_value (LoadTorrentParams.tags rd));
  ("target_save_path",
   if LoadTorrentParams.useAutoTMM rd then Null
   else Text (toPortablePath (LoadTorrentParams.savePath rd)));
  ("download_path",
   if LoadTorrentParams.useAutoTMM rd then Null
   else Text (toPortablePath (LoadTorrentParams.downloadPath rd)));
  ("content_layout", Text (fromEnum (LoadTorrentParams.contentLayout rd)));
  ("ratio_limit", ratio_value (LoadTorrentParams.ratioLimit rd));
  ("seeding_time_limit", Int (LoadTorrentParams.seedingTimeLimit rd));
  ("has_outer_pieces_priority", fromBool (LoadTorrentParams.firstLastPiecePriority rd));
  ("has_seed_status", fromBool (LoadTorrentParams.hasFinishedStatus rd));
  ("operating_mode", Text (fromEnum (LoadTorrentParams.operatingMode rd)));
  ("stopped", fromBool (LoadTorrentParams.stopped rd));
  ("stop_condition", Text (fromEnum (LoadTorrentParams.stopCondition rd)));
  ("libtorrent_resume_data", Blob b)
].

(** The metadata column after a store job: the encoded metadata when the
    descriptor carries some, and otherwise what the column held before
    ([Null] in a row the job creates). *)
Definition metadata_after (md : option string) (before : QVariant) : QVariant :=
  match md with
  | Some m => if bool_decide (m = "") then Null else Blob m
  | None => before
  end.

Section store_claims.
Context `{!Libtorrent, !Profile, !Driver}.

Lemma stored_names_listed rd c :
  c ∈ StoreJob_names → c ∈ stored_names rd.
Proof. unfold stored_names. destruct (lt.ti _); set_solver. Qed.

Lemma stored_values w t id rd b md row' :
  torrents (w_db w) = Some t → table_ok t →
  encoded_blobs rd = Some (b, md) →
  find_row (w_db (stored w t (stored_names rd) id rd b (default "" md))) id = Some row' →
  Forall (λ cv, value row' cv.1 = cv.2) (StoreJob_values id rd b)
  ∧ value row' "metadata"
    = metadata_after md (from_option (λ r, value r "metadata") Null (find_row (w_db w) id))
  ∧ value row' "id"
    = from_option (λ r, value r "id") (Int (next_rowid "id" (tbl_rows t)))
                  (find_row (w_db w) id).
Proof.
  intros Ht Hok Hb Hrow'.
  pose proof (stored_names_storable rd) as Hn.
  rewrite find_row_stored_same in Hrow' by done. injection Hrow' as <-.
  set (B := StoreJob_bindings id rd b (default "" md)).
  assert (∀ c, c ∈ stored_names rd →
    value (match find_row (w_db w) id with
           | Some r' => assignments (makeColumn <$> stored_names rd) B ∪ r'
           | None => candidate_row t (makeColumn <$> stored_names rd) B
           end) c = boundValue B (":" +:+ c)
    ∨ boundValue B (":" +:+ c) = Null) as Hlisted.
  { intros c Hc. destruct (find_row (w_db w) id) as [r'|].
    - left. by apply value_union_assigned.
    - destruct (tbl_columns t !! c) as [d|] eqn:Hd.
      + rewrite (candidate_row_listed _ _ _ _ d) by done.
        destruct (bool_decide (boundValue B (":" +:+ c) = Null)) eqn:Hnull.
        * right. by apply bool_decide_eq_true in Hnull.
        * left. by rewrite andb_false_r.
      + exfalso. pose proof (storable_cols _ Hn) as Hcols.
        rewrite forallb_forall in Hcols. apply list_elem_of_In, Hcols in Hc.
        apply bool_decide_eq_true in Hc. rewrite <- (ok_schema _ Hok), Hd in Hc.
        by destruct Hc. }
  assert (∀ c v, c ∈ StoreJob_names → boundValue B (":" +:+ c) = v →
    value (match find_row (w_db w) id with
           | Some r' => assignments (makeColumn <$> stored_names rd) B ∪ r'
           | None => candidate_row t (makeColumn <$> stored_names rd) B
           end) c = v) as Hval.
  { intros c v Hc Hv. destruct (find_row (w_db w) id) as [r'|] eqn:Hfind.
    - rewrite <- Hv. apply value_union_assigned. by apply stored_names_listed.
    - destruct (Hlisted c (stored_names_listed rd c Hc)) as [H'|H']; [by rewrite H'|].
      rewrite H' in Hv. subst v. unfold value, candidate_row.
      rewrite map_lookup_imap. destruct (tbl_columns t !! c) as [d|] eqn:Hd; [|done].
      cbn [mbind option_bind]. rewrite assignments_lookup.
      rewrite decide_True by by apply stored_names_listed. rewrite H'.
      rewrite (ok_schema _ Hok) in Hd. cbn [default].
      replace (primary_key d) with false; [done|].
      clear -Hd Hc. schema_cases Hd; try done. exfalso. revert Hc. compute_done. }
  split_and!.
  - unfold StoreJob_values. repeat apply Forall_cons_2; [..|apply Forall_nil_2];
      cbn [fst snd]; (apply Hval; [compute_done|]).
    + apply bound_torrent_id.
    + apply bound_name.
    + apply bound_category.
    + apply bound_tags.
    + apply bound_target_save_path.
    + apply bound_download_path.
    + apply bound_content_layout.
    + apply bound_ratio_limit.
    + apply bound_seeding_time_limit.
    + apply bound_has_outer_pieces_priority.
    + apply bound_has_seed_status.
    + apply bound_operating_mode.
    + apply bound_stopped.
    + apply bound_stop_condition.
    + apply bound_resume_data.
  - unfold metadata_after, encoded_blobs, stored_names in *.
    destruct (lt.ti (StoreJob_params rd)).
    + apply bind_Some in Hb as (m & _ & Hb). apply bind_Some in Hb as (b' & _ & Hb).
      injection Hb as <- <-. cbn [default] in B.
      assert (boundValue B ":metadata" = if bool_decide (m = "") then Null else Blob m)
        as HB by apply bound_metadata.
      destruct (find_row (w_db w) id) as [r'|].
      * rewrite value_union_assigned by compute_done. done.
      * rewrite (candidate_row_listed _ _ _ _ (NULLABLE "BLOB"));
          [|by rewrite (ok_schema _ Hok)|compute_done].
        done.
    + apply bind_Some in Hb as (b' & _ & Hb). injection Hb as <- <-.
      destruct (find_row (w_db w) id) as [r'|].
      * rewrite value_union_kept by compute_done. done.
      * by rewrite (candidate_row_unlisted _ _ _ _ (NULLABLE "BLOB"));
          [|by rewrite (ok_schema _ Hok)|compute_done].
  - destruct (find_row (w_db w) id) as [r'|].
    + apply value_union_kept. by apply storable_id.
    + apply candidate_id; [done|]. by apply storable_id.
Qed.
End store_claims.

Section store_theorems.
Context `{!Libtorrent, !Profile, !Driver}.

Lemma StoreJob_perform_ok id rd w t b md :
  torrents (w_db w) = Some t → table_ok t →
  driver_ok (store_statement (stored_names rd)) →
  encoded_blobs rd = Some (b, md) →
  perform (StoreJob id rd) w
  = (inr tt, stored w t (stored_names rd) id rd b (default "" md)).
Proof.
  intros Ht Hok [Hp He] Hb. cbn [perform].
  by rewrite (StoreJob_perform_run _ _ _ t b md), Hp, He.
Qed.

(** C1, as amended: a store job on an identifier that already has a row
    overwrites every column its statement lists with the value encoded
    from the new descriptor; the row keeps its [id] and its
    [queue_position], and it keeps its [metadata] when the new descriptor
    carries no content metadata (the statement lists that column only for
    a descriptor with metadata). *)
Theorem store_job_overwrites_listed_columns id rd w t row b md :
  torrents (w_db w) = Some t → table_ok t →
  find_row (w_db w) id = Some row →
  driver_ok (store_statement (stored_names rd)) →
  encoded_blobs rd = Some (b, md) →
  ∃ row', find_row (w_db (perform (StoreJob id rd) w).2) id = Some row'
    ∧ Forall (λ cv, value row' cv.1 = cv.2) (StoreJob_values id rd b)
    ∧ value row' "metadata" = metadata_after md (value row "metadata")
    ∧ value row' "id" = value row "id"
    ∧ value row' "queue_position" = value row "queue_position".
Proof.
  intros Ht Hok Hrow Hdrv Hb.
  rewrite (StoreJob_perform_ok _ _ _ t b md) by done. cbn [snd].
  pose proof (stored_names_storable rd) as Hn.
  destruct (find_row (w_db (stored w t (stored_names rd) id rd b (default "" md))) id)
    as [row'|] eqn:Hrow'; [|by rewrite find_row_stored_same in Hrow'].
  exists row'. split; [done|].
  destruct (stored_values _ _ _ _ _ _ _ Ht Hok Hb Hrow') as (Hvals & Hmeta & Hid).
  rewrite Hrow in Hmeta, Hid. split_and!; [done..|].
  rewrite (stored_queue_position _ _ _ _ _ _ _ _ _ Hn Ht Hok Hrow'). by rewrite Hrow.
Qed.

(** C9: a store job and a remove job never write [queue_position].  Every
    row found after such a job has the queue position it had before, or
    the default -1 when the job created it; and a store job whose
    statement runs does leave a row for its identifier. *)
Theorem queue_position_written_only_by_reorder job w t :
  torrents (w_db w) = Some t → table_ok t →
  (∀ queue, job ≠ StoreQueueJob queue) →
  (∀ id r', find_row (w_db (perform job w).2) id = Some r' →
     value r' "queue_position" =
       match find_row (w_db w) id with
       | Some r => value r "queue_position"
       | None => Int (-1)
       end)
  ∧ (∀ id rd b md, job = StoreJob id rd →
       driver_ok (store_statement (stored_names rd)) →
       encoded_blobs rd = Some (b, md) →
       is_Some (find_row (w_db (perform job w).2) id)).
Proof.
  intros Ht Hok Hjob. split.
  - intros id' r' Hr'. destruct job as [id rd|id|queue]; [| |by destruct (Hjob queue)];
      cbn [perform] in Hr'.
    + destruct (StoreJob_perform_db id rd w t Ht Hok) as [Hsame|(names & b & md & Hn & Hdb)].
      * rewrite Hsame in Hr'. by rewrite Hr'.
      * rewrite Hdb in Hr'. by apply (stored_queue_position _ _ _ _ _ _ _ _ _ Hn Ht Hok Hr').
    + rewrite (RemoveJob_perform_run _ _ t) in Hr' by done.
      destruct (_ || _); cbn [snd log set_db w_db] in Hr'; [by rewrite Hr'|].
      rewrite find_row_removed in Hr' by done. case_decide; [done|]. by rewrite Hr'.
  - intros id rd b md -> Hdrv Hb.
    rewrite (StoreJob_perform_ok _ _ _ t b md) by done. cbn [snd].
    by rewrite find_row_stored_same by auto using stored_names_storable.
Qed.

Lemma StoreJob_flags rd :
  let flags := lt.flags (StoreJob_params rd) in
  if LoadTorrentParams.stopped rd
  then has_flag flags lt.torrent_flags.paused = true
       ∧ has_flag flags lt.torrent_flags.auto_managed = false
  else if bool_decide (LoadTorrentParams.operatingMode rd = AutoManaged)
  then has_flag flags lt.torrent_flags.auto_managed = true
  else has_flag flags lt.torrent_flags.paused = false
       ∧ has_flag flags lt.torrent_flags.auto_managed = false.
Proof.
  unfold StoreJob_params, lt.torrent_flags.paused, lt.torrent_flags.auto_managed.
  cbn [lt.flags]. destruct (LoadTorrentParams.stopped rd); [|case_bool_decide];
    rewrite !has_flag_bit, ?testbit_clear_flag, ?testbit_set_flag by lia;
    change (4 =? 4) with true; change (5 =? 5) with true;
    change (4 =? 5) with false; change (5 =? 4) with false; cbn [negb];
    rewrite ?orb_true_r, ?orb_false_r, ?andb_true_r, ?andb_false_r; done.
Qed.

(** C6: the resume blob a store job writes is the encoding of what
    [write_resume_data] returns for the adjusted parameters (less the
    metadata keys), and the flags of these parameters are: paused set and
    auto-managed cleared for a stopped descriptor; otherwise auto-managed
    set in automatic mode, and both cleared in any other mode. *)
Theorem store_job_normalizes_flags id rd w t b md :
  torrents (w_db w) = Some t → table_ok t →
  driver_ok (store_statement (stored_names rd)) →
  encoded_blobs rd = Some (b, md) →
  let p := StoreJob_params rd in
  (∃ row', find_row (w_db (perform (StoreJob id rd) w).2) id = Some row'
           ∧ value row' "libtorrent_resume_data" = Blob b)
  ∧ bencode (lt.dictionary_t (resume_part p)) = Some b
  ∧ if LoadTorrentParams.stopped rd
    then has_flag (lt.flags p) lt.torrent_flags.paused = true
         ∧ has_flag (lt.flags p) lt.torrent_flags.auto_managed = false
    else if bool_decide (LoadTorrentParams.operatingMode rd = AutoManaged)
    then has_flag (lt.flags p) lt.torrent_flags.auto_managed = true
    else has_flag (lt.flags p) lt.torrent_flags.paused = false
         ∧ has_flag (lt.flags p) lt.torrent_flags.auto_managed = false.
Proof.
  intros Ht Hok Hdrv Hb p. split_and!; [| |apply StoreJob_flags].
  - rewrite (StoreJob_perform_ok _ _ _ t b md) by done. cbn [snd].
    destruct (find_row (w_db (stored w t (stored_names rd) id rd b (default "" md))) id)
      as [row'|] eqn:Hrow';
      [|by rewrite find_row_stored_same in Hrow' by auto using stored_names_storable].
    exists row'. split; [done|].
    destruct (stored_values _ _ _ _ _ _ _ Ht Hok Hb Hrow') as (Hvals & _).
    rewrite Forall_forall in Hvals.
    apply (Hvals ("libtorrent_resume_data", Blob b)). unfold StoreJob_values. set_solver.
  - unfold encoded_blobs in Hb. fold p in Hb. destruct (lt.ti p).
    + apply bind_Some in Hb as (m & _ & Hb). apply bind_Some in Hb as (b' & Hb' & Hb).
      by injection Hb as <- <-.
    + apply bind_Some in Hb as (b' & Hb' & Hb). by injection Hb as <- <-.
Qed.
End store_theorems.

(** ** Loading one record *)

Lemma head_filter_find {A} (P : A → Prop) `{!∀ x, Decision (P x)} (l : list A) :
  head (filter P l) = snd <$> list_find P l.
Proof.
  induction l as [|x l IH]; [done|]. rewrite filter_cons. cbn [list_find].
  destruct (decide (P x)); [done|]. rewrite IH. by destruct (list_find P l) as [[??]|].
Qed.

Lemma set_db_same w : set_db w (w_db w) = w.
Proof. by destruct w. Qed.

Lemma filter_matches_torrent_id id (rows : list Row) :
  filter (λ r, matches (Some DB_COLUMN_TORRENT_ID) (bind_torrent_id id) r = true) rows
  = filter (has_id id) rows.
Proof. apply list_filter_iff. intros r. apply matches_torrent_id. Qed.

Section load_theorems.
Context `{!Libtorrent, !Profile, !Driver}.

Lemma load_run id w t :
  torrents (w_db w) = Some t → tbl_columns t = torrents_schema →
  load id w =
    if prepare_fails selectTorrentStatement || exec_fails selectTorrentStatement
    then (inr (inl (Couldnt_load_resume_data (TorrentID.toString id)
                      (lastError_text DriverFailure))), w)
    else match find_row (w_db w) id with
         | None => (inr (inl (Couldnt_load_resume_data (TorrentID.toString id) Not_found)), w)
         | Some query => (inr (inr (parseQueryResultRow query)), w)
         end.
Proof.
  intros Ht Hs. unfold load, try_catch. unfold mbind at 1, M_bind at 1.
  unfold mbind at 1, M_bind at 1. rewrite prepare_or_throw_run.
  assert (sql_prepare selectTorrentStatement (w_db w) = None) as ->.
  { unfold selectTorrentStatement, sql_prepare. unfold torrents in Ht. rewrite Ht.
    cbn [from_option app]. change (Column.name DB_COLUMN_TORRENT_ID) with "torrent_id".
    by rewrite (has_torrent_id_column _ Hs). }
  destruct (prepare_fails selectTorrentStatement); [done|]. cbn [orb].
  unfold mbind at 1, M_bind at 1. rewrite exec_or_throw_run.
  destruct (exec_fails selectTorrentStatement); [done|].
  unfold selectTorrentStatement, sql_exec, exec_select. unfold torrents in Ht. rewrite Ht.
  cbn [from_option app]. change (Column.name DB_COLUMN_TORRENT_ID) with "torrent_id".
  rewrite (has_torrent_id_column _ Hs). cbn [negb on_ok]. rewrite set_db_same.
  fold (bind_torrent_id id). rewrite filter_matches_torrent_id.
  unfold find_row, torrents. rewrite Ht. cbn [mbind option_bind].
  rewrite <- head_filter_find. by destruct (filter (has_id id) (tbl_rows t)).
Qed.

(** C2, as amended: with the query running, [load] reports "not found"
    exactly when no row has the identifier; when a row has it, [load]
    returns the record decoded from that row and never an error, whatever
    the decoders report about its blobs (their error codes are not read). *)
Theorem load_not_found_iff_no_row id w t :
  torrents (w_db w) = Some t → tbl_columns t = torrents_schema →
  driver_ok selectTorrentStatement →
  ((load id w).1 = inr (inl (Couldnt_load_resume_data (TorrentID.toString id) Not_found))
   ↔ find_row (w_db w) id = None)
  ∧ (∀ query, find_row (w_db w) id = Some query →
       (load id w).1 = inr (inr (parseQueryResultRow query))).
Proof.
  intros Ht Hs [Hp He]. rewrite (load_run _ _ t), Hp, He by done. cbn [orb].
  destruct (find_row (w_db w) id) as [query|]; split; try done.
  - intros query' [= <-]. done.
Qed.

(** C5: when the resume blob of a row decodes to flags with the legacy
    "stop when ready" bit, the loaded descriptor has that bit cleared and
    every other bit as decoded, and its stop condition is "files checked"
    whatever the stop-condition column holds. *)
Theorem load_replaces_stop_when_ready id w t query :
  torrents (w_db w) = Some t → tbl_columns t = torrents_schema →
  driver_ok selectTorrentStatement →
  find_row (w_db w) id = Some query →
  let decoded :=
    (read_resume_data
       (bdecode (toByteArray (value query (Column.name DB_COLUMN_RESUMEDATA)))).1).1 in
  has_flag (lt.flags decoded) lt.torrent_flags.stop_when_ready = true →
  ∃ resumeData, (load id w).1 = inr (inr resumeData)
    ∧ has_flag (lt.flags (LoadTorrentParams.ltAddTorrentParams resumeData))
               lt.torrent_flags.stop_when_ready = false
    ∧ (∀ n, 0 <= n → n ≠ 10 →
         Z.testbit (lt.flags (LoadTorrentParams.ltAddTorrentParams resumeData)) n
         = Z.testbit (lt.flags decoded) n)
    ∧ LoadTorrentParams.stopCondition resumeData = StopCondition.FilesChecked.
Proof.
  intros Ht Hs [Hp He] Hrow decoded Hflag.
  exists (parseQueryResultRow query).
  split; [by rewrite (load_run _ _ t), Hp, He, Hrow by done|].
  unfold parseQueryResultRow. cbn [LoadTorrentParams.ltAddTorrentParams lt.flags
    LoadTorrentParams.stopCondition]. fold decoded. rewrite Hflag.
  unfold lt.torrent_flags.stop_when_ready. split_and!; [|intros n Hn Hne|done].
  - rewrite has_flag_bit, testbit_clear_flag by lia.
    change (10 =? 10) with true. by rewrite andb_false_r.
  - rewrite testbit_clear_flag by lia.
    destruct (Z.eqb_spec 10 n); [lia|]. by rewrite andb_true_r.
Qed.
End load_theorems.

(** ** Loading all records *)

(** Each signal of a trace with whether the database lock is held when it
    is observed; [held] is the state of the lock before the trace. *)
Fixpoint under_lock (held : bool) (events : list Event) : list (Event * bool) :=
  match events with
  | [] => []
  | lockForRead :: rest | lockForWrite :: rest => under_lock true rest
  | unlock :: rest => under_lock false rest
  | e :: rest => (e, held) :: under_lock held rest
  end.

Section load_all.
Context `{!Libtorrent, !Profile, !Driver}.

Definition loaded (query : Row) : Event :=
  onResumeDataLoaded (torrentID_of query) (inr (parseQueryResultRow query)).

Lemma for_each_emit {A} (f : A → Event) (l : list A) (w : World) :
  for_each l (λ x, emit (f x)) w =
    (inr tt, {| w_db := w_db w; w_saved := w_saved w; w_events := w_events w ++ (f <$> l) |}).
Proof.
  revert w. induction l as [|x l IH]; intros w; cbn [for_each].
  - unfold mret, M_ret. rewrite app_nil_r. by destruct w.
  - unfold mbind, M_bind, emit. rewrite IH. cbn [w_db w_saved w_events].
    by rewrite <- app_assoc.
Qed.

Lemma select_run column order w :
  exec_or_throw (Select column DB_TABLE_TORRENTS None order) ∅ w =
    if exec_fails (Select column DB_TABLE_TORRENTS None order)
    then (inl (RuntimeError (lastError_text DriverFailure)), w)
    else match exec_select (w_db w) column DB_TABLE_TORRENTS None order ∅ with
         | inl e => (inl (RuntimeError (lastError_text e)), w)
         | inr rows => (inr rows, w)
         end.
Proof.
  rewrite exec_or_throw_run. destruct (exec_fails _); [done|].
  unfold sql_exec. destruct (exec_select _ _ _ _ _ _); cbn [on_ok]; [done|].
  by rewrite set_db_same.
Qed.

Definition emits (w : World) (events : list Event) : World :=
  {| w_db := w_db w; w_saved := w_saved w; w_events := w_events w ++ events |}.

Lemma doLoadAll_run w :
  doLoadAll w =
    if open_fails then (inl (RuntimeError (lastError_text DriverFailure)), w)
    else if exec_fails selectTorrentIDStatement
    then (inl (RuntimeError (lastError_text DriverFailure)), emits w [lockForRead; unlock])
    else match exec_select (w_db w) (Some "torrent_id") DB_TABLE_TORRENTS None
                           (Some "queue_position") ∅ with
    | inl e => (inl (RuntimeError (lastError_text e)), emits w [lockForRead; unlock])
    | inr ids =>
        let started := [lockForRead; loadStarted (torrentID_of <$> ids)] in
        if exec_fails selectStatement
        then (inl (RuntimeError (lastError_text DriverFailure)), emits w (started ++ [unlock]))
        else match exec_select (w_db w) None DB_TABLE_TORRENTS None
                               (Some "queue_position") ∅ with
        | inl e => (inl (RuntimeError (lastError_text e)), emits w (started ++ [unlock]))
        | inr rows =>
            (inr tt, emits w (started ++ (loaded <$> rows) ++ [unlock; loadFinished]))
        end
    end.
Proof.
  unfold doLoadAll, locked, db_open. unfold mbind, M_bind. destruct open_fails; [done|].
  unfold selectTorrentIDStatement, selectStatement, emits, emit.
  change (Column.name DB_COLUMN_TORRENT_ID) with "torrent_id".
  change (Column.name DB_COLUMN_QUEUE_POSITION) with "queue_position".
  cbv beta iota zeta. rewrite select_run. cbn [w_db w_saved w_events fst snd].
  destruct (exec_fails (Select (Some "torrent_id") _ _ _)).
  { cbv beta iota zeta. cbn [w_db w_saved w_events fst snd]. by rewrite <- app_assoc. }
  destruct (exec_select (w_db w) (Some "torrent_id") _ _ _ _) as [e|ids].
  { cbv beta iota zeta. cbn [w_db w_saved w_events fst snd]. by rewrite <- app_assoc. }
  cbv beta iota zeta. rewrite select_run. cbn [w_db w_saved w_events fst snd].
  destruct (exec_fails (Select None _ _ _)).
  { cbv beta iota zeta. cbn [w_db w_saved w_events fst snd]. by rewrite <- !app_assoc. }
  destruct (exec_select (w_db w) None _ _ _ _) as [e|rows].
  { cbv beta iota zeta. cbn [w_db w_saved w_events fst snd]. by rewrite <- !app_assoc. }
  cbv beta iota zeta. fold loaded. rewrite (for_each_emit loaded).
  cbn [w_db w_saved w_events fst snd]. by rewrite <- !app_assoc.
Qed.

(** C3, as amended: [doLoadAll] never changes the store, and what it emits
    is: nothing when the connection cannot be opened; otherwise the read
    lock is taken first, the start signal and every record signal follow
    while it is held, the lock is released, and only then, in a run that
    did not throw, the finish signal is emitted. *)
Theorem doLoadAll_releases_lock_before_finish w :
  w_db (doLoadAll w).2 = w_db w
  ∧ ∃ signals, w_events (doLoadAll w).2 = w_events w ++ signals
    ∧ match (doLoadAll w).1 with
      | inr _ =>
          ∃ ids rows,
            exec_select (w_db w) (Some "torrent_id") DB_TABLE_TORRENTS None
                        (Some "queue_position") ∅ = inr ids
            ∧ exec_select (w_db w) None DB_TABLE_TORRENTS None
                          (Some "queue_position") ∅ = inr rows
            ∧ signals = [lockForRead; loadStarted (torrentID_of <$> ids)]
                        ++ (loaded <$> rows) ++ [unlock; loadFinished]
      | inl _ =>
          signals = [] ∨ signals = [lockForRead; unlock]
          ∨ ∃ ids, signals = [lockForRead; loadStarted ids; unlock]
      end.
Proof.
  rewrite doLoadAll_run. destruct open_fails.
  { split; [done|]. exists []. split; [by rewrite app_nil_r|]. cbn [fst]. auto. }
  destruct (exec_fails selectTorrentIDStatement).
  { split; [done|]. exists [lockForRead; unlock]. split; [done|]. cbn [fst]. auto. }
  destruct (exec_select (w_db w) (Some "torrent_id") _ _ _ _) as [e|ids].
  { split; [done|]. exists [lockForRead; unlock]. split; [done|]. cbn [fst]. auto. }
  cbv zeta. destruct (exec_fails selectStatement).
  { split; [done|]. eexists. split; [reflexivity|]. cbn [fst app]. eauto. }
  destruct (exec_select (w_db w) None _ _ _ _) as [e|rows].
  { split; [done|]. eexists. split; [reflexivity|]. cbn [fst app]. eauto. }
  split; [done|]. eexists. split; [reflexivity|]. cbn [fst]. by exists ids, rows.
Qed.
End load_all.

(** ** The reorder job *)

(** One [UPDATE ... SET queue_position = pos WHERE torrent_id = id]. *)
Definition reposition (id : TorrentID.t) (pos : Z) (rows : list Row) : list Row :=
  (λ r, if decide (has_id id r) then <["queue_position" := Int pos]> r else r) <$> rows.

(** The rows after the loop of a reorder job that starts at [pos]. *)
Fixpoint repositioned (queue : list TorrentID.t) (pos : Z) (rows : list Row) : list Row :=
  match queue with
  | [] => rows
  | id :: rest => repositioned rest (pos + 1) (reposition id pos rows)
  end.

Definition bind_queue_position (id : TorrentID.t) (pos : Z) : Bindings :=
  bindValue (Column.placeholder DB_COLUMN_QUEUE_POSITION) (Int pos)
    (bindValue (Column.placeholder DB_COLUMN_TORRENT_ID) (Text (TorrentID.toString id)) ∅).

Lemma with_rows_same t : with_rows t (tbl_rows t) = t.
Proof. by destruct t. Qed.

Lemma with_table_same db t : torrents db = Some t → with_table db DB_TABLE_TORRENTS t = db.
Proof.
  intros Ht. unfold with_table. rewrite insert_id by done. by destruct db.
Qed.

Lemma with_table_twice db t t' :
  with_table (with_table db DB_TABLE_TORRENTS t) DB_TABLE_TORRENTS t'
  = with_table db DB_TABLE_TORRENTS t'.
Proof. unfold with_table. cbn [db_tables db_indexes db_wal]. by rewrite insert_insert_eq. Qed.

Lemma value_insert_eq (r : Row) c v : value (<[c := v]> r) c = v.
Proof. unfold value. by rewrite lookup_insert_eq. Qed.

Lemma value_insert_ne (r : Row) c c' v : c ≠ c' → value (<[c := v]> r) c' = value r c'.
Proof. intros. unfold value. by rewrite lookup_insert_ne. Qed.

Lemma reposition_value id pos rows c :
  c ≠ "queue_position" →
  (λ r, value r c) <$> reposition id pos rows = (λ r, value r c) <$> rows.
Proof.
  intros Hc. unfold reposition. rewrite <- list_fmap_compose. apply list_fmap_ext.
  intros i r _. cbn [compose]. case_decide; [|done]. by apply value_insert_ne.
Qed.

Lemma reposition_ok t id pos :
  table_ok t → table_ok (with_rows t (reposition id pos (tbl_rows t))).
Proof.
  intros [Hs Hu Hn]. split; cbn [with_rows tbl_columns tbl_rows]; [done| |].
  - apply bool_decide_eq_true, map_Forall_lookup. intros c d Hc Hd.
    cbn [with_rows tbl_columns] in Hc.
    apply bool_decide_eq_true in Hu. specialize (Hu c d Hc Hd).
    rewrite Hs in Hc. cbn [with_rows tbl_rows].
    rewrite reposition_value; [done|].
    by destruct (unique_columns c d Hc Hd) as [-> | ->].
  - unfold reposition. apply Forall_fmap, (Forall_impl _ _ _ Hn).
    intros r Hr. cbn [compose]. case_decide; [|done].
    apply bool_decide_eq_true, map_Forall_lookup. intros c d Hc Hd.
    cbn [with_rows tbl_columns] in Hc. apply bool_decide_eq_true in Hr.
    destruct (decide (c = "queue_position")) as [->|Hne].
    + by rewrite value_insert_eq.
    + rewrite value_insert_ne by done. by apply (Hr c d).
Qed.

Lemma exec_reposition db t id pos :
  torrents db = Some t → table_ok t →
  exec_update db DB_TABLE_TORRENTS [DB_COLUMN_QUEUE_POSITION] (Some DB_COLUMN_TORRENT_ID)
              (bind_queue_position id pos)
  = inr (with_table db DB_TABLE_TORRENTS (with_rows t (reposition id pos (tbl_rows t)))).
Proof.
  intros Ht Hok. unfold exec_update. unfold torrents in Ht. rewrite Ht.
  cbn [from_option app fmap list_fmap].
  change (Column.name DB_COLUMN_QUEUE_POSITION) with "queue_position".
  change (Column.name DB_COLUMN_TORRENT_ID) with "torrent_id".
  replace (has_columns t ["queue_position"; "torrent_id"]) with true
    by (rewrite (has_columns_schema _ _ (ok_schema _ Hok)); by vm_compute).
  cbn [negb].
  assert (((λ r : Row,
             if matches (Some DB_COLUMN_TORRENT_ID) (bind_queue_position id pos) r
             then assignments [DB_COLUMN_QUEUE_POSITION] (bind_queue_position id pos) ∪ r
             else r) <$> tbl_rows t) = reposition id pos (tbl_rows t)) as ->.
  { unfold reposition. apply list_fmap_ext. intros i r _.
    assert (matches (Some DB_COLUMN_TORRENT_ID) (bind_queue_position id pos) r
            = bool_decide (has_id id r)) as ->.
    { unfold matches, bind_queue_position, bindValue, boundValue.
      rewrite lookup_insert_ne, lookup_insert_eq by done.
      case_bool_decide as Hd; unfold has_id in Hd; [done|by apply not_true_is_false]. }
    destruct (decide (has_id id r)) as [Hr|Hr].
    - rewrite bool_decide_eq_true_2 by done.
      unfold assignments, bind_queue_position, bindValue, boundValue. cbn [fmap list_fmap].
      cbn [list_to_map foldr fst snd Column.name Column.placeholder
           DB_COLUMN_QUEUE_POSITION makeColumn].
      change (":" +:+ "queue_position") with ":queue_position".
      rewrite lookup_insert_eq. cbn [default].
      by rewrite insert_empty, <- insert_union_singleton_l.
    - by rewrite bool_decide_eq_false_2. }
  pose proof (reposition_ok t id pos Hok) as [_ Hu Hn].
  cbn [with_rows tbl_rows tbl_columns] in Hu, Hn.
  assert (forallb (not_null_ok t) (reposition id pos (tbl_rows t)) = true) as ->.
  { apply forallb_forall. intros r Hr%list_elem_of_In.
    rewrite Forall_forall in Hn. by apply Hn. }
  assert (unique_ok t (reposition id pos (tbl_rows t)) = true) as -> by done.
  done.
Qed.

(** The same loop seen from one row. *)
Fixpoint reposition_row (queue : list TorrentID.t) (pos : Z) (r : Row) : Row :=
  match queue with
  | [] => r
  | id :: rest =>
      reposition_row rest (pos + 1)
        (if decide (has_id id r) then <["queue_position" := Int pos]> r else r)
  end.

(** The place of an identifier in a queue, counted from zero. *)
Fixpoint index_of (x : TorrentID.t) (queue : list TorrentID.t) : Z :=
  match queue with
  | [] => 0
  | y :: rest => if decide (x = y) then 0 else 1 + index_of x rest
  end.

Definition row_id (r : Row) : TorrentID.t :=
  TorrentID.fromString (toString (value r "torrent_id")).

Lemma repositioned_fmap queue pos rows :
  repositioned queue pos rows = reposition_row queue pos <$> rows.
Proof.
  revert pos rows. induction queue as [|id rest IH]; intros pos rows; cbn [repositioned].
  - by rewrite list_fmap_id.
  - rewrite IH. unfold reposition. by rewrite <- list_fmap_compose.
Qed.

Lemma reposition_row_torrent_id queue pos r :
  value (reposition_row queue pos r) "torrent_id" = value r "torrent_id".
Proof.
  revert pos r. induction queue as [|id rest IH]; intros pos r; cbn [reposition_row]; [done|].
  rewrite IH. case_decide; [|done]. by apply value_insert_ne.
Qed.

Lemma reposition_row_has_id queue pos r x :
  has_id x (reposition_row queue pos r) ↔ has_id x r.
Proof. by rewrite !has_id_value, reposition_row_torrent_id. Qed.

Lemma reposition_row_absent queue pos r :
  (∀ z, z ∈ queue → ¬ has_id z r) → reposition_row queue pos r = r.
Proof.
  revert pos r. induction queue as [|id rest IH]; intros pos r Hz; cbn [reposition_row]; [done|].
  rewrite decide_False by (apply Hz; set_solver). apply IH. intros z ?. apply Hz. set_solver.
Qed.

Lemma index_of_nonneg x queue : 0 <= index_of x queue.
Proof. induction queue; cbn [index_of]; [done|]. case_decide; lia. Qed.

Lemma reposition_row_position queue pos r x :
  NoDup queue → x ∈ queue → has_id x r →
  value (reposition_row queue pos r) "queue_position" = Int (pos + index_of x queue).
Proof.
  revert pos r. induction queue as [|y rest IH]; intros pos r Hnd Hx Hr; [set_solver|].
  apply NoDup_cons in Hnd as [Hy Hnd]. cbn [reposition_row index_of].
  destruct (decide (x = y)) as [->|Hne].
  - rewrite decide_True by done. rewrite reposition_row_absent.
    + by rewrite value_insert_eq, Z.add_0_r.
    + intros z Hz Hzr. apply Hy.
      assert (has_id z r) as Hzr'.
      { apply has_id_value. apply has_id_value in Hzr.
        by rewrite value_insert_ne in Hzr. }
      by rewrite <- (has_id_unique _ _ _ Hzr' Hr).
  - rewrite decide_False by (intros ?; by apply Hne, (has_id_unique _ _ r)).
    rewrite IH by (done || set_solver). f_equal. lia.
Qed.

Lemma index_of_inj x y queue :
  x ∈ queue → y ∈ queue → index_of x queue = index_of y queue → x = y.
Proof.
  induction queue as [|z rest IH]; intros Hx Hy Heq; [set_solver|]. cbn [index_of] in Heq.
  pose proof (index_of_nonneg x rest). pose proof (index_of_nonneg y rest).
  repeat case_decide; simplify_eq; try done; try lia.
  apply IH; [set_solver..|lia].
Qed.

Lemma index_of_lookup queue k x :
  NoDup queue → queue !! k = Some x → index_of x queue = Z.of_nat k.
Proof.
  revert k. induction queue as [|y rest IH]; intros k Hnd Hk; [done|].
  apply NoDup_cons in Hnd as [Hy Hnd]. cbn [index_of]. destruct k as [|k]; simplify_eq/=.
  - by rewrite decide_True.
  - rewrite decide_False.
    + rewrite (IH k) by done. lia.
    + intros ->. apply Hy. by eapply list_elem_of_lookup_2.
Qed.

Lemma StronglySorted_lookup {A} (R : relation A) (l : list A) :
  (∀ i j x y, l !! i = Some x → l !! j = Some y → (i < j)%nat → R x y) →
  StronglySorted R l.
Proof.
  induction l as [|a rest IH]; intros Hmono; constructor.
  - apply IH. intros i j x y Hi Hj Hij. apply (Hmono (S i) (S j)); [done..|lia].
  - apply Forall_lookup. intros j y Hj. apply (Hmono 0%nat (S j)); [done..|lia].
Qed.

Lemma index_of_sorted queue :
  NoDup queue →
  StronglySorted (λ x y, index_of x queue <= index_of y queue) queue.
Proof.
  intros Hnd. apply StronglySorted_lookup. intros i j x y Hi Hj Hij.
  rewrite (index_of_lookup _ i x), (index_of_lookup _ j y) by done. lia.
Qed.

(** [ORDER BY] on a column of integers. *)
Lemma insert_ordered_perm c r l : insert_ordered c r l ≡ₚ r :: l.
Proof.
  induction l as [|y l IH]; cbn [insert_ordered]; [done|].
  destruct (sql_leb _ _); [done|]. rewrite IH. apply Permutation_swap.
Qed.

Lemma order_by_perm c l : order_by c l ≡ₚ l.
Proof.
  unfold order_by. induction l as [|x l IH]; cbn [foldr]; [done|].
  by rewrite insert_ordered_perm, IH.
Qed.

Lemma insert_ordered_sorted c (key : Row → Z) r l :
  (∀ x, x ∈ r :: l → value x c = Int (key x)) →
  StronglySorted (λ a b, key a <= key b) l →
  StronglySorted (λ a b, key a <= key b) (insert_ordered c r l).
Proof.
  intros Hkey Hl. induction Hl as [|y l Hl IH Hy]; cbn [insert_ordered].
  - repeat constructor.
  - rewrite (Hkey r), (Hkey y) by set_solver. cbn [sql_leb].
    destruct (Z.leb_spec (key r) (key y)) as [Hle|Hgt].
    + constructor; [by constructor|]. constructor; [done|].
      eapply Forall_impl; [exact Hy|]. intros z Hz. cbn beta in *. lia.
    + constructor.
      * apply IH. intros x Hx. apply Hkey. set_solver.
      * rewrite insert_ordered_perm. constructor; [lia|done].
Qed.

Lemma order_by_sorted c (key : Row → Z) l :
  (∀ x, x ∈ l → value x c = Int (key x)) →
  StronglySorted (λ a b, key a <= key b) (order_by c l).
Proof.
  unfold order_by. induction l as [|x l IH]; intros Hkey; cbn [foldr]; [constructor|].
  apply insert_ordered_sorted.
  - intros y Hy. apply Hkey. rewrite <- (order_by_perm c l). exact Hy.
  - apply IH. intros y Hy. apply Hkey. set_solver.
Qed.

Lemma filter_Forall {A} (P : A → Prop) `{!∀ x, Decision (P x)} (l : list A) :
  Forall P l → filter P l = l.
Proof. induction 1 as [|x l HP Hl IH]; [done|]. by rewrite filter_cons_True, IH. Qed.

Lemma filter_all {A} (P : A → Prop) `{!∀ x, Decision (P x)} (l : list A) :
  (∀ x, P x) → filter P l = l.
Proof. intros HP. apply filter_Forall, Forall_forall. auto. Qed.

Lemma row_id_has_id x r : has_id x r → row_id r = x.
Proof.
  intros Hr%has_id_value. unfold row_id. rewrite Hr. cbn [toString]. by destruct x.
Qed.

Section reorder_job.
Context `{!Libtorrent, !Profile, !Driver}.

(** The store after a reorder job whose statements all ran. *)
Definition reordered (w : World) (t : Table) (queue : list TorrentID.t) : World :=
  set_db w (with_table (w_db w) DB_TABLE_TORRENTS
              (with_rows t (repositioned queue 0 (tbl_rows t)))).

Lemma StoreQueueJob_loop_run queue pos w t :
  torrents (w_db w) = Some t → table_ok t →
  exec_fails updateQueuePosStatement = false →
  StoreQueueJob_loop queue pos w =
    (inr tt, set_db w (with_table (w_db w) DB_TABLE_TORRENTS
                         (with_rows t (repositioned queue pos (tbl_rows t))))).
Proof.
  intros Ht Hok He. revert pos w t Ht Hok.
  induction queue as [|id rest IH]; intros pos w t Ht Hok;
    cbn [StoreQueueJob_loop repositioned].
  - by rewrite with_rows_same, with_table_same, set_db_same.
  - unfold mbind, M_bind. rewrite exec_or_throw_run, He.
    unfold updateQueuePosStatement at 1, sql_exec. fold (bind_queue_position id pos).
    rewrite (exec_reposition _ t) by done. cbn [on_ok].
    rewrite (IH _ _ (with_rows t (reposition id pos (tbl_rows t))));
      [|by cbn [set_db w_db]; rewrite torrents_with_table|by apply reposition_ok].
    cbn [set_db w_db w_saved w_events with_rows tbl_rows tbl_columns].
    by rewrite with_table_twice.
Qed.

Lemma StoreQueueJob_perform_ok queue w t :
  torrents (w_db w) = Some t → table_ok t →
  driver_ok updateQueuePosStatement →
  perform (StoreQueueJob queue) w = (inr tt, reordered w t queue).
Proof.
  intros Ht Hok [Hp He]. cbn [perform]. unfold StoreQueueJob_perform, try_catch.
  unfold mbind, M_bind. rewrite prepare_or_throw_run, Hp.
  assert (sql_prepare updateQueuePosStatement (w_db w) = None) as ->.
  { unfold updateQueuePosStatement, sql_prepare. unfold torrents in Ht. rewrite Ht.
    cbn [from_option app fmap list_fmap].
    change (Column.name DB_COLUMN_QUEUE_POSITION) with "queue_position".
    change (Column.name DB_COLUMN_TORRENT_ID) with "torrent_id".
    replace (has_columns t ["queue_position"; "torrent_id"]) with true; [done|].
    rewrite (has_columns_schema _ _ (ok_schema _ Hok)). by vm_compute. }
  by rewrite (StoreQueueJob_loop_run _ _ _ t).
Qed.

Lemma registeredTorrents_run w t :
  torrents (w_db w) = Some t → tbl_columns t = torrents_schema →
  exec_fails selectTorrentIDStatement = false →
  registeredTorrents w = (inr (row_id <$> order_by "queue_position" (tbl_rows t)), w).
Proof.
  intros Ht Hs He. unfold registeredTorrents, mbind, M_bind.
  unfold selectTorrentIDStatement at 1. rewrite select_run.
  fold selectTorrentIDStatement. rewrite He.
  unfold exec_select. unfold torrents in Ht. rewrite Ht.
  cbn [from_option app]. change (Column.name DB_COLUMN_TORRENT_ID) with "torrent_id".
  change (Column.name DB_COLUMN_QUEUE_POSITION) with "queue_position".
  replace (has_columns t ["torrent_id"; "queue_position"]) with true
    by (rewrite (has_columns_schema _ _ Hs); by vm_compute).
  cbn [negb matches]. unfold mret, M_ret. f_equal. f_equal.
  rewrite filter_all by done.
  rewrite <- list_fmap_compose. apply list_fmap_ext. intros i r _.
  unfold compose, torrentID_of, row_id, value.
  change (Column.name DB_COLUMN_TORRENT_ID) with "torrent_id".
  by rewrite lookup_singleton_eq.
Qed.
End reorder_job.

(** The identifiers of a table in queue order once the loop of a reorder
    job has run over a duplicate-free queue that names exactly the rows
    of the table. *)
Lemma repositioned_order (rows : list Row) (queue : list TorrentID.t) :
  NoDup queue →
  (λ r, value r "torrent_id") <$> rows ≡ₚ (λ x, Text (TorrentID.toString x)) <$> queue →
  row_id <$> order_by "queue_position" (repositioned queue 0 rows) = queue.
Proof.
  intros Hnd Hrows.
  assert (∀ r, r ∈ rows → ∃ x, x ∈ queue ∧ has_id x r) as Hin.
  { intros r Hr.
    assert (value r "torrent_id" ∈ (λ x, Text (TorrentID.toString x)) <$> queue) as Hv.
    { rewrite <- Hrows. apply list_elem_of_fmap. eauto. }
    apply list_elem_of_fmap in Hv as (x & Hv & Hx). exists x. split; [done|].
    by apply has_id_value. }
  set (key := λ r : Row, index_of (row_id r) queue).
  assert (∀ r', r' ∈ repositioned queue 0 rows →
            value r' "queue_position" = Int (key r') ∧ row_id r' ∈ queue) as Hkey.
  { intros r'. rewrite repositioned_fmap. intros (r & -> & Hr)%list_elem_of_fmap.
    destruct (Hin r Hr) as (x & Hx & Hxr). unfold key.
    rewrite (row_id_has_id x) by by apply reposition_row_has_id.
    split; [|done]. by rewrite (reposition_row_position _ _ _ x). }
  assert (row_id <$> repositioned queue 0 rows ≡ₚ queue) as Hperm.
  { rewrite repositioned_fmap, <- list_fmap_compose.
    transitivity ((λ v, TorrentID.fromString (toString v))
                    <$> ((λ r, value r "torrent_id") <$> rows)).
    - rewrite <- list_fmap_compose. apply reflexive_eq, list_fmap_ext.
      intros i r _. unfold compose, row_id. by rewrite reposition_row_torrent_id.
    - rewrite Hrows, <- list_fmap_compose. apply reflexive_eq.
      rewrite <- (list_fmap_id queue) at 2. apply list_fmap_ext.
      intros i x _. by destruct x. }
  apply (StronglySorted_unique_strong (λ x y, index_of x queue <= index_of y queue)).
  - intros x y Hx Hy Hxy Hyx. apply (index_of_inj x y queue); [|done|lia].
    rewrite <- Hperm, <- (order_by_perm "queue_position"). exact Hx.
  - apply (StronglySorted_fmap _ (λ a b, key a <= key b)); [done|].
    apply order_by_sorted. intros r' Hr'. by apply Hkey.
  - by apply index_of_sorted.
  - by rewrite order_by_perm.
Qed.

(** After the loop every listed identifier that has a row has its place
    in the queue as queue position. *)
Lemma repositioned_position (rows : list Row) (queue : list TorrentID.t) k x :
  NoDup queue → queue !! k = Some x →
  match list_find (has_id x) rows with
  | Some (_, r) =>
      ∃ r', snd <$> list_find (has_id x) (repositioned queue 0 rows) = Some r'
            ∧ value r' "queue_position" = Int (Z.of_nat k)
  | None => list_find (has_id x) (repositioned queue 0 rows) = None
  end.
Proof.
  intros Hnd Hk. rewrite repositioned_fmap, list_find_fmap.
  rewrite (list_find_ext (has_id x ∘ reposition_row queue 0) (has_id x))
    by (intros r; apply reposition_row_has_id).
  destruct (list_find (has_id x) rows) as [[i r]|] eqn:Hfind; [|done].
  apply list_find_Some in Hfind as (_ & Hr & _).
  eexists. split; [done|]. cbn [snd prod_map].
  rewrite (reposition_row_position _ _ _ x); [|done|by eapply list_elem_of_lookup_2|done].
  by rewrite (index_of_lookup _ k).
Qed.

Section reorder_theorems.
Context `{!Libtorrent, !Profile, !Driver}.

(** A table whose rows are exactly those of the identifiers of [queue]. *)
Definition holds_exactly (t : Table) (queue : list TorrentID.t) : Prop :=
  (λ r, value r "torrent_id") <$> tbl_rows t
  ≡ₚ (λ x, Text (TorrentID.toString x)) <$> queue.

Lemma holds_exactly_NoDup t queue : table_ok t → holds_exactly t queue → NoDup queue.
Proof.
  intros Hok Hrows. pose proof (ok_unique _ Hok) as Hu.
  apply bool_decide_eq_true in Hu.
  specialize (Hu "torrent_id" BLOB_NOT_NULL_UNIQUE).
  rewrite (ok_schema _ Hok) in Hu.
  assert (torrents_schema !! "torrent_id" = Some BLOB_NOT_NULL_UNIQUE) as Hc
    by (by vm_compute).
  specialize (Hu Hc eq_refl).
  unfold holds_exactly in Hrows. rewrite Hrows in Hu.
  rewrite filter_Forall in Hu by (apply Forall_fmap, Forall_forall; by intros x _).
  by apply NoDup_fmap_1 in Hu.
Qed.

Lemma reorder_general queue w t :
  torrents (w_db w) = Some t → table_ok t → holds_exactly t queue →
  driver_ok updateQueuePosStatement → driver_ok selectTorrentIDStatement →
  (∀ k x, queue !! k = Some x →
     ∃ r, find_row (w_db (perform (StoreQueueJob queue) w).2) x = Some r
          ∧ value r "queue_position" = Int (Z.of_nat k))
  ∧ (registeredTorrents (perform (StoreQueueJob queue) w).2).1 = inr queue.
Proof.
  intros Ht Hok Hrows Hupd [_ Hsel].
  pose proof (holds_exactly_NoDup _ _ Hok Hrows) as Hnd.
  rewrite (StoreQueueJob_perform_ok _ _ t) by done. cbn [snd]. split.
  - intros k x Hk. unfold find_row, reordered. cbn [set_db w_db].
    rewrite torrents_with_table. cbn [mbind option_bind with_rows tbl_rows].
    pose proof (repositioned_position (tbl_rows t) queue k x Hnd Hk) as Hpos.
    destruct (list_find (has_id x) (tbl_rows t)) as [[i r]|] eqn:Hfind; [done|].
    exfalso. apply list_find_None in Hfind. rewrite Forall_forall in Hfind.
    assert (Text (TorrentID.toString x) ∈ (λ r, value r "torrent_id") <$> tbl_rows t)
      as Hx.
    { rewrite Hrows. apply list_elem_of_fmap. exists x.
      split; [done|]. by eapply list_elem_of_lookup_2. }
    apply list_elem_of_fmap in Hx as (r & Hv & Hr).
    apply (Hfind r Hr). by apply has_id_value.
  - rewrite (registeredTorrents_run _ (with_rows t (repositioned queue 0 (tbl_rows t))));
      [|by unfold reordered; cbn [set_db w_db]; rewrite torrents_with_table
       |by apply (ok_schema _ Hok)|done].
    cbn [fst with_rows tbl_rows]. f_equal. by apply repositioned_order.
Qed.

(** C7: on a store whose rows are exactly those of [a], [b] and [c], a
    reorder job with the sequence [a; b; c] gives each of them its index
    as queue position, and [registeredTorrents] then returns exactly
    [a; b; c]. *)
Theorem reorder_then_list a b c w t :
  torrents (w_db w) = Some t → table_ok t → holds_exactly t [a; b; c] →
  driver_ok updateQueuePosStatement → driver_ok selectTorrentIDStatement →
  (∃ ra rb rc,
     find_row (w_db (perform (StoreQueueJob [a; b; c]) w).2) a = Some ra
     ∧ value ra "queue_position" = Int 0
     ∧ find_row (w_db (perform (StoreQueueJob [a; b; c]) w).2) b = Some rb
     ∧ value rb "queue_position" = Int 1
     ∧ find_row (w_db (perform (StoreQueueJob [a; b; c]) w).2) c = Some rc
     ∧ value rc "queue_position" = Int 2)
  ∧ (registeredTorrents (perform (StoreQueueJob [a; b; c]) w).2).1 = inr [a; b; c].
Proof.
  intros Ht Hok Hrows Hupd Hsel.
  destruct (reorder_general [a; b; c] w t Ht Hok Hrows Hupd Hsel) as [Hpos Hlist].
  split; [|done].
  destruct (Hpos 0%nat a eq_refl) as (ra & Ha & Hra).
  destruct (Hpos 1%nat b eq_refl) as (rb & Hb & Hrb).
  destruct (Hpos 2%nat c eq_refl) as (rc & Hc & Hrc).
  by exists ra, rb, rc.
Qed.
End reorder_theorems.

(** ** The tag set through its column *)

Fixpoint contains (c : ascii) (s : string) : bool :=
  match s with
  | EmptyString => false
  | String c' s' => Ascii.eqb c' c || contains c s'
  end.

Lemma split_without sep w : contains sep w = false → split sep w = [w].
Proof.
  induction w as [|c w IH]; cbn [contains split]; [done|].
  intros [Hc Hw]%orb_false_iff. by rewrite Hc, IH.
Qed.

Lemma split_append sep w rest :
  contains sep w = false →
  split sep (w +:+ String sep rest) = w :: split sep rest.
Proof.
  induction w as [|c w IH]; cbn [contains].
  - intros _. change ("" +:+ String sep rest) with (String sep rest).
    cbn [split]. by rewrite Ascii.eqb_refl.
  - intros [Hc Hw]%orb_false_iff.
    change (String c w +:+ String sep rest) with (String c (w +:+ String sep rest)).
    cbn [split]. by rewrite Hc, IH.
Qed.

Lemma split_join sep (l : list string) :
  l ≠ [] → Forall (λ w, contains sep w = false) l →
  split sep (join (String sep "") l) = l.
Proof.
  intros Hl Hall. induction Hall as [|w l Hw Hall IH]; [done|].
  destruct l as [|w' l]; cbn [join String.concat].
  - by apply split_without.
  - change (String sep "" +:+ ?s) with (String sep s).
    rewrite split_append by done. f_equal. by apply IH.
Qed.

Lemma join_empty sep (l : list string) :
  join (String sep "") l = "" → l = [] ∨ l = [""].
Proof.
  destruct l as [|w [|w' l]]; cbn [join String.concat]; auto.
  - intros ->. auto.
  - change (String sep "" +:+ ?s) with (String sep s). by destruct w.
Qed.

Lemma tags_value_round_trip (tags : gset string) :
  (∀ tag, tag ∈ tags → contains "," tag = false) → tags ≠ {[ "" ]} →
  tags_of_value (tags_value tags) = tags.
Proof.
  intros Hfree Hne. unfold tags_value.
  case_bool_decide as Hempty; [by subst|].
  unfold tags_of_value. cbv zeta. cbn [toString].
  assert (elements tags ≠ []) as Hel by (by intros ?%elements_empty_inv%leibniz_equiv).
  case_bool_decide as Hjoin; cbn [negb].
  - exfalso. apply (join_empty ",") in Hjoin as [?|Hjoin]; [done|].
    apply Hne. apply set_eq. intros x.
    by rewrite <- elem_of_elements, Hjoin, list_elem_of_singleton, elem_of_singleton.
  - rewrite (split_join ",") by
      (try done; apply Forall_forall; intros x Hx; by apply Hfree, elem_of_elements).
    apply list_to_set_elements_L.
Qed.

(** ** A store job followed by a load *)

Section store_then_load.
Context `{!Libtorrent, !Profile, !Driver}.

(** After a store job whose statement ran, [load] finds the row of the
    identifier, which holds the values encoded from the descriptor, and
    returns what [parseQueryResultRow] reads from it. *)
Lemma store_then_load id rd w t b md :
  torrents (w_db w) = Some t → table_ok t →
  driver_ok (store_statement (stored_names rd)) →
  driver_ok selectTorrentStatement →
  encoded_blobs rd = Some (b, md) →
  ∃ row', find_row (w_db (perform (StoreJob id rd) w).2) id = Some row'
    ∧ Forall (λ cv, value row' cv.1 = cv.2) (StoreJob_values id rd b)
    ∧ (load id (perform (StoreJob id rd) w).2).1 = inr (inr (parseQueryResultRow row')).
Proof.
  intros Ht Hok Hdrv [Hp He] Hb.
  rewrite (StoreJob_perform_ok _ _ _ t b md) by done. cbn [snd].
  pose proof (stored_names_storable rd) as Hn.
  destruct (find_row (w_db (stored w t (stored_names rd) id rd b (default "" md))) id)
    as [row'|] eqn:Hrow'; [|by rewrite find_row_stored_same in Hrow'].
  exists row'. split; [done|].
  destruct (stored_values _ _ _ _ _ _ _ Ht Hok Hb Hrow') as (Hvals & _). split; [done|].
  rewrite (load_run _ _ (with_rows t (upserted t (stored_names rd)
             (StoreJob_bindings id rd b (default "" md)) id))), Hp, He, Hrow'; [done|..].
  - unfold stored. cbn [set_db w_db]. apply torrents_with_table.
  - apply Hok.
Qed.

Lemma stored_value (row' : Row) id rd b c v :
  Forall (λ cv, value row' cv.1 = cv.2) (StoreJob_values id rd b) →
  (c, v) ∈ StoreJob_values id rd b → value row' c = v.
Proof. intros Hvals Hin. rewrite Forall_forall in Hvals. apply (Hvals _ Hin). Qed.
End store_then_load.

(** ** The tag set through a store and a load *)

Section tags_theorems.
Context `{!Libtorrent, !Profile, !Driver}.

(** C10, as amended: a store job followed by a load returns the tag set
    of the descriptor when none of its tags contains a comma and the set
    is not the one holding only the empty tag.  The empty set is stored
    as NULL and loaded as empty; the set holding only the empty tag is
    stored as the empty text and also loaded as empty; and the set
    holding the tag ["a,b"] is loaded as the two tags ["a"] and ["b"],
    the tags being joined and split again on the comma. *)
Theorem tags_round_trip id rd w t b md :
  torrents (w_db w) = Some t → table_ok t →
  driver_ok (store_statement (stored_names rd)) →
  driver_ok selectTorrentStatement →
  encoded_blobs rd = Some (b, md) →
  let tags := LoadTorrentParams.tags rd in
  ∃ row' resumeData,
    find_row (w_db (perform (StoreJob id rd) w).2) id = Some row'
    ∧ (load id (perform (StoreJob id rd) w).2).1 = inr (inr resumeData)
    ∧ ((∀ tag, tag ∈ tags → contains "," tag = false) → tags ≠ {[ "" ]} →
         LoadTorrentParams.tags resumeData = tags)
    ∧ (tags = ∅ → value row' "tags" = Null ∧ LoadTorrentParams.tags resumeData = ∅)
    ∧ (tags = {[ "" ]} →
         value row' "tags" = Text "" ∧ LoadTorrentParams.tags resumeData = ∅)
    ∧ (tags = {[ "a,b" ]} → LoadTorrentParams.tags resumeData = {[ "a"; "b" ]}).
Proof.
  intros Ht Hok Hstore Hload Hb tags.
  destruct (store_then_load id rd w t b md) as (row' & Hrow' & Hvals & Hld); [done..|].
  exists row', (parseQueryResultRow row'). split_and!; [done..| | | |].
  all: assert (value row' "tags" = tags_value tags) as Htags
         by (apply (stored_value _ id rd b); [done|unfold StoreJob_values; set_solver]).
  all: unfold parseQueryResultRow; cbn [LoadTorrentParams.tags];
       change (Column.name DB_COLUMN_TAGS) with "tags"; rewrite Htags.
  - apply tags_value_round_trip.
  - intros ->. done.
  - intros ->. split; compute_done.
  - intros ->. compute_done.
Qed.
End tags_theorems.

(** ** The ratio limit through its column

    Multiplying by 1000, truncating and dividing by 1000 again is
    followed on the binary representation of the double. *)












Section thousandths.
Variables (m : positive) (e k : Z).
Hypothesis Hb : bounded prec emax m e = true.
Hypothesis He : e < 0.
Hypothesis Hk : 0 < k <= 2 ^ 31.
Hypothesis Hv : 1000 * Zpos m = k * 2 ^ (- e).


End thousandths.



Section division.
Variables (m : positive) (e k : Z).
Hypothesis Hb : bounded prec emax m e = true.
Hypothesis He : e < 0.
Hypothesis Hk : 0 < k <= 2 ^ 31.
Hypothesis Hv : 1000 * Zpos m = k * 2 ^ (- e).

End division.




Lemma wrap_int_small k : INT_MIN <= k <= INT_MAX → wrap_int k = k.
Proof.
  unfold INT_MIN, INT_MAX, wrap_int. intros Hk.
  rewrite Z.mod_small; lia.
Qed.







Section ratio_theorems.
Context `{!Libtorrent, !Profile, !Driver}.

End ratio_theorems.

(** ** Opening the store *)

(** The rows of the meta table, none when there is no such table. *)
Definition meta_rows (db : Database) : list Row :=
  from_option tbl_rows [] (db_tables db !! DB_TABLE_META).

(** The version the meta table holds: the value of its first row named
    ["version"], read as an integer. *)
Definition stored_version (db : Database) : option Z :=
  row ← head (filter (λ r, value r (Column.name DB_COLUMN_NAME) = Text META_VERSION)
                     (meta_rows db));
  toInt_ok (value row (Column.name DB_COLUMN_VALUE)).

(** The version the constructor takes a file to have (line 323). *)
Definition detected_version (db : Database) : option Z :=
  if record_contains db DB_TABLE_TORRENTS (Column.name DB_COLUMN_DOWNLOAD_PATH)
  then stored_version db else Some 1.

Section returns.
Context `{!Libtorrent, !Profile, !Driver}.

Lemma bind_inr {A B} (m : M A) (f : A → M B) w b w' :
  (m ≫= f) w = (inr b, w') → ∃ a w1, m w = (inr a, w1) ∧ f a w1 = (inr b, w').
Proof.
  unfold mbind, M_bind. destruct (m w) as [[e|a] w1]; [done|]. intros Hf. by exists a, w1.
Qed.

Lemma locked_inr {A} acquire (body : M A) w a w' :
  locked acquire body w = (inr a, w') →
  ∃ w1, body (log w acquire) = (inr a, w1) ∧ w' = log w1 unlock.
Proof.
  unfold locked, mbind, M_bind, emit. fold (log w acquire).
  destruct (body (log w acquire)) as [r w1]. intros [= -> <-]. by exists w1.
Qed.

Lemma rollback_and_rethrow_inr {A} (body : M A) w a w' :
  rollback_and_rethrow body w = (inr a, w') → body w = (inr a, w').
Proof.
  unfold rollback_and_rethrow, try_catch. by destruct (body w) as [[[err|]|a'] w1].
Qed.

Lemma exec_or_throw_inr s b w rows w' :
  exec_or_throw s b w = (inr rows, w') →
  ∃ db', sql_exec wal_available s b (w_db w) = inr (db', rows) ∧ w' = set_db w db'.
Proof.
  rewrite exec_or_throw_run. destruct (exec_fails s); [done|].
  destruct (sql_exec _ _ _ _) as [e|[db' rows']]; [done|]. intros [= <- <-]. by exists db'.
Qed.

Lemma prepare_or_throw_inr s w w' : prepare_or_throw s w = (inr tt, w') → w' = w.
Proof.
  rewrite prepare_or_throw_run. destruct (prepare_fails s); [done|].
  destruct (sql_prepare _ _); [done|]. by intros [= <-].
Qed.

Lemma transaction_or_throw_inr w w' :
  transaction_or_throw w = (inr tt, w') → w_db w' = w_db w.
Proof.
  unfold transaction_or_throw, db_transaction, mbind, M_bind.
  destruct (_ || _); [done|]. by intros [= <-].
Qed.

Lemma commit_or_throw_inr w w' :
  commit_or_throw w = (inr tt, w') → w_db w' = w_db w.
Proof.
  unfold commit_or_throw, db_commit, mbind, M_bind.
  destruct (_ || _); [done|]. by intros [= <-].
Qed.
End returns.

Lemma value_singleton c v : value ({[ c := v ]} : Row) c = v.
Proof. unfold value. by rewrite lookup_singleton_eq. Qed.

Lemma record_contains_with_table db name t c :
  record_contains (with_table db name t) name c = bool_decide (is_Some (tbl_columns t !! c)).
Proof. unfold record_contains, with_table. cbn [db_tables]. by rewrite lookup_insert_eq. Qed.

Lemma record_contains_other db name t name' c :
  name ≠ name' →
  record_contains (with_table db name t) name' c = record_contains db name' c.
Proof.
  intros Hne. unfold record_contains, with_table. cbn [db_tables].
  by rewrite lookup_insert_ne.
Qed.

Lemma has_columns_singleton t c :
  has_columns t [c] = bool_decide (is_Some (tbl_columns t !! c)).
Proof. unfold has_columns. cbn [forallb]. by rewrite andb_true_r. Qed.

Definition version_bumped (r : Row) : Row :=
  assignments [DB_COLUMN_NAME; DB_COLUMN_VALUE] bindMetaVersion ∪ r.

Lemma version_bumped_value r c :
  c ∈ ["name"; "value"] →
  value (version_bumped r) c = boundValue bindMetaVersion (":" +:+ c).
Proof. apply (value_union_assigned ["name"; "value"]). Qed.

Lemma version_bumped_name r : value (version_bumped r) "name" = Text META_VERSION.
Proof. by rewrite version_bumped_value by compute_done. Qed.

Lemma version_bumped_version r : value (version_bumped r) "value" = Int DB_VERSION.
Proof. by rewrite version_bumped_value by compute_done. Qed.

Lemma stored_version_bumped db db' :
  meta_rows db' = version_bumped <$> meta_rows db →
  stored_version db' = if bool_decide (meta_rows db = []) then None else Some DB_VERSION.
Proof.
  intros Hrows. unfold stored_version. rewrite Hrows.
  destruct (meta_rows db) as [|r rows]; [done|]. rewrite bool_decide_eq_false_2 by done.
  rewrite fmap_cons, filter_cons_True by apply version_bumped_name.
  cbn [head mbind option_bind]. change (Column.name DB_COLUMN_VALUE) with "value".
  by rewrite version_bumped_version.
Qed.

Section schema_manager.
Context `{!Libtorrent, !Profile, !Driver}.

Lemma currentDBVersion_inr w dbVersion w' :
  currentDBVersion w = (inr dbVersion, w') →
  stored_version (w_db w) = Some dbVersion ∧ w_db w' = w_db w.
Proof.
  unfold currentDBVersion. intros Hrun.
  apply bind_inr in Hrun as ([] & w1 & ->%prepare_or_throw_inr & Hrun).
  apply locked_inr in Hrun as (w2 & Hrun & ->).
  apply bind_inr in Hrun as (rows & w3 & (db' & He & ->)%exec_or_throw_inr & Hrun).
  unfold selectDBVersionStatement, sql_exec, exec_select in He. cbn [log w_db] in He.
  unfold stored_version, meta_rows.
  destruct (db_tables (w_db w) !! DB_TABLE_META) as [t|]; [|done].
  destruct (negb (has_columns t _)); [done|]. cbn [on_ok from_option] in He.
  injection He as <- <-. cbn [from_option].
  rewrite (list_filter_iff _ (λ r, value r (Column.name DB_COLUMN_NAME) = Text META_VERSION))
    in Hrun.
  2:{ intros r. unfold matches. rewrite sql_eqb_eq.
      change (boundValue _ _) with (Text META_VERSION). split; [tauto|]. intros Hr.
      split; [done|]. intros Hnull. by pose proof (eq_trans (eq_sym Hnull) Hr). }
  destruct (filter _ (tbl_rows t)) as [|r rows]; [done|]. rewrite fmap_cons in Hrun.
  cbn [head mbind option_bind]. rewrite value_singleton in Hrun.
  destruct (toInt_ok _); [|done]. by injection Hrun as <- <-.
Qed.
End schema_manager.

(** What the additive steps of a migration may change: the meta table
    stays, indexes stay, and the torrents table keeps its columns and,
    row by row, the values in them. *)
Record extends (db db' : Database) : Prop := {
  ext_meta : db_tables db' !! DB_TABLE_META = db_tables db !! DB_TABLE_META;
  ext_indexes i : is_Some (db_indexes db !! i) → is_Some (db_indexes db' !! i);
  ext_torrents t : torrents db = Some t →
    ∃ t', torrents db' = Some t' ∧ tbl_columns t ⊆ tbl_columns t'
      ∧ Forall2 (λ r r', ∀ c, is_Some (tbl_columns t !! c) → value r' c = value r c)
                (tbl_rows t) (tbl_rows t')
}.

Lemma extends_refl db : extends db db.
Proof.
  split; [done..|]. intros t Ht. exists t. split_and!; [done..|].
  by apply Forall_Forall2_diag, Forall_forall.
Qed.

Lemma extends_trans db1 db2 db3 : extends db1 db2 → extends db2 db3 → extends db1 db3.
Proof.
  intros [Hm1 Hi1 Ht1] [Hm2 Hi2 Ht2]. split.
  - by rewrite Hm2.
  - auto.
  - intros t1 H1. destruct (Ht1 _ H1) as (t2 & H2 & Hc1 & Hr1).
    destruct (Ht2 _ H2) as (t3 & H3 & Hc2 & Hr2). exists t3. split_and!; [done|by etrans|].
    eapply Forall2_trans; [|done..]. intros r1 r2 r3 H12 H23 c Hc. cbv beta in *.
    rewrite H23, H12; [done..|]. by eapply lookup_weaken_is_Some.
Qed.

Lemma extends_record_contains db db' c :
  extends db db' →
  record_contains db DB_TABLE_TORRENTS c = true →
  record_contains db' DB_TABLE_TORRENTS c = true.
Proof.
  intros [_ _ Ht]. unfold record_contains. fold (torrents db) (torrents db').
  destruct (torrents db) as [t|]; [|done]. destruct (Ht t) as (t' & -> & Hc & _); [done|].
  rewrite !bool_decide_eq_true. intros ?. by eapply lookup_weaken_is_Some.
Qed.

(** The outcome of one guarded step: the column is there afterwards, and
    where it was not there before it has its declared constraints and
    every row holds its default. *)
Definition column_added (item : string * ColumnConstraints) (db db' : Database) : Prop :=
  extends db db'
  ∧ record_contains db' DB_TABLE_TORRENTS item.1 = true
  ∧ (record_contains db DB_TABLE_TORRENTS item.1 = false →
     ∀ t', torrents db' = Some t' →
       tbl_columns t' !! item.1 = Some item.2
       ∧ Forall (λ r', value r' item.1 = default Null (default_value item.2)) (tbl_rows t')).

(** The outcome of [CREATE INDEX IF NOT EXISTS]. *)
Definition index_created (db db' : Database) : Prop :=
  record_contains db DB_TABLE_TORRENTS (Column.name DB_COLUMN_QUEUE_POSITION) = true
  ∧ db_tables db' = db_tables db
  ∧ ((db' = db ∧ is_Some (db_indexes db !! torrentsQueuePositionIndexName))
     ∨ db_indexes db' = <[torrentsQueuePositionIndexName :=
                            (DB_TABLE_TORRENTS, Column.name DB_COLUMN_QUEUE_POSITION)]>
                          (db_indexes db)).

Section migration.
Context `{!Libtorrent, !Profile, !Driver}.

Lemma add_column_if_missing_inr item w w' :
  add_column_if_missing item w = (inr tt, w') →
  column_added item (w_db w) (w_db w').
Proof.
  unfold add_column_if_missing, column_added. intros Hrun.
  apply bind_inr in Hrun as (tested & w1 & Htest & Hrun).
  unfold query_exec in Htest.
  assert (w1 = w ∧ (tested = inl DriverFailure
                    ∨ tested = on_ok snd (sql_exec wal_available
                                 (SelectCount item.1 DB_TABLE_TORRENTS) ∅ (w_db w))))
    as [-> Htested].
  { destruct (exec_fails _); [injection Htest as <- <-; auto|].
    unfold sql_exec in *. fold (torrents (w_db w)) in *.
    destruct (torrents (w_db w)) as [tb|]; [|injection Htest as <- <-; auto].
    destruct (negb (has_columns tb [item.1])); injection Htest as <- <-;
      rewrite ?set_db_same; auto. }
  destruct tested as [e|rows].
  - apply bind_inr in Hrun as (rows & w2 & (db' & He & ->)%exec_or_throw_inr & Hrun).
    injection Hrun as <-. cbn [set_db w_db].
    unfold sql_exec, exec_alter_add in He. fold (torrents (w_db w)) in He.
    destruct (torrents (w_db w)) as [t|] eqn:Ht; [|done].
    case_bool_decide as Hc; [done|]. destruct (_ || _); [done|].
    cbn [on_ok] in He. injection He as <- <-.
    apply eq_None_not_Some in Hc. split_and!.
    + split.
      * unfold with_table. cbn [db_tables]. by rewrite lookup_insert_ne.
      * done.
      * intros t0 Ht0. rewrite Ht in Ht0. injection Ht0 as <-.
        eexists. split; [apply torrents_with_table|]. cbn [tbl_columns tbl_rows].
        split; [by apply insert_subseteq|].
        apply Forall2_fmap_r, Forall_Forall2_diag, Forall_forall.
        intros r _ c Hin. apply value_insert_ne. intros <-. rewrite Hc in Hin.
        by destruct Hin.
    + rewrite record_contains_with_table. cbn [tbl_columns].
      by rewrite lookup_insert_eq, bool_decide_eq_true_2.
    + intros _ t'. rewrite torrents_with_table. intros [= <-]. cbn [tbl_columns tbl_rows].
      split; [by rewrite lookup_insert_eq|].
      apply Forall_fmap, Forall_forall. intros r _. apply value_insert_eq.
  - injection Hrun as <-. split_and!; [apply extends_refl| |].
    + destruct Htested as [|Htested]; [done|].
      unfold sql_exec, record_contains in *. fold (torrents (w_db w)) in *.
      destruct (torrents (w_db w)) as [tb|]; [|done].
      rewrite has_columns_singleton in Htested. by destruct (bool_decide _).
    + destruct Htested as [|Htested]; [done|].
      unfold sql_exec, record_contains in *. fold (torrents (w_db w)) in *.
      destruct (torrents (w_db w)) as [tb|]; [|done].
      rewrite has_columns_singleton in Htested. by destruct (bool_decide _).
Qed.

Lemma updateDB_inr fromVersion w w' :
  updateDB fromVersion w = (inr tt, w') →
  ∃ db1 db2 db3 t,
    (if fromVersion =? 1
     then column_added (makeColumnDefinition DB_COLUMN_DOWNLOAD_PATH (NULLABLE "TEXT"))
                       (w_db w) db1
     else db1 = w_db w)
    ∧ (if fromVersion <=? 2
       then column_added (makeColumnDefinition DB_COLUMN_STOP_CONDITION
                            (TEXT_NOT_NULL_DEFAULT "None")) db1 db2
       else db2 = db1)
    ∧ (if fromVersion <=? 3 then index_created db2 db3 else db3 = db2)
    ∧ db_tables db3 !! DB_TABLE_META = Some t
    ∧ w_db w' = with_table db3 DB_TABLE_META (with_rows t (version_bumped <$> tbl_rows t)).
Proof.
  unfold updateDB. intros Hrun.
  apply locked_inr in Hrun as (w0 & Hrun & ->).
  apply bind_inr in Hrun as ([] & wt & Ht%transaction_or_throw_inr & Hrun).
  cbn [log w_db] in Ht.
  apply rollback_and_rethrow_inr in Hrun.
  apply bind_inr in Hrun as ([] & w1 & Hs1 & Hrun).
  apply bind_inr in Hrun as ([] & w2 & Hs2 & Hrun).
  apply bind_inr in Hrun as ([] & w3 & Hs3 & Hrun).
  apply bind_inr in Hrun as ([] & w4 & ->%prepare_or_throw_inr & Hrun).
  apply bind_inr in Hrun as (rows & w5 & (db5 & Hs5 & ->)%exec_or_throw_inr & Hrun).
  apply commit_or_throw_inr in Hrun. cbn [set_db w_db] in Hrun.
  unfold makeUpdateStatement, sql_exec, exec_update in Hs5.
  destruct (db_tables (w_db w3) !! DB_TABLE_META) as [t|] eqn:Hmeta; [|done].
  destruct (negb (has_columns t _)); [done|]. destruct (_ && _); [|done].
  cbn [on_ok] in Hs5. injection Hs5 as <- <-.
  exists (w_db w1), (w_db w2), (w_db w3), t. cbn [log w_db]. rewrite Hrun, <- Ht.
  split_and!; [..|done|done].
  - destruct (fromVersion =? 1); [by apply add_column_if_missing_inr|].
    by injection Hs1 as <-.
  - destruct (fromVersion <=? 2); [by apply add_column_if_missing_inr|].
    by injection Hs2 as <-.
  - destruct (fromVersion <=? 3); [|by injection Hs3 as <-].
    apply bind_inr in Hs3 as (rows & w3' & (db3 & Hs3 & ->)%exec_or_throw_inr & Hw).
    injection Hw as <-. cbn [set_db w_db]. unfold sql_exec, index_created, record_contains in *.
    destruct (db_tables (w_db w2) !! DB_TABLE_TORRENTS) as [tb|]; [|done].
    rewrite has_columns_singleton in Hs3. destruct (bool_decide (is_Some (tbl_columns tb !! _)));
      [|done]. cbn [negb] in Hs3.
    case_bool_decide; injection Hs3 as <- _; auto.
Qed.
End migration.

(** The two tables as [createDB] leaves them. *)
Definition meta_created : Table :=
  {| tbl_columns := list_to_map tableMetaItems;
     tbl_rows := [ {[ "id" := Int 1; "name" := Text META_VERSION; "value" := Int DB_VERSION ]} ] |}.

Definition torrents_created : Table :=
  {| tbl_columns := torrents_schema; tbl_rows := [] |}.

Lemma insert_version_row db :
  db_tables db !! DB_TABLE_META
  = Some {| tbl_columns := list_to_map tableMetaItems; tbl_rows := [] |} →
  exec_insert db DB_TABLE_META [DB_COLUMN_NAME; DB_COLUMN_VALUE] None bindMetaVersion
  = inr (with_table db DB_TABLE_META meta_created).
Proof.
  intros Hm. unfold exec_insert. rewrite Hm.
  set (t := {| tbl_columns := list_to_map tableMetaItems; tbl_rows := [] |}).
  replace (has_columns t _) with true by (by vm_compute).
  replace (candidate_row t _ _) with
    ({[ "id" := Int 1; "name" := Text META_VERSION; "value" := Int DB_VERSION ]} : Row)
    by (by vm_compute).
  replace (not_null_ok t _) with true by (by vm_compute).
  replace (unique_ok t _) with true by (by vm_compute).
  done.
Qed.

Section creation.
Context `{!Libtorrent, !Profile, !Driver}.

(** Enabling the write-ahead log never stops [createDB]: it touches no
    table and no index, and a failure is logged as a warning. *)
Lemma enableWALMode_caught w :
  ∃ w1, try_catch enableWALMode
          (λ err, emit (LogMsg (Couldnt_enable_WAL err) WARNING)) w = (inr tt, w1)
    ∧ db_tables (w_db w1) = db_tables (w_db w)
    ∧ db_indexes (w_db w1) = db_indexes (w_db w)
    ∧ w_saved w1 = w_saved w
    ∧ (if exec_fails PragmaJournalModeWAL
       then w1 = log w (LogMsg (Couldnt_enable_WAL (lastError_text DriverFailure)) WARNING)
       else db_wal (w_db w1) = wal_available || db_wal (w_db w)
            ∧ w_events w1 =
                w_events w ++ (if wal_available then []
                               else [LogMsg (Couldnt_enable_WAL WAL_mode_is_probably_unsupported)
                                            WARNING])).
Proof.
  unfold try_catch, enableWALMode, mbind, M_bind. rewrite exec_or_throw_run.
  destruct (exec_fails PragmaJournalModeWAL); [by eexists|].
  unfold sql_exec. rewrite value_singleton.
  destruct wal_available; (eexists; split; [done|]); cbn [set_db w_db w_events w_saved log];
    by rewrite ?app_nil_r.
Qed.

Lemma createDB_inr w w' :
  createDB w = (inr tt, w') → db_tables (w_db w) = ∅ →
  db_tables (w_db w')
  = <[DB_TABLE_TORRENTS := torrents_created]> (<[DB_TABLE_META := meta_created]> ∅)
  ∧ db_indexes (w_db w')
    = <[torrentsQueuePositionIndexName :=
          (DB_TABLE_TORRENTS, Column.name DB_COLUMN_QUEUE_POSITION)]> (db_indexes (w_db w)).
Proof.
  unfold createDB. intros Hrun Hempty.
  apply bind_inr in Hrun as ([] & w1 & Hwal & Hrun).
  destruct (enableWALMode_caught w) as (w1' & Hwal' & Htables & Hindexes & _).
  rewrite Hwal' in Hwal. injection Hwal as ->. rewrite Hempty in Htables.
  apply bind_inr in Hrun as ([] & w2 & Ht%transaction_or_throw_inr & Hrun).
  apply rollback_and_rethrow_inr in Hrun.
  apply bind_inr in Hrun as (? & w3 & (db3 & Hs3 & ->)%exec_or_throw_inr & Hrun).
  apply bind_inr in Hrun as ([] & w4 & ->%prepare_or_throw_inr & Hrun).
  apply bind_inr in Hrun as (? & w5 & (db5 & Hs5 & ->)%exec_or_throw_inr & Hrun).
  apply bind_inr in Hrun as (? & w6 & (db6 & Hs6 & ->)%exec_or_throw_inr & Hrun).
  apply bind_inr in Hrun as (? & w7 & (db7 & Hs7 & ->)%exec_or_throw_inr & Hrun).
  apply commit_or_throw_inr in Hrun. rewrite Hrun. cbn [set_db w_db] in *.
  rewrite Ht in *. clear Hrun Ht w' w2.
  unfold makeCreateTableStatement, makeInsertStatement, sql_exec in *.
  rewrite Htables, lookup_empty in Hs3.
  rewrite bool_decide_eq_false_2 in Hs3 by (by intros []). injection Hs3 as <- _.
  rewrite insert_version_row in Hs5
    by (unfold with_table; cbn [db_tables]; by rewrite lookup_insert_eq).
  cbn [on_ok] in Hs5. injection Hs5 as <- _.
  rewrite bool_decide_eq_false_2 in Hs6.
  2:{ unfold with_table. cbn [db_tables].
      rewrite !lookup_insert_ne, Htables, lookup_empty by done. by intros []. }
  injection Hs6 as <- _.
  unfold with_table in Hs7 at 1. cbn [db_tables] in Hs7. rewrite lookup_insert_eq in Hs7.
  replace (has_columns _ _) with true in Hs7 by (by vm_compute). cbn [negb] in Hs7.
  case_bool_decide; [done|]. injection Hs7 as <- _.
  unfold with_table. cbn [db_tables db_indexes]. rewrite Htables, Hindexes.
  by rewrite insert_insert_eq.
Qed.
End creation.

Lemma meta_rows_with_table db t : meta_rows (with_table db DB_TABLE_META t) = tbl_rows t.
Proof. unfold meta_rows, with_table. cbn [db_tables]. by rewrite lookup_insert_eq. Qed.

Lemma index_created_record_contains db db' c :
  index_created db db' →
  record_contains db' DB_TABLE_TORRENTS c = record_contains db DB_TABLE_TORRENTS c.
Proof. intros (_ & Ht & _). unfold record_contains. by rewrite Ht. Qed.

Section open_theorems.
Context `{!Libtorrent, !Profile, !Driver}.

Lemma updateDB_version fromVersion w w' :
  updateDB fromVersion w = (inr tt, w') →
  stored_version (w_db w')
  = (if bool_decide (meta_rows (w_db w) = []) then None else Some DB_VERSION)
  ∧ (fromVersion = 1 →
     record_contains (w_db w') DB_TABLE_TORRENTS (Column.name DB_COLUMN_DOWNLOAD_PATH) = true).
Proof.
  intros (db1 & db2 & db3 & t & Hs1 & Hs2 & Hs3 & Hmeta & ->)%updateDB_inr.
  assert (db_tables db3 !! DB_TABLE_META = db_tables (w_db w) !! DB_TABLE_META) as Hsame.
  { transitivity (db_tables db2 !! DB_TABLE_META).
    { destruct (_ <=? 3); [|by subst]. destruct Hs3 as (_ & -> & _). done. }
    transitivity (db_tables db1 !! DB_TABLE_META).
    { destruct (_ <=? 2); [|by subst]. destruct Hs2 as ([] & _). done. }
    destruct (_ =? 1); [|by subst]. destruct Hs1 as ([] & _). done. }
  split.
  - apply stored_version_bumped. rewrite meta_rows_with_table. cbn [with_rows tbl_rows].
    unfold meta_rows. by rewrite <- Hsame, Hmeta.
  - intros ->. cbn in Hs1, Hs2, Hs3. rewrite record_contains_other by done.
    rewrite (index_created_record_contains db2) by done.
    destruct Hs1 as (_ & Hc & _), Hs2 as (Hext & _). by apply (extends_record_contains db1).
Qed.

(** C4, as amended: when [open] returns, a store it created holds
    version [DB_VERSION].  For a file that was there, the version the
    constructor detects is readable: 1 when the download-path column is
    missing, the stored version otherwise.  If it is below [DB_VERSION]
    the migration has run: the download-path column is there when the
    detected version was 1, and the stored version is [DB_VERSION] unless
    the meta table had no row, in which case it is still unset (the
    version update has no [WHERE] and inserts nothing).  If it is
    [DB_VERSION] or above, the store is left exactly as it was, so a
    stored version above [DB_VERSION] stays. *)
Theorem open_establishes_version file w :
  open file = (inr tt, w) →
  match file with
  | None => stored_version (w_db w) = Some DB_VERSION
  | Some db =>
      ∃ dbVersion, detected_version db = Some dbVersion
        ∧ if dbVersion <? DB_VERSION
          then stored_version (w_db w)
               = (if bool_decide (meta_rows db = []) then None else Some DB_VERSION)
               ∧ (dbVersion = 1 →
                  record_contains (w_db w) DB_TABLE_TORRENTS
                                  (Column.name DB_COLUMN_DOWNLOAD_PATH) = true)
          else w_db w = db
  end.
Proof.
  unfold open, DBResumeDataStorage. intros Hrun.
  apply bind_inr in Hrun as ([] & w1 & Hopen & Hrun).
  assert (w1 = {| w_db := default empty_database file; w_saved := None; w_events := [] |})
    as -> by (unfold db_open in Hopen; destruct open_fails; by injection Hopen).
  apply bind_inr in Hrun as ([] & w2 & Hrun & Hw). injection Hw as <-. cbn [log w_db].
  destruct file as [db|]; cbn [from_option id] in Hrun.
  - rewrite bool_decide_eq_false_2 in Hrun by done.
    apply bind_inr in Hrun as (dbVersion & w3 & Hv & Hrun). cbn [w_db] in Hv.
    exists dbVersion. unfold detected_version.
    destruct (record_contains db _ _); cbn [negb] in Hv.
    + apply currentDBVersion_inr in Hv as [Hv Hdb]. cbn [w_db] in Hv, Hdb. split; [done|].
      destruct (dbVersion <? DB_VERSION).
      * apply updateDB_version in Hrun. by rewrite Hdb in Hrun.
      * by injection Hrun as <-.
    + injection Hv as <- <-. split; [done|]. cbn.
      by apply updateDB_version in Hrun.
  - rewrite bool_decide_eq_true_2 in Hrun by done.
    apply createDB_inr in Hrun as [Htables _]; [|done].
    unfold stored_version, meta_rows. rewrite Htables.
    by rewrite lookup_insert_ne, lookup_insert_eq.
Qed.
End open_theorems.

(** * Further properties of the storage *)

(** ** The jobs keep the torrents table well formed *)

(** A store with a torrents table that has the declared columns, no two
    rows with the same [id] or the same [torrent_id], and no NULL in a
    [NOT NULL] column. *)
Definition store_ok (db : Database) : Prop := ∃ t, torrents db = Some t ∧ table_ok t.

Lemma NoDup_filter_fmap_filter {A B} (f : A → B) (P : A → Prop) (Q : B → Prop)
    `{!∀ x, Decision (P x), !∀ y, Decision (Q y)} (l : list A) :
  NoDup (filter Q (f <$> l)) → NoDup (filter Q (f <$> filter P l)).
Proof.
  induction l as [|x l IH]; [done|]. rewrite fmap_cons, !filter_cons.
  destruct (decide (P x)), (decide (Q (f x))) as [Hq|Hq];
    rewrite ?fmap_cons, ?filter_cons, ?(decide_True _ _ Hq), ?(decide_False _ _ Hq);
    rewrite ?NoDup_cons; try naive_solver.
  intros [Hx Hl]. split; [|auto]. intros Hin. apply Hx.
  apply list_elem_of_filter in Hin as [HQ Hin]. apply list_elem_of_filter. split; [done|].
  apply list_elem_of_fmap in Hin as (y & Heq & Hy%list_elem_of_filter).
  apply list_elem_of_fmap. exists y. naive_solver.
Qed.

Lemma removed_ok t id : table_ok t → table_ok (with_rows t (removed t id)).
Proof.
  intros [Hs Hu Hn]. split; cbn [with_rows tbl_columns tbl_rows]; [done| |].
  - apply bool_decide_eq_true, map_Forall_lookup. intros c d Hc Hd.
    apply bool_decide_eq_true in Hu. specialize (Hu c d Hc Hd).
    by apply NoDup_filter_fmap_filter.
  - unfold removed. apply Forall_forall. intros r [_ Hr]%list_elem_of_filter.
    rewrite Forall_forall in Hn. by apply Hn.
Qed.

Lemma repositioned_ok t queue pos :
  table_ok t → table_ok (with_rows t (repositioned queue pos (tbl_rows t))).
Proof.
  revert pos t. induction queue as [|id queue IH]; intros pos t Hok; cbn [repositioned].
  - by rewrite with_rows_same.
  - by apply (IH (pos + 1) (with_rows t (reposition id pos (tbl_rows t)))), reposition_ok.
Qed.

Section jobs_invariant.
Context `{!Libtorrent, !Profile, !Driver}.

Lemma stored_ok t names id rd b md :
  storable names → table_ok t →
  table_ok (with_rows t (upserted t names (StoreJob_bindings id rd b md) id)).
Proof.
  intros Hn Hok.
  apply upserted_ok; eauto using storable_cols, storable_torrent_id, storable_id,
    bound_torrent_id, storable_rest.
  intros c d. by apply storable_not_null.
Qed.

Lemma StoreQueueJob_perform_run queue w t :
  torrents (w_db w) = Some t → table_ok t →
  perform (StoreQueueJob queue) w =
    if prepare_fails updateQueuePosStatement
       || (exec_fails updateQueuePosStatement && negb (bool_decide (queue = [])))
    then (inr tt, log w (LogMsg (Couldnt_store_queue_positions (lastError_text DriverFailure))
                                CRITICAL))
    else (inr tt, reordered w t queue).
Proof.
  intros Ht Hok.
  destruct (prepare_fails updateQueuePosStatement) eqn:Hp,
           (exec_fails updateQueuePosStatement) eqn:He; cbn [orb andb];
    [| | |by apply StoreQueueJob_perform_ok].
  1,2: cbn [perform]; unfold StoreQueueJob_perform, try_catch, mbind, M_bind;
       by rewrite prepare_or_throw_run, Hp.
  cbn [perform]. unfold StoreQueueJob_perform, try_catch, mbind, M_bind.
  rewrite prepare_or_throw_run, Hp.
  assert (sql_prepare updateQueuePosStatement (w_db w) = None) as ->.
  { unfold updateQueuePosStatement, sql_prepare. unfold torrents in Ht. rewrite Ht.
    cbn [from_option app fmap list_fmap].
    change (Column.name DB_COLUMN_QUEUE_POSITION) with "queue_position".
    change (Column.name DB_COLUMN_TORRENT_ID) with "torrent_id".
    replace (has_columns t ["queue_position"; "torrent_id"]) with true; [done|].
    rewrite (has_columns_schema _ _ (ok_schema _ Hok)). by vm_compute. }
  destruct queue as [|id queue]; cbn [StoreQueueJob_loop negb bool_decide].
  - rewrite bool_decide_eq_true_2 by done. cbn [negb]. unfold reordered.
    cbn [repositioned]. by rewrite with_rows_same, with_table_same, set_db_same.
  - rewrite bool_decide_eq_false_2 by done. cbn [negb].
    unfold mbind, M_bind. by rewrite exec_or_throw_run, He.
Qed.

(** X1: Whatever the encoders and the driver do, a job leaves a well-formed
    store well formed. *)
Theorem jobs_keep_store_ok job w :
  store_ok (w_db w) → store_ok (w_db (perform job w).2).
Proof.
  intros (t & Ht & Hok). destruct job as [id rd|id|queue].
  - cbn [perform].
    destruct (StoreJob_perform_db id rd w t Ht Hok) as [->|(names & b & md & Hn & ->)];
      [by exists t|].
    eexists. split; [apply torrents_with_table|]. by apply stored_ok.
  - cbn [perform]. rewrite (RemoveJob_perform_run _ _ t) by done.
    destruct (_ || _); [by exists t|]. cbn [snd set_db w_db].
    eexists. split; [apply torrents_with_table|]. by apply removed_ok.
  - rewrite (StoreQueueJob_perform_run _ _ t) by done.
    destruct (_ || _); [by exists t|]. cbn [snd]. unfold reordered. cbn [set_db w_db].
    eexists. split; [apply torrents_with_table|]. by apply repositioned_ok.
Qed.
End jobs_invariant.

(** ** What the jobs leave alone, and how they fail *)

(** The statement a job prepares and executes. *)
Definition job_statement `{!Libtorrent, !Profile} (job : Job) : Statement :=
  match job with
  | StoreJob _ rd => store_statement (stored_names rd)
  | RemoveJob _ => deleteTorrentStatement
  | StoreQueueJob _ => updateQueuePosStatement
  end.

Lemma filter_removed_absent (rows : list Row) id :
  list_find (has_id id) rows = None →
  filter (λ r, matches (Some DB_COLUMN_TORRENT_ID) (bind_torrent_id id) r = false) rows = rows.
Proof.
  intros Hnone%list_find_None. apply filter_Forall. eapply Forall_impl; [exact Hnone|].
  intros r Hr. apply not_true_is_false. by intros ?%matches_torrent_id.
Qed.

Section frames.
Context `{!Libtorrent, !Profile, !Driver}.

(** X2: A store job touches no record but the one of its identifier,
    whatever the encoders and the driver do. *)
Theorem store_job_leaves_other_records id rd w id' :
  store_ok (w_db w) → id' ≠ id →
  find_row (w_db (perform (StoreJob id rd) w).2) id' = find_row (w_db w) id'.
Proof.
  intros (t & Ht & Hok) Hne. cbn [perform].
  destruct (StoreJob_perform_db id rd w t Ht Hok) as [->|(names & b & md & Hn & ->)];
    [done|].
  by apply find_row_stored_other.
Qed.

(** X3: A remove job whose statement runs deletes the record of its
    identifier and no other; it emits nothing, and a later [load] of the
    identifier reports that it was not found. *)
Theorem remove_job_deletes_one_record id w :
  store_ok (w_db w) → driver_ok deleteTorrentStatement → driver_ok selectTorrentStatement →
  let w' := (perform (RemoveJob id) w).2 in
  find_row (w_db w') id = None
  ∧ (∀ id', id' ≠ id → find_row (w_db w') id' = find_row (w_db w) id')
  ∧ w_events w' = w_events w
  ∧ (load id w').1 = inr (inl (Couldnt_load_resume_data (TorrentID.toString id) Not_found)).
Proof.
  intros (t & Ht & Hok) [Hp He] [Hps Hes] w'. subst w'. cbn [perform].
  rewrite (RemoveJob_perform_run _ _ t), Hp, He by done. cbn [orb snd set_db w_db w_events].
  assert (find_row (with_table (w_db w) DB_TABLE_TORRENTS (with_rows t (removed t id))) id
          = None) as Hgone by (rewrite find_row_removed by done; by rewrite decide_True).
  split_and!; [done| |done|].
  - intros id' Hne. rewrite find_row_removed by done. by rewrite decide_False.
  - rewrite (load_run _ _ (with_rows t (removed t id))), Hps, Hes;
      [|by cbn [set_db w_db]; apply torrents_with_table|apply Hok].
    cbn [orb set_db w_db]. by rewrite Hgone.
Qed.

(** X4: Storing a record under an identifier the store does not hold and
    removing it again leaves every table as it was. *)
Theorem store_then_remove id rd w b md :
  store_ok (w_db w) → find_row (w_db w) id = None →
  driver_ok (store_statement (stored_names rd)) → driver_ok deleteTorrentStatement →
  encoded_blobs rd = Some (b, md) →
  w_db (perform (RemoveJob id) (perform (StoreJob id rd) w).2).2 = w_db w.
Proof.
  intros (t & Ht & Hok) Hnone Hstore [Hp He] Hb.
  rewrite (StoreJob_perform_ok _ _ _ t b md) by done. cbn [snd perform].
  pose proof (stored_names_storable rd) as Hn.
  rewrite (RemoveJob_perform_run _ _
             (with_rows t (upserted t (stored_names rd)
                (StoreJob_bindings id rd b (default "" md)) id))), Hp, He;
    [|by unfold stored; cbn [set_db w_db]; apply torrents_with_table|by apply stored_ok].
  cbn [orb snd]. unfold stored. cbn [set_db w_db]. rewrite with_table_twice.
  unfold find_row in Hnone. rewrite Ht in Hnone. cbn [mbind option_bind] in Hnone.
  destruct (list_find (has_id id) (tbl_rows t)) as [[??]|] eqn:Hfind; [done|].
  assert (removed (with_rows t (upserted t (stored_names rd)
            (StoreJob_bindings id rd b (default "" md)) id)) id = tbl_rows t) as Hrows.
  { unfold removed, upserted. cbn [with_rows tbl_rows]. rewrite Hfind, filter_app.
    rewrite filter_removed_absent by done.
    rewrite filter_cons_False, filter_nil, app_nil_r; [done|].
    intros Hm. apply not_true_iff_false in Hm. apply Hm, matches_torrent_id.
    apply candidate_has_id; [done|by apply storable_torrent_id|apply bound_torrent_id]. }
  rewrite Hrows. unfold with_rows at 1. cbn [with_rows tbl_columns].
  fold (with_rows t (tbl_rows t)). rewrite with_rows_same. by apply with_table_same.
Qed.

(** X5: [load] never throws, changes nothing and emits nothing.  A
    statement the driver refuses comes back as an error value that
    carries the driver's message, a missing record as the error value "not
    found", and a record that is there as its decoded descriptor. *)
Theorem load_returns id w :
  store_ok (w_db w) →
  load id w
  = (inr (if prepare_fails selectTorrentStatement || exec_fails selectTorrentStatement
          then inl (Couldnt_load_resume_data (TorrentID.toString id)
                      (lastError_text DriverFailure))
          else match find_row (w_db w) id with
               | None => inl (Couldnt_load_resume_data (TorrentID.toString id) Not_found)
               | Some query => inr (parseQueryResultRow query)
               end), w).
Proof.
  intros (t & Ht & Hok). rewrite (load_run _ _ t) by (done || apply Hok).
  destruct (_ || _); [done|]. by destruct (find_row _ _).
Qed.

(** X6: A job whose statement the driver refuses returns normally: the store
    is as it was and one critical message is logged. *)
Theorem refused_job_is_logged job w :
  store_ok (w_db w) →
  (∀ id rd, job = StoreJob id rd → is_Some (encoded_blobs rd)) →
  prepare_fails (job_statement job) = true →
  ∃ message, perform job w = (inr tt, log w (LogMsg message CRITICAL)).
Proof.
  intros (t & Ht & Hok) Henc Hp. destruct job as [id rd|id|queue]; cbn [job_statement] in Hp.
  - destruct (Henc id rd eq_refl) as [[b md] Hb]. cbn [perform].
    rewrite (StoreJob_perform_run _ _ _ t b md), Hp by done. by eexists.
  - cbn [perform]. rewrite (RemoveJob_perform_run _ _ t), Hp by done. by eexists.
  - rewrite (StoreQueueJob_perform_run _ _ t), Hp by done. by eexists.
Qed.

End frames.

(** ** The plain fields through a store and a load *)

Lemma toBool_fromBool b : toBool (fromBool b) = b.
Proof. by destruct b. Qed.

Section fields.
Context `{!Libtorrent, !Profile, !Driver}.

(** X8: The name, the category, the three flags and the seeding time limit
    of a descriptor come back from a store job followed by a load. *)
Theorem store_then_load_fields id rd w b md :
  store_ok (w_db w) →
  driver_ok (store_statement (stored_names rd)) → driver_ok selectTorrentStatement →
  encoded_blobs rd = Some (b, md) →
  INT_MIN <= LoadTorrentParams.seedingTimeLimit rd <= INT_MAX →
  ∃ resumeData,
    (load id (perform (StoreJob id rd) w).2).1 = inr (inr resumeData)
    ∧ LoadTorrentParams.name resumeData = LoadTorrentParams.name rd
    ∧ LoadTorrentParams.category resumeData = LoadTorrentParams.category rd
    ∧ LoadTorrentParams.firstLastPiecePriority resumeData
      = LoadTorrentParams.firstLastPiecePriority rd
    ∧ LoadTorrentParams.hasFinishedStatus resumeData = LoadTorrentParams.hasFinishedStatus rd
    ∧ LoadTorrentParams.stopped resumeData = LoadTorrentParams.stopped rd
    ∧ LoadTorrentParams.seedingTimeLimit resumeData = LoadTorrentParams.seedingTimeLimit rd.
Proof.
  intros (t & Ht & Hok) Hstore Hload Hb Hrange.
  destruct (store_then_load id rd w t b md) as (row' & Hrow' & Hvals & Hld); [done..|].
  exists (parseQueryResultRow row'). split; [done|].
  assert (∀ c v, (c, v) ∈ StoreJob_values id rd b → value row' c = v) as Hval
    by (intros c v; by apply stored_value).
  unfold parseQueryResultRow.
  cbn [LoadTorrentParams.name LoadTorrentParams.category
       LoadTorrentParams.firstLastPiecePriority LoadTorrentParams.hasFinishedStatus
       LoadTorrentParams.stopped LoadTorrentParams.seedingTimeLimit
       Column.name DB_COLUMN_NAME DB_COLUMN_CATEGORY DB_COLUMN_HAS_OUTER_PIECES_PRIORITY
       DB_COLUMN_HAS_SEED_STATUS DB_COLUMN_STOPPED DB_COLUMN_SEEDING_TIME_LIMIT makeColumn].
  rewrite (Hval "name" (Text (LoadTorrentParams.name rd))),
    (Hval "category" (Text (LoadTorrentParams.category rd))),
    (Hval "has_outer_pieces_priority" (fromBool (LoadTorrentParams.firstLastPiecePriority rd))),
    (Hval "has_seed_status" (fromBool (LoadTorrentParams.hasFinishedStatus rd))),
    (Hval "stopped" (fromBool (LoadTorrentParams.stopped rd))),
    (Hval "seeding_time_limit" (Int (LoadTorrentParams.seedingTimeLimit rd)))
    by (unfold StoreJob_values; set_solver).
  rewrite !toBool_fromBool. split_and!; try done.
  change (toInt (Int ?z)) with (wrap_int z). by apply wrap_int_small.
Qed.

(** X9: Automatic torrent management is not stored: it is read off the save
    path.  With a profile whose two path conversions undo each other, a
    descriptor under automatic management comes back with no save path
    and no download path; any other descriptor comes back with its save
    path, and with its download path unless the save path is empty, in
    which case it comes back as one under automatic management. *)
Theorem store_then_load_paths id rd w b md :
  store_ok (w_db w) →
  driver_ok (store_statement (stored_names rd)) → driver_ok selectTorrentStatement →
  encoded_blobs rd = Some (b, md) →
  (∀ path, fromPortablePath (toPortablePath path) = path) → fromPortablePath "" = "" →
  ∃ resumeData,
    (load id (perform (StoreJob id rd) w).2).1 = inr (inr resumeData)
    ∧ if LoadTorrentParams.useAutoTMM rd || bool_decide (LoadTorrentParams.savePath rd = "")
      then LoadTorrentParams.useAutoTMM resumeData = true
           ∧ LoadTorrentParams.savePath resumeData = ""
           ∧ LoadTorrentParams.downloadPath resumeData = ""
      else LoadTorrentParams.useAutoTMM resumeData = false
           ∧ LoadTorrentParams.savePath resumeData = LoadTorrentParams.savePath rd
           ∧ LoadTorrentParams.downloadPath resumeData = LoadTorrentParams.downloadPath rd.
Proof.
  intros (t & Ht & Hok) Hstore Hload Hb Hprofile Hempty.
  destruct (store_then_load id rd w t b md) as (row' & Hrow' & Hvals & Hld); [done..|].
  exists (parseQueryResultRow row'). split; [done|].
  assert (∀ c v, (c, v) ∈ StoreJob_values id rd b → value row' c = v) as Hval
    by (intros c v; by apply stored_value).
  unfold parseQueryResultRow.
  cbn [LoadTorrentParams.useAutoTMM LoadTorrentParams.savePath LoadTorrentParams.downloadPath
       Column.name DB_COLUMN_TARGET_SAVE_PATH DB_COLUMN_DOWNLOAD_PATH makeColumn].
  rewrite (Hval "target_save_path"
             (if LoadTorrentParams.useAutoTMM rd then Null
              else Text (toPortablePath (LoadTorrentParams.savePath rd)))),
    (Hval "download_path"
       (if LoadTorrentParams.useAutoTMM rd then Null
        else Text (toPortablePath (LoadTorrentParams.downloadPath rd))))
    by (unfold StoreJob_values; set_solver).
  destruct (LoadTorrentParams.useAutoTMM rd); cbn [orb toString].
  - rewrite Hempty. by rewrite bool_decide_eq_true_2.
  - rewrite !Hprofile. case_bool_decide as Hs; cbn [negb]; [by rewrite Hs|done].
Qed.
End fields.

(** ** More on the reorder job and the listing *)

Lemma reposition_row_value queue pos r c :
  c ≠ "queue_position" → value (reposition_row queue pos r) c = value r c.
Proof.
  intros Hc. revert pos r.
  induction queue as [|id rest IH]; intros pos r; cbn [reposition_row]; [done|].
  rewrite IH. case_decide; [|done]. by apply value_insert_ne.
Qed.

Lemma find_row_reordered w t queue id :
  torrents (w_db w) = Some t →
  find_row (w_db (reordered w t queue)) id
  = reposition_row queue 0 <$> find_row (w_db w) id.
Proof.
  intros Ht. unfold find_row, reordered. cbn [set_db w_db].
  rewrite torrents_with_table, Ht. cbn [mbind option_bind with_rows tbl_rows].
  rewrite repositioned_fmap, list_find_fmap.
  rewrite (list_find_ext (has_id id ∘ reposition_row queue 0) (has_id id))
    by (intros r; apply reposition_row_has_id).
  by destruct (list_find (has_id id) (tbl_rows t)) as [[i r]|].
Qed.

Section reorder_more.
Context `{!Libtorrent, !Profile, !Driver}.

(** X10: A reorder job creates no record and removes none, writes no column
    but the queue position, and leaves the records its queue does not
    name exactly as they are; this whatever the driver does. *)
Theorem reorder_job_changes_positions_only queue w id :
  store_ok (w_db w) →
  match find_row (w_db w) id with
  | Some r =>
      ∃ r', find_row (w_db (perform (StoreQueueJob queue) w).2) id = Some r'
        ∧ (∀ c, c ≠ "queue_position" → value r' c = value r c)
        ∧ (id ∉ queue → r' = r)
  | None => find_row (w_db (perform (StoreQueueJob queue) w).2) id = None
  end.
Proof.
  intros (t & Ht & Hok). rewrite (StoreQueueJob_perform_run _ _ t) by done.
  destruct (_ || _); cbn [snd log w_db].
  { destruct (find_row (w_db w) id) as [r|]; [|done]. by exists r. }
  rewrite find_row_reordered by done.
  destruct (find_row (w_db w) id) as [r|] eqn:Hr; [|done]. cbn [fmap option_fmap option_map].
  eexists. split_and!; [done| |].
  - intros c Hc. by apply reposition_row_value.
  - intros Hid. apply reposition_row_absent. intros z Hz Hzr. apply Hid.
    unfold find_row in Hr. rewrite Ht in Hr. cbn [mbind option_bind] in Hr.
    destruct (list_find (has_id id) (tbl_rows t)) as [[i r0]|] eqn:Hfind; [|done].
    injection Hr as ->. apply list_find_Some in Hfind as (_ & Hidr & _).
    by rewrite (has_id_unique _ _ _ Hidr Hzr).
Qed.

(** X11: A reorder job whose statement runs gives every identifier of a
    duplicate-free queue that has a record its place in the queue,
    counted from zero, as queue position. *)
Theorem reorder_job_sets_positions queue w k x r :
  store_ok (w_db w) → driver_ok updateQueuePosStatement → NoDup queue →
  queue !! k = Some x → find_row (w_db w) x = Some r →
  ∃ r', find_row (w_db (perform (StoreQueueJob queue) w).2) x = Some r'
    ∧ value r' "queue_position" = Int (Z.of_nat k).
Proof.
  intros (t & Ht & Hok) Hdrv Hnd Hk Hr.
  rewrite (StoreQueueJob_perform_ok _ _ t) by done. cbn [snd].
  rewrite find_row_reordered, Hr by done. eexists. split; [done|].
  unfold find_row in Hr. rewrite Ht in Hr. cbn [mbind option_bind] in Hr.
  destruct (list_find (has_id x) (tbl_rows t)) as [[i r0]|] eqn:Hfind; [|done].
  injection Hr as ->. apply list_find_Some in Hfind as (_ & Hxr & _).
  rewrite (reposition_row_position _ _ _ x); [|done|by eapply list_elem_of_lookup_2|done].
  by rewrite (index_of_lookup _ k).
Qed.

(** X12: After a reorder job with a queue that names each record of the store
    once, whatever its length, the listing is that queue. *)
Theorem reorder_then_list_any_queue queue w t :
  torrents (w_db w) = Some t → table_ok t → holds_exactly t queue →
  driver_ok updateQueuePosStatement → driver_ok selectTorrentIDStatement →
  (registeredTorrents (perform (StoreQueueJob queue) w).2).1 = inr queue.
Proof. intros Ht Hok Hrows Hupd Hsel. by apply (reorder_general queue w t). Qed.

(** X13: The listing holds the identifier of every record once, by ascending
    queue position; it changes nothing. *)
Theorem registeredTorrents_lists_by_position w t :
  torrents (w_db w) = Some t → table_ok t →
  exec_fails selectTorrentIDStatement = false →
  Forall (λ r, ∃ pos, value r "queue_position" = Int pos) (tbl_rows t) →
  ∃ rows, registeredTorrents w = (inr (row_id <$> rows), w)
    ∧ rows ≡ₚ tbl_rows t
    ∧ StronglySorted (λ a b, rowid "queue_position" a <= rowid "queue_position" b) rows.
Proof.
  intros Ht Hok He Hpos. exists (order_by "queue_position" (tbl_rows t)).
  split_and!.
  - by apply registeredTorrents_run; [|apply Hok|].
  - apply order_by_perm.
  - apply order_by_sorted. intros r Hr. rewrite Forall_forall in Hpos.
    destruct (Hpos r Hr) as [pos Hv]. unfold rowid. by rewrite Hv.
Qed.
End reorder_more.

(** ** Taking the metadata out of the resume data *)

(** The keys [StoreJob::perform] moves to the metadata dictionary
    (lines 797-800). *)
Definition metadata_keys : list string := ["info"; "creation date"; "created by"; "comment"].

(** One [metadataDict.insert(dataDict.extract(key))]. *)
Definition move_key (acc : lt.dictionary_type * lt.dictionary_type) (key : string)
  : lt.dictionary_type * lt.dictionary_type :=
  let '(n, d) := lt.extract key acc.2 in (lt.insert n acc.1, d).

Lemma extract_metadata_moves data :
  extract_metadata data = foldl move_key ([], data) metadata_keys.
Proof.
  unfold extract_metadata, metadata_keys, move_key. cbn [foldl fst snd].
  destruct (lt.extract "info" data) as [n1 d1]. cbn [fst snd].
  destruct (lt.extract "creation date" d1) as [n2 d2]. cbn [fst snd].
  destruct (lt.extract "created by" d2) as [n3 d3]. cbn [fst snd].
  by destruct (lt.extract "comment" d3) as [n4 d4].
Qed.

Lemma extract_spec key (d : lt.dictionary_type) n rest :
  NoDup d.*1 → lt.extract key d = (n, rest) →
  NoDup rest.*1
  ∧ (∀ kv, kv ∈ rest ↔ kv ∈ d ∧ kv.1 ≠ key)
  ∧ (∀ kv, n = Some kv ↔ kv ∈ d ∧ kv.1 = key).
Proof.
  revert n rest. induction d as [|[k v] d IH]; intros n rest Hnd Hex; cbn [lt.extract] in Hex.
  - injection Hex as <- <-. split_and!; [done|set_solver..].
  - rewrite fmap_cons in Hnd. apply NoDup_cons in Hnd as [Hk Hnd]. cbn [fst] in Hk.
    assert (∀ kv, kv ∈ d → kv.1 ≠ k) as Hother.
    { intros kv Hkv Heq. apply Hk. rewrite <- Heq. apply list_elem_of_fmap. by exists kv. }
    case_bool_decide as Hkey.
    + injection Hex as <- <-. subst k. split_and!; [done| |].
      * intros kv. rewrite elem_of_cons. split; [naive_solver|].
        intros [[->|?] Hne]; done.
      * intros kv. rewrite elem_of_cons. split; [intros [= <-]; auto|].
        intros [[->|Hkv] Heq]; [done|]. by destruct (Hother kv Hkv).
    + destruct (lt.extract key d) as [n' rest'] eqn:Hd. injection Hex as <- <-.
      destruct (IH n' rest' Hnd eq_refl) as (Hnd' & Hrest & Hn). split_and!.
      * rewrite fmap_cons. apply NoDup_cons. split; [|done]. cbn [fst].
        intros (kv & -> & Hkv)%list_elem_of_fmap. apply Hrest in Hkv as [Hkv _].
        by apply (Hother kv).
      * intros kv. rewrite !elem_of_cons, Hrest. split; [|naive_solver].
        intros [->|[? ?]]; [|naive_solver]. split; [by left|done].
      * intros kv. rewrite Hn, elem_of_cons. split; [naive_solver|].
        intros [[->|?] Heq]; [done|naive_solver].
Qed.

Lemma insert_sorted_elem_1 k v (md : lt.dictionary_type) kv :
  kv ∈ lt.insert_sorted k v md → kv ∈ md ∨ kv = (k, v).
Proof.
  induction md as [|[k' v'] md IH]; cbn [lt.insert_sorted]; [set_solver|].
  case_bool_decide; [auto|]. destruct (String.ltb k k'); set_solver.
Qed.

Lemma insert_sorted_elem_2 k v (md : lt.dictionary_type) kv :
  kv ∈ md → kv ∈ lt.insert_sorted k v md.
Proof.
  induction md as [|[k' v'] md IH]; cbn [lt.insert_sorted]; [set_solver|].
  case_bool_decide; [auto|]. destruct (String.ltb k k'); set_solver.
Qed.

Lemma insert_sorted_elem_3 k v (md : lt.dictionary_type) :
  k ∉ md.*1 → (k, v) ∈ lt.insert_sorted k v md.
Proof.
  induction md as [|[k' v'] md IH]; cbn [lt.insert_sorted]; [set_solver|].
  rewrite fmap_cons, not_elem_of_cons. cbn [fst]. intros [Hne Hk].
  rewrite bool_decide_eq_false_2 by done. destruct (String.ltb k k'); set_solver.
Qed.

(** X14: The split loses nothing and doubles nothing: an entry of the resume
    data whose key is one of the four goes to the metadata dictionary,
    every other entry stays, and neither dictionary holds anything else. *)
Theorem extract_metadata_partitions (data : lt.dictionary_type) kv :
  NoDup data.*1 →
  (kv ∈ (extract_metadata data).1 ↔ kv ∈ data ∧ kv.1 ∈ metadata_keys)
  ∧ (kv ∈ (extract_metadata data).2 ↔ kv ∈ data ∧ kv.1 ∉ metadata_keys).
Proof.
  intros Hnd. rewrite extract_metadata_moves.
  assert (NoDup metadata_keys) as Hkeys by (unfold metadata_keys; compute_done).
  revert Hkeys kv. generalize metadata_keys. intros keys.
  induction keys as [|key keys IH] using rev_ind; intros Hkeys.
  { cbn [foldl fst snd]. set_solver. }
  apply NoDup_app in Hkeys as (Hkeys & Hnew & _).
  assert (key ∉ keys) as Hkey by (intros ?; apply (Hnew key); set_solver).
  specialize (IH Hkeys). rewrite foldl_app. cbn [foldl].
  destruct (foldl move_key ([], data) keys) as [md d] eqn:Hacc. cbn [fst snd] in IH.
  unfold move_key. cbn [fst snd].
  assert (NoDup d.*1) as Hd.
  { clear -Hnd Hacc. revert md d Hacc.
    induction keys as [|key keys IH] using rev_ind; intros md d Hacc.
    - cbn [foldl] in Hacc. by injection Hacc as <- <-.
    - rewrite foldl_app in Hacc. cbn [foldl] in Hacc.
      destruct (foldl move_key ([], data) keys) as [md' d'] eqn:Hacc'.
      unfold move_key in Hacc. cbn [fst snd] in Hacc.
      destruct (lt.extract key d') as [n d''] eqn:Hex. injection Hacc as <- <-.
      by destruct (extract_spec key d' n d'' (IH _ _ eq_refl) Hex). }
  destruct (lt.extract key d) as [n d'] eqn:Hex.
  destruct (extract_spec key d n d' Hd Hex) as (_ & Hrest & Hn).
  intros kv. cbn [fst snd]. split.
  - split.
    + intros Hin. destruct n as [[k v]|]; cbn [lt.insert] in Hin.
      * apply insert_sorted_elem_1 in Hin as [Hin| ->].
        -- apply IH in Hin. set_solver.
        -- destruct (proj1 (Hn (k, v)) eq_refl) as [Hkv Hk]. apply IH in Hkv. set_solver.
      * apply IH in Hin. set_solver.
    + intros [Hdata [Hk|Hk%list_elem_of_singleton]%elem_of_app].
      * assert (kv ∈ md) as Hmd by (apply IH; auto).
        destruct n as [[k v]|]; cbn [lt.insert]; [by apply insert_sorted_elem_2|done].
      * assert (n = Some kv) as -> by (apply Hn; split; [apply IH; set_solver|done]).
        destruct kv as [k v]. cbn [lt.insert fst] in *. subst k.
        apply insert_sorted_elem_3. intros (kv' & -> & Hkv')%list_elem_of_fmap.
        apply IH in Hkv'. naive_solver.
  - rewrite Hrest. split.
    + intros [Hd' Hne]. apply IH in Hd'. set_solver.
    + intros [Hdata Hk]. split; [apply IH; set_solver|set_solver].
Qed.

(** ** Loading all records and loading one *)

Lemma NoDup_filter_lookup {A} (P : A → Prop) `{!∀ x, Decision (P x)} (l : list A) i j v :
  NoDup (filter P l) → P v → l !! i = Some v → l !! j = Some v → i = j.
Proof.
  revert i j. induction l as [|a l IH]; intros i j Hnd Hv Hi Hj; [done|].
  assert (∀ k, l !! k = Some v → v ∈ filter P l) as Hin.
  { intros k Hk. apply list_elem_of_filter. split; [done|]. by eapply list_elem_of_lookup_2. }
  rewrite filter_cons in Hnd. destruct (decide (P a)) as [Ha|Ha].
  - apply NoDup_cons in Hnd as [Hnew Hnd].
    destruct i as [|i], j as [|j]; simplify_eq/=; try done.
    + by destruct (Hnew (Hin j Hj)).
    + by destruct (Hnew (Hin i Hi)).
    + f_equal. by apply IH.
  - destruct i as [|i], j as [|j]; simplify_eq/=; try done. f_equal. by apply IH.
Qed.

Lemma find_row_of_row db t r x :
  torrents db = Some t → table_ok t → r ∈ tbl_rows t → has_id x r →
  find_row db x = Some r.
Proof.
  intros Ht Hok Hr Hx. unfold find_row. rewrite Ht. cbn [mbind option_bind].
  destruct (list_find (has_id x) (tbl_rows t)) as [[i r0]|] eqn:Hfind.
  - apply list_find_Some in Hfind as (Hi & Hx0 & _).
    apply list_elem_of_lookup in Hr as [j Hj].
    pose proof (ok_unique _ Hok) as Hu. apply bool_decide_eq_true in Hu.
    specialize (Hu "torrent_id" BLOB_NOT_NULL_UNIQUE). rewrite (ok_schema _ Hok) in Hu.
    assert (torrents_schema !! "torrent_id" = Some BLOB_NOT_NULL_UNIQUE) as Hc
      by (by vm_compute).
    specialize (Hu Hc eq_refl). apply has_id_value in Hx, Hx0.
    assert (i = j) as ->.
    { apply (NoDup_filter_lookup _ _ i j (Text (TorrentID.toString x)) Hu); [done|..].
      - by rewrite list_lookup_fmap, Hi; cbn; rewrite Hx0.
      - by rewrite list_lookup_fmap, Hj; cbn; rewrite Hx. }
    cbn. congruence.
  - apply list_find_None in Hfind. rewrite Forall_forall in Hfind. by destruct (Hfind r Hr).
Qed.

Lemma exec_select_by_position db t column :
  torrents db = Some t → tbl_columns t = torrents_schema →
  column = None ∨ column = Some "torrent_id" →
  exec_select db column DB_TABLE_TORRENTS None (Some "queue_position") ∅
  = inr (from_option (λ c, (λ r : Row, ({[ c := value r c ]} : Row))
                             <$> order_by "queue_position" (tbl_rows t))
                     (order_by "queue_position" (tbl_rows t)) column).
Proof.
  intros Ht Hs Hcol. unfold exec_select. unfold torrents in Ht. rewrite Ht.
  replace (has_columns t _) with true.
  - cbn [negb matches from_option]. by rewrite filter_all.
  - rewrite (has_columns_schema _ _ Hs). by destruct Hcol as [-> | ->]; vm_compute.
Qed.

Section load_all_records.
Context `{!Libtorrent, !Profile, !Driver}.

(** X15: With the driver working, [doLoadAll] announces the identifiers that
    [registeredTorrents] lists, in that order, and then reports for each
    of them, in the same order, the record that [load] returns for it. *)
Theorem doLoadAll_reports_each_record w t :
  torrents (w_db w) = Some t → table_ok t →
  Forall (λ r, ∃ s, value r "torrent_id" = Text s) (tbl_rows t) →
  open_fails = false → exec_fails selectTorrentIDStatement = false →
  exec_fails selectStatement = false → driver_ok selectTorrentStatement →
  ∃ ids records,
    registeredTorrents w = (inr ids, w)
    ∧ doLoadAll w
      = (inr tt, emits w ([lockForRead; loadStarted ids] ++ records ++ [unlock; loadFinished]))
    ∧ Forall2 (λ id signal, ∃ resumeData,
                 (load id w).1 = inr (inr resumeData)
                 ∧ signal = onResumeDataLoaded id (inr resumeData)) ids records.
Proof.
  intros Ht Hok Htext Hopen Hids Hall [Hp He].
  pose proof (ok_schema _ Hok) as Hs.
  exists (row_id <$> order_by "queue_position" (tbl_rows t)),
         (loaded <$> order_by "queue_position" (tbl_rows t)).
  split_and!.
  - by apply registeredTorrents_run.
  - rewrite doLoadAll_run, Hopen, Hids, Hall.
    rewrite !(exec_select_by_position _ t) by auto. cbn [from_option].
    cbv zeta. do 6 f_equal. rewrite <- list_fmap_compose. apply list_fmap_ext.
    intros i r _. unfold compose, torrentID_of, row_id, value.
    change (Column.name DB_COLUMN_TORRENT_ID) with "torrent_id".
    by rewrite lookup_singleton_eq.
  - apply Forall2_fmap, Forall_Forall2_diag, Forall_forall. intros r Hr.
    rewrite order_by_perm in Hr. exists (parseQueryResultRow r). split; [|done].
    rewrite (load_run _ _ t), Hp, He by done. cbn [orb].
    rewrite (find_row_of_row _ t r); [done..|].
    rewrite Forall_forall in Htext. destruct (Htext r Hr) as [s Hv].
    apply has_id_value. unfold row_id. by rewrite Hv.
Qed.
End load_all_records.

(** ** Creating and migrating the store *)

Lemma torrents_created_ok : table_ok torrents_created.
Proof.
  split; [done| |by apply Forall_nil].
  apply bool_decide_eq_true, map_Forall_lookup. intros c d _ _. cbn. constructor.
Qed.

Section schema_run.
Context `{!Libtorrent, !Profile, !Driver}.

(** X16: What [currentDBVersion] returns is the stored version; it throws
    "Database is corrupted" when the meta table has no version row or its
    value is no integer.  Either way the read lock is released again and
    the store is left alone. *)
Theorem currentDBVersion_reads_stored_version w t :
  db_tables (w_db w) !! DB_TABLE_META = Some t →
  is_Some (tbl_columns t !! "name") → is_Some (tbl_columns t !! "value") →
  driver_ok selectDBVersionStatement →
  currentDBVersion w
  = (match stored_version (w_db w) with
     | Some dbVersion => inr dbVersion
     | None => inl (RuntimeError Database_is_corrupted)
     end, log (log w lockForRead) unlock).
Proof.
  intros Ht Hname Hvalue [Hp He].
  assert (has_columns t ["value"; "name"] = true) as Hcols.
  { unfold has_columns. cbn [forallb]. by rewrite !bool_decide_eq_true_2. }
  unfold currentDBVersion, locked, mbind, M_bind.
  rewrite prepare_or_throw_run, Hp.
  unfold selectDBVersionStatement at 1, sql_prepare. rewrite Ht.
  cbn [from_option app]. change (Column.name DB_COLUMN_VALUE) with "value".
  change (Column.name DB_COLUMN_NAME) with "name". rewrite Hcols.
  unfold emit at 1. rewrite exec_or_throw_run, He.
  unfold selectDBVersionStatement at 1, sql_exec, exec_select. cbn [w_db].
  rewrite Ht. cbn [from_option app]. change (Column.name DB_COLUMN_VALUE) with "value".
  change (Column.name DB_COLUMN_NAME) with "name". rewrite Hcols. cbn [negb on_ok].
  unfold stored_version, meta_rows. rewrite Ht. cbn [from_option].
  rewrite (list_filter_iff _ (λ r, value r (Column.name DB_COLUMN_NAME) = Text META_VERSION)).
  2:{ intros r. unfold matches. rewrite sql_eqb_eq.
      change (boundValue _ _) with (Text META_VERSION). split; [tauto|]. intros Hr.
      split; [done|]. intros Hnull. by pose proof (eq_trans (eq_sym Hnull) Hr). }
  destruct (filter _ (tbl_rows t)) as [|r rows]; cbn [fmap list_fmap head mbind option_bind].
  { done. }
  rewrite value_singleton. change (Column.name DB_COLUMN_VALUE) with "value".
  by destruct (toInt_ok (value r "value")).
Qed.
End schema_run.

(** *** A failed transaction leaves no trace *)

(** A computation that leaves the saved state alone and throws nothing
    but [RuntimeError]. *)
Definition keeps_saved {A} (m : M A) : Prop :=
  ∀ w r w', m w = (r, w') →
    w_saved w' = w_saved w ∧ ∀ e, r = inl e → ∃ message, e = RuntimeError message.

(** The same of its failing runs only. *)
Definition fails_safely {A} (m : M A) : Prop :=
  ∀ w e w', m w = (inl e, w') →
    w_saved w' = w_saved w ∧ ∃ message, e = RuntimeError message.

Section transactions.
Context `{!Libtorrent, !Profile, !Driver}.

Lemma keeps_saved_fails_safely {A} (m : M A) : keeps_saved m → fails_safely m.
Proof. intros Hm w e w' Hrun. destruct (Hm _ _ _ Hrun) as [? He]. eauto. Qed.

Lemma keeps_saved_ret {A} (a : A) : keeps_saved (mret a).
Proof. intros w r w' [= <- <-]. split; [done|]. by intros e. Qed.

Lemma keeps_saved_bind {A B} (m : M A) (f : A → M B) :
  keeps_saved m → (∀ a, keeps_saved (f a)) → keeps_saved (m ≫= f).
Proof.
  intros Hm Hf w r w'. unfold mbind, M_bind.
  destruct (m w) as [[e|a] w1] eqn:Hrun; destruct (Hm _ _ _ Hrun) as [Hs He].
  - intros [= <- <-]. split; [done|]. intros e' [= <-]. eauto.
  - intros Hrun'. destruct (Hf a _ _ _ Hrun') as [Hs' He']. split; [congruence|done].
Qed.

Lemma fails_safely_bind {A B} (m : M A) (f : A → M B) :
  keeps_saved m → (∀ a, fails_safely (f a)) → fails_safely (m ≫= f).
Proof.
  intros Hm Hf w e w'. unfold mbind, M_bind.
  destruct (m w) as [[e0|a] w1] eqn:Hrun; destruct (Hm _ _ _ Hrun) as [Hs He].
  - intros [= <- <-]. split; [done|]. eauto.
  - intros Hrun'. destruct (Hf a _ _ _ Hrun') as [Hs' He']. split; [congruence|done].
Qed.

Lemma keeps_saved_query_exec s b : keeps_saved (query_exec s b).
Proof.
  intros w r w'. unfold query_exec. destruct (exec_fails s).
  { intros [= <- <-]. split; [done|]. by intros e. }
  destruct (sql_exec _ _ _ _) as [e|[db' rows]]; intros [= <- <-]; (split; [done|by intros ?]).
Qed.

Lemma keeps_saved_exec s b : keeps_saved (exec_or_throw s b).
Proof.
  intros w r w'. rewrite exec_or_throw_run. destruct (exec_fails s).
  { intros [= <- <-]. split; [done|]. intros e [= <-]. eauto. }
  destruct (sql_exec _ _ _ _) as [e|[db' rows]]; intros [= <- <-]; (split; [done|]).
  - intros e' [= <-]. eauto.
  - by intros e.
Qed.

Lemma keeps_saved_prepare s : keeps_saved (prepare_or_throw s).
Proof.
  intros w r w'. rewrite prepare_or_throw_run. destruct (prepare_fails s).
  { intros [= <- <-]. split; [done|]. intros e [= <-]. eauto. }
  destruct (sql_prepare _ _); intros [= <- <-]; (split; [done|]).
  - intros e' [= <-]. eauto.
  - by intros e.
Qed.

Lemma fails_safely_commit : fails_safely commit_or_throw.
Proof.
  intros w e w'. unfold commit_or_throw, db_commit, mbind, M_bind.
  destruct (_ || _); [|done]. intros [= <- <-]. eauto.
Qed.

Lemma keeps_saved_add_column item : keeps_saved (add_column_if_missing item).
Proof.
  unfold add_column_if_missing. apply keeps_saved_bind; [apply keeps_saved_query_exec|].
  intros [e|rows]; [|apply keeps_saved_ret].
  apply keeps_saved_bind; [apply keeps_saved_exec|]. intros _. apply keeps_saved_ret.
Qed.

Lemma rollback_and_rethrow_inl {A} (body : M A) w e w' db :
  fails_safely body → w_saved w = Some db →
  rollback_and_rethrow body w = (inl e, w') →
  w_db w' = db ∧ w_events w' = w_events (body w).2 ∧ ∃ message, e = RuntimeError message.
Proof.
  intros Hbody Hsaved. unfold rollback_and_rethrow, try_catch.
  destruct (body w) as [[e0|a] w1] eqn:Hrun; [|done].
  destruct (Hbody _ _ _ Hrun) as (Hs & msg & ->).
  unfold mbind, M_bind, db_rollback. intros [= <- <-]. cbn [w_db w_events snd].
  rewrite Hs, Hsaved. eauto.
Qed.

Lemma transaction_or_throw_run w :
  transaction_or_throw w
  = if transaction_fails || bool_decide (is_Some (w_saved w))
    then (inl (RuntimeError (lastError_text DriverFailure)), w)
    else (inr tt, {| w_db := w_db w; w_saved := Some (w_db w); w_events := w_events w |}).
Proof.
  unfold transaction_or_throw, db_transaction, mbind, M_bind. by destruct (_ || _).
Qed.

(** When [createDB] throws, the tables and the indexes are those it
    found: what the statements of the failed transaction did is undone. *)
Lemma createDB_inl w e w' :
  createDB w = (inl e, w') →
  db_tables (w_db w') = db_tables (w_db w) ∧ db_indexes (w_db w') = db_indexes (w_db w)
  ∧ ∃ message, e = RuntimeError message.
Proof.
  unfold createDB. unfold mbind at 1, M_bind at 1.
  destruct (enableWALMode_caught w) as (w1 & -> & Htables & Hindexes & _).
  unfold mbind at 1, M_bind at 1. rewrite transaction_or_throw_run.
  destruct (transaction_fails || _); [intros [= <- <-]; eauto|].
  intros Hrun. apply rollback_and_rethrow_inl with (db := w_db w1) in Hrun as (-> & _ & He);
    [done| |done].
  repeat (apply fails_safely_bind;
          [first [apply keeps_saved_exec|apply keeps_saved_prepare]|intros ?]).
  apply fails_safely_commit.
Qed.

(** When [updateDB] throws, the store is as it was. *)
Lemma updateDB_inl fromVersion w e w' :
  updateDB fromVersion w = (inl e, w') →
  w_db w' = w_db w ∧ ∃ message, e = RuntimeError message.
Proof.
  unfold updateDB, locked. unfold mbind at 1, M_bind at 1, emit at 1.
  unfold mbind at 1, M_bind at 1. rewrite transaction_or_throw_run.
  destruct (transaction_fails || _); [intros [= <- <-]; eauto|].
  cbn [w_db w_saved w_events].
  destruct (rollback_and_rethrow _ _) as [[e0|a] w1] eqn:Hrun; [|done].
  intros [= <- <-]. cbn [emit snd w_db].
  apply rollback_and_rethrow_inl with (db := w_db w) in Hrun as (-> & _ & He); [done| |done].
  apply fails_safely_bind.
  { destruct (_ =? 1); [apply keeps_saved_add_column|apply keeps_saved_ret]. }
  intros _. apply fails_safely_bind.
  { destruct (_ <=? 2); [apply keeps_saved_add_column|apply keeps_saved_ret]. }
  intros _. apply fails_safely_bind.
  { destruct (_ <=? 3); [|apply keeps_saved_ret].
    apply keeps_saved_bind; [apply keeps_saved_exec|]. intros _. apply keeps_saved_ret. }
  intros _. apply fails_safely_bind; [apply keeps_saved_prepare|].
  intros _. apply fails_safely_bind; [apply keeps_saved_exec|].
  intros _. apply fails_safely_commit.
Qed.

Lemma currentDBVersion_db w r w' :
  currentDBVersion w = (r, w') →
  w_db w' = w_db w ∧ ∀ e, r = inl e → ∃ message, e = RuntimeError message.
Proof.
  unfold currentDBVersion. unfold mbind at 1, M_bind at 1. rewrite prepare_or_throw_run.
  destruct (prepare_fails _); [intros [= <- <-]; split; [done|]; intros ? [= <-]; eauto|].
  destruct (sql_prepare _ _); [intros [= <- <-]; split; [done|]; intros ? [= <-]; eauto|].
  unfold locked, mbind, M_bind, emit. rewrite exec_or_throw_run. cbn [w_db].
  destruct (exec_fails _); [intros [= <- <-]; split; [done|]; intros ? [= <-]; eauto|].
  unfold selectDBVersionStatement, sql_exec.
  destruct (exec_select _ _ _ _ _ _) as [e0|rows]; cbn [on_ok];
    [intros [= <- <-]; split; [done|]; intros ? [= <-]; eauto|].
  destruct rows as [|query rows]; [intros [= <- <-]; split; [done|]; intros ? [= <-]; eauto|].
  destruct (toInt_ok _); intros [= <- <-]; (split; [done|]); [by intros ?|].
  intros ? [= <-]; eauto.
Qed.

(** X17: [open] does all or nothing: when it throws, it throws a
    [RuntimeError], and the tables and indexes are those of the file (none
    for a file that did not exist); a file that existed is as it was. *)
Theorem open_failure_leaves_store file e w :
  open file = (inl e, w) →
  (∃ message, e = RuntimeError message)
  ∧ db_tables (w_db w) = db_tables (default empty_database file)
  ∧ db_indexes (w_db w) = db_indexes (default empty_database file)
  ∧ ∀ db, file = Some db → w_db w = db.
Proof.
  unfold open, DBResumeDataStorage. unfold mbind at 1, M_bind at 1, db_open.
  destruct open_fails.
  { intros [= <- <-]. split_and!; [eauto|done..|]. by intros db ->. }
  unfold mbind at 1, M_bind at 1.
  set (w0 := {| w_db := default empty_database file; w_saved := None; w_events := [] |}).
  destruct file as [db|].
  - rewrite bool_decide_eq_false_2 by done. unfold mbind at 1, M_bind at 1.
    assert (∀ r w1, currentDBVersion w0 = (r, w1) →
              w_db w1 = db ∧ ∀ e, r = inl e → ∃ message, e = RuntimeError message) as Hver
      by (intros r w1 Hrun; by apply currentDBVersion_db in Hrun).
    assert (∃ r w1, (if negb (record_contains (w_db w0) DB_TABLE_TORRENTS
                                (Column.name DB_COLUMN_DOWNLOAD_PATH))
                     then mret 1 else currentDBVersion) w0 = (r, w1)
                    ∧ w_db w1 = db
                    ∧ ∀ e, r = inl e → ∃ message, e = RuntimeError message)
      as (r & w1 & -> & Hdb & He).
    { destruct (negb _).
      - eexists _, _. split; [done|]. split; [done|]. by intros ?.
      - destruct (currentDBVersion w0) as [r w1] eqn:Hrun. exists r, w1.
        split; [done|]. by apply Hver. }
    destruct r as [e0|dbVersion].
    { intros [= <- <-]. split_and!; [by apply He|by rewrite Hdb..|]. by intros ? [= <-]. }
    destruct (dbVersion <? DB_VERSION).
    + destruct (updateDB dbVersion w1) as [[e0|[]] w2] eqn:Hrun; [|done].
      intros [= <- <-]. apply updateDB_inl in Hrun as [-> He'].
      split_and!; [done|by rewrite Hdb..|]. by intros ? [= <-].
    + done.
  - rewrite bool_decide_eq_true_2 by done.
    destruct (createDB w0) as [[e0|[]] w1] eqn:Hrun; [|done].
    intros [= <- <-]. apply createDB_inl in Hrun as (-> & -> & He).
    split_and!; done.
Qed.
End transactions.

(** *** The store [open] creates, and the one it migrates *)

Section created_and_migrated.
Context `{!Libtorrent, !Profile, !Driver}.

Lemma open_None_inr w :
  open None = (inr tt, w) →
  ∃ w1, createDB {| w_db := empty_database; w_saved := None; w_events := [] |} = (inr tt, w1)
        ∧ w = log w1 workerStarted.
Proof.
  unfold open, DBResumeDataStorage. intros Hrun.
  apply bind_inr in Hrun as ([] & w0 & Hopen & Hrun).
  assert (w0 = {| w_db := empty_database; w_saved := None; w_events := [] |})
    as -> by (unfold db_open in Hopen; destruct open_fails; by injection Hopen).
  apply bind_inr in Hrun as ([] & w1 & Hrun & Hw). injection Hw as <-.
  rewrite bool_decide_eq_true_2 in Hrun by done. by exists w1.
Qed.

(** X18: A store [open] has created holds the meta table with the version
    row and a torrents table with the declared columns and no record,
    indexed on the queue position; the listing of it is empty. *)
Theorem open_creates_empty_store w :
  open None = (inr tt, w) →
  db_tables (w_db w)
  = <[DB_TABLE_TORRENTS := torrents_created]> (<[DB_TABLE_META := meta_created]> ∅)
  ∧ db_indexes (w_db w)
    = {[ torrentsQueuePositionIndexName :=
           (DB_TABLE_TORRENTS, Column.name DB_COLUMN_QUEUE_POSITION) ]}
  ∧ store_ok (w_db w)
  ∧ (exec_fails selectTorrentIDStatement = false → (registeredTorrents w).1 = inr []).
Proof.
  intros (w1 & Hrun & ->)%open_None_inr. apply createDB_inr in Hrun as [Htables Hindexes];
    [|done].
  cbn [log w_db]. assert (torrents (w_db w1) = Some torrents_created) as Ht
    by (unfold torrents; by rewrite Htables, lookup_insert_eq).
  split_and!; [done|by rewrite Hindexes| |].
  - exists torrents_created. split; [done|apply torrents_created_ok].
  - intros He. by rewrite (registeredTorrents_run _ torrents_created).
Qed.

Lemma add_column_if_missing_added item w w' t :
  add_column_if_missing item w = (inr tt, w') →
  torrents (w_db w) = Some t → tbl_columns t !! item.1 = None →
  w_db w' = with_table (w_db w) DB_TABLE_TORRENTS
              {| tbl_columns := <[item.1 := item.2]> (tbl_columns t);
                 tbl_rows := (λ r : Row, <[item.1 := default Null (default_value item.2)]> r)
                               <$> tbl_rows t |}.
Proof.
  unfold add_column_if_missing. intros Hrun Ht Hc.
  apply bind_inr in Hrun as (tested & w1 & Htest & Hrun).
  unfold query_exec in Htest.
  assert (w1 = w ∧ ∃ e, tested = inl e) as [-> [e ->]].
  { destruct (exec_fails _); [injection Htest as <- <-; eauto|].
    unfold sql_exec in *. fold (torrents (w_db w)) in *. rewrite Ht in Htest.
    rewrite has_columns_singleton, Hc in Htest.
    rewrite bool_decide_eq_false_2 in Htest by (by intros []).
    injection Htest as <- <-. eauto. }
  apply bind_inr in Hrun as (rows & w2 & (db' & He & ->)%exec_or_throw_inr & Hrun).
  injection Hrun as <-. cbn [set_db w_db].
  unfold sql_exec, exec_alter_add in He. fold (torrents (w_db w)) in He. rewrite Ht in He.
  rewrite Hc in He. rewrite bool_decide_eq_false_2 in He by (by intros []).
  destruct (_ || _); [done|]. cbn [on_ok] in He. by injection He as <- _.
Qed.

(** X19: Opening a file as version 1 left it, with neither the download path
    nor the stop condition among its columns: when [open] returns, the
    two columns are there as declared, every record has kept the value of
    each column it had and holds NULL as download path and ["None"] as stop
    condition, and the queue position is indexed. *)
Theorem open_migrates_version_1 db w t :
  open (Some db) = (inr tt, w) → torrents db = Some t →
  tbl_columns t !! "download_path" = None → tbl_columns t !! "stop_condition" = None →
  torrents (w_db w)
  = Some {| tbl_columns :=
              <["stop_condition" := TEXT_NOT_NULL_DEFAULT "None"]>
                (<["download_path" := NULLABLE "TEXT"]> (tbl_columns t));
            tbl_rows :=
              (λ r : Row, <["stop_condition" := Text "None"]> (<["download_path" := Null]> r))
                <$> tbl_rows t |}
  ∧ is_Some (db_indexes (w_db w) !! torrentsQueuePositionIndexName).
Proof.
  unfold open, DBResumeDataStorage. intros Hrun Ht Hdl Hsc.
  apply bind_inr in Hrun as ([] & w0 & Hopen & Hrun).
  assert (w0 = {| w_db := db; w_saved := None; w_events := [] |})
    as -> by (unfold db_open in Hopen; destruct open_fails; by injection Hopen).
  apply bind_inr in Hrun as ([] & w1 & Hrun & Hw). injection Hw as <-. cbn [log w_db].
  rewrite bool_decide_eq_false_2 in Hrun by done.
  apply bind_inr in Hrun as (dbVersion & w2 & Hv & Hrun). cbn [w_db] in Hv.
  assert (record_contains db DB_TABLE_TORRENTS (Column.name DB_COLUMN_DOWNLOAD_PATH) = false)
    as Hmissing.
  { unfold record_contains. fold (torrents db). rewrite Ht.
    apply bool_decide_eq_false_2. change (Column.name DB_COLUMN_DOWNLOAD_PATH) with "download_path".
    rewrite Hdl. by intros []. }
  rewrite Hmissing in Hv. cbn [negb] in Hv. injection Hv as <- <-.
  change (1 <? DB_VERSION) with true in Hrun. cbv iota in Hrun.
  unfold updateDB in Hrun.
  apply locked_inr in Hrun as (w3 & Hrun & ->).
  apply bind_inr in Hrun as ([] & wt & Htr%transaction_or_throw_inr & Hrun).
  cbn [log w_db] in Htr.
  apply rollback_and_rethrow_inr in Hrun.
  change (1 =? 1) with true in Hrun. change (1 <=? 2) with true in Hrun.
  change (1 <=? 3) with true in Hrun. cbv iota in Hrun.
  apply bind_inr in Hrun as ([] & wa & Hs1 & Hrun).
  apply bind_inr in Hrun as ([] & wb & Hs2 & Hrun).
  apply bind_inr in Hrun as ([] & wc & Hs3 & Hrun).
  apply bind_inr in Hrun as ([] & wd & ->%prepare_or_throw_inr & Hrun).
  apply bind_inr in Hrun as (rows & we & (db5 & Hs5 & ->)%exec_or_throw_inr & Hrun).
  apply commit_or_throw_inr in Hrun. cbn [set_db w_db] in Hrun. cbn [log w_db].
  rewrite Hrun. clear Hrun.
  apply (add_column_if_missing_added _ _ _ t) in Hs1; [|by rewrite Htr|done].
  cbn [makeColumnDefinition fst snd Column.name DB_COLUMN_DOWNLOAD_PATH makeColumn
       NULLABLE default_value default from_option] in Hs1.
  eapply add_column_if_missing_added in Hs2;
    [|rewrite Hs1; apply torrents_with_table|
     cbn [tbl_columns makeColumnDefinition fst]; by rewrite lookup_insert_ne].
  cbn [makeColumnDefinition fst snd Column.name DB_COLUMN_STOP_CONDITION makeColumn
       TEXT_NOT_NULL_DEFAULT default_value default from_option tbl_columns tbl_rows] in Hs2.
  rewrite Hs1, with_table_twice, Htr in Hs2. rewrite <- list_fmap_compose in Hs2.
  apply bind_inr in Hs3 as (? & w3' & (db3 & Hs3 & ->)%exec_or_throw_inr & Hw).
  injection Hw as <-. cbn [set_db w_db] in Hs5.
  assert (torrents db3 = torrents (w_db wb) ∧ is_Some (db_indexes db3 !! torrentsQueuePositionIndexName))
    as [Ht3 Hi3].
  { unfold sql_exec in Hs3. unfold torrents.
    destruct (db_tables (w_db wb) !! DB_TABLE_TORRENTS) as [tb|] eqn:Htb; [|done].
    destruct (negb _); [done|].
    case_bool_decide as Hi; injection Hs3 as <- _; [by rewrite Htb|].
    cbn [db_tables db_indexes]. by rewrite Htb, lookup_insert_eq. }
  unfold makeUpdateStatement, sql_exec, exec_update in Hs5.
  destruct (db_tables db3 !! DB_TABLE_META) as [tm|] eqn:Hmeta; [|done].
  destruct (negb (has_columns tm _)); [done|]. destruct (_ && _); [|done].
  cbn [on_ok] in Hs5. injection Hs5 as <- _. split.
  - unfold torrents, with_table. cbn [db_tables]. rewrite lookup_insert_ne by done.
    fold (torrents db3). rewrite Ht3, Hs2. by rewrite torrents_with_table.
  - done.
Qed.
End created_and_migrated.

Section write_ahead_log.
Context `{!Libtorrent, !Profile, !Driver}.

(** X20: The write-ahead log is enabled on a best-effort basis: with a driver
    on which everything else works, [open] creates the store whether or
    not the journal mode can be set, and when it cannot, the only trace is
    one warning. *)
Theorem createDB_tolerates_missing_WAL :
  open_fails = false → transaction_fails = false → commit_fails = false →
  (∀ s, s ≠ PragmaJournalModeWAL → prepare_fails s = false ∧ exec_fails s = false) →
  ∃ w, open None = (inr tt, w)
    ∧ w_events w
      = (if exec_fails PragmaJournalModeWAL
         then [LogMsg (Couldnt_enable_WAL (lastError_text DriverFailure)) WARNING]
         else if wal_available then []
         else [LogMsg (Couldnt_enable_WAL WAL_mode_is_probably_unsupported) WARNING])
        ++ [workerStarted]
    ∧ db_wal (w_db w) = negb (exec_fails PragmaJournalModeWAL) && wal_available.
Proof.
  intros Hopen Htr Hcommit Hdrv.
  assert (∀ s, s ≠ PragmaJournalModeWAL → exec_fails s = false) as He
    by (intros s Hs; by apply Hdrv).
  assert (∀ s, s ≠ PragmaJournalModeWAL → prepare_fails s = false) as Hp
    by (intros s Hs; by apply Hdrv).
  unfold open, DBResumeDataStorage. rewrite bool_decide_eq_true_2 by done.
  unfold mbind at 1, M_bind at 1, db_open. rewrite Hopen.
  unfold mbind at 1, M_bind at 1. cbn [default from_option id].
  set (w0 := {| w_db := empty_database; w_saved := None; w_events := [] |}).
  unfold createDB. unfold mbind at 1, M_bind at 1.
  destruct (enableWALMode_caught w0) as (w1 & -> & Htables & Hindexes & Hsaved & Hwal).
  unfold mbind at 1, M_bind at 1. rewrite transaction_or_throw_run, Htr, Hsaved.
  cbn [w_saved w0 orb]. rewrite (bool_decide_eq_false_2 (is_Some None)) by apply is_Some_None.
  unfold rollback_and_rethrow, try_catch. cbv zeta.
  unfold makeCreateTableStatement, makeInsertStatement.
  unfold mbind at 1, M_bind at 1. rewrite exec_or_throw_run, He by done.
  unfold sql_exec at 1. cbn [w_db]. rewrite Htables. cbn [w_db w0 empty_database db_tables].
  rewrite lookup_empty, bool_decide_eq_false_2 by (by intros []).
  unfold mbind at 1, M_bind at 1. rewrite prepare_or_throw_run, Hp by done.
  unfold sql_prepare at 1. cbn [set_db w_db with_table db_tables].
  rewrite lookup_insert_eq.
  replace (has_columns _ _) with true by (by vm_compute).
  unfold mbind at 1, M_bind at 1. rewrite exec_or_throw_run, He by done.
  unfold sql_exec at 1. cbn [set_db w_db].
  rewrite insert_version_row
    by (unfold with_table; cbn [db_tables]; by rewrite lookup_insert_eq).
  cbn [on_ok].
  unfold mbind at 1, M_bind at 1. rewrite exec_or_throw_run, He by done.
  unfold sql_exec at 1. cbn [set_db w_db].
  rewrite bool_decide_eq_false_2.
  2:{ unfold with_table. cbn [db_tables].
      rewrite !lookup_insert_ne, Htables by done. by intros []. }
  unfold mbind at 1, M_bind at 1. rewrite exec_or_throw_run, He by done.
  unfold sql_exec at 1. cbn [set_db w_db]. unfold with_table at 1. cbn [db_tables].
  rewrite lookup_insert_eq.
  replace (has_columns _ _) with true by (by vm_compute). cbn [negb].
  rewrite bool_decide_eq_false_2.
  2:{ unfold with_table. cbn [db_indexes]. rewrite Hindexes. by intros []. }
  unfold commit_or_throw, db_commit, mbind, M_bind. rewrite Hcommit.
  cbn [set_db w_saved orb]. rewrite bool_decide_eq_false_2 by done.
  eexists. split; [done|]. cbn [emit snd w_events w_db db_wal with_table].
  destruct (exec_fails PragmaJournalModeWAL).
  - subst w1. cbn [log w_events w_db w0 app negb andb]. done.
  - destruct Hwal as [-> ->]. cbn [negb andb w0 w_db w_events empty_database db_wal app].
    split; [done|]. by destruct wal_available.
Qed.
End write_ahead_log.

(** *** Jobs see the tables only *)

Definition is_LogMsg (e : Event) : Prop :=
  match e with LogMsg _ _ => True | _ => False end.

(** A computation whose result, whose effect on the tables and whose
    messages depend on nothing but the store it starts from; it leaves the
    saved state alone and emits nothing but messages. *)
Definition db_only {A} (m : M A) : Prop :=
  ∀ w1 w2, w_db w1 = w_db w2 →
    (m w1).1 = (m w2).1 ∧ w_db (m w1).2 = w_db (m w2).2
    ∧ w_saved (m w1).2 = w_saved w1
    ∧ ∃ logs, Forall is_LogMsg logs
        ∧ w_events (m w1).2 = w_events w1 ++ logs
        ∧ w_events (m w2).2 = w_events w2 ++ logs.

Section db_only.
Context `{!Libtorrent, !Profile, !Driver}.

Lemma db_only_ret {A} (a : A) : db_only (mret a).
Proof.
  intros w1 w2 Hdb. unfold mret, M_ret. cbn [fst snd]. split_and!; [done..|].
  exists []. by rewrite !app_nil_r.
Qed.

Lemma db_only_throw {A} e : db_only (throw (A := A) e).
Proof.
  intros w1 w2 Hdb. unfold throw. cbn [fst snd]. split_and!; [done..|].
  exists []. by rewrite !app_nil_r.
Qed.

Lemma db_only_log message level : db_only (emit (LogMsg message level)).
Proof.
  intros w1 w2 Hdb. unfold emit. cbn [fst snd w_db w_saved w_events]. split_and!; [done..|].
  exists [LogMsg message level]. split; [by repeat constructor|done].
Qed.

Lemma db_only_bind {A B} (m : M A) (f : A → M B) :
  db_only m → (∀ a, db_only (f a)) → db_only (m ≫= f).
Proof.
  intros Hm Hf w1 w2 Hdb. destruct (Hm w1 w2 Hdb) as (Hr & Hdb' & Hs & logs & Hlogs & He1 & He2).
  unfold mbind, M_bind. destruct (m w1) as [r1 w1'], (m w2) as [r2 w2'].
  cbn [fst snd] in *. subst r2. destruct r1 as [e|a]; cbn [fst snd].
  { split_and!; [done..|]. by exists logs. }
  destruct (Hf a w1' w2' Hdb') as (Hr' & Hdb'' & Hs' & logs' & Hlogs' & He1' & He2').
  split_and!; [done|done|congruence|]. exists (logs ++ logs').
  split; [by apply Forall_app|]. rewrite He1', He2', He1, He2. by rewrite !app_assoc.
Qed.

Lemma db_only_try_catch {A} (body : M A) (handler : Message → M A) :
  db_only body → (∀ err, db_only (handler err)) → db_only (try_catch body handler).
Proof.
  intros Hm Hf w1 w2 Hdb. destruct (Hm w1 w2 Hdb) as (Hr & Hdb' & Hs & logs & Hlogs & He1 & He2).
  unfold try_catch. destruct (body w1) as [r1 w1'], (body w2) as [r2 w2'].
  cbn [fst snd] in *. subst r2. destruct r1 as [[err|]|a]; cbn [fst snd].
  2,3: split_and!; [done..|]; by exists logs.
  destruct (Hf err w1' w2' Hdb') as (Hr' & Hdb'' & Hs' & logs' & Hlogs' & He1' & He2').
  split_and!; [done|done|congruence|]. exists (logs ++ logs').
  split; [by apply Forall_app|]. rewrite He1', He2', He1, He2. by rewrite !app_assoc.
Qed.

Lemma db_only_exec s b : db_only (exec_or_throw s b).
Proof.
  intros w1 w2 Hdb. rewrite !exec_or_throw_run, Hdb.
  destruct (exec_fails s); cbn [fst snd].
  { split_and!; [done..|]. exists []. by rewrite !app_nil_r. }
  destruct (sql_exec _ _ _ _) as [e|[db' rows]]; cbn [fst snd set_db w_db w_saved w_events];
    (split_and!; [done..|]; exists []; by rewrite !app_nil_r).
Qed.

Lemma db_only_prepare s : db_only (prepare_or_throw s).
Proof.
  intros w1 w2 Hdb. rewrite !prepare_or_throw_run, Hdb.
  destruct (prepare_fails s); cbn [fst snd].
  { split_and!; [done..|]. exists []. by rewrite !app_nil_r. }
  destruct (sql_prepare _ _); cbn [fst snd];
    (split_and!; [done..|]; exists []; by rewrite !app_nil_r).
Qed.

Lemma db_only_loop queue pos : db_only (StoreQueueJob_loop queue pos).
Proof.
  revert pos. induction queue as [|id queue IH]; intros pos; cbn [StoreQueueJob_loop].
  - apply db_only_ret.
  - apply db_only_bind; [apply db_only_exec|]. intros _. apply IH.
Qed.

Lemma db_only_perform job : db_only (perform job).
Proof.
  destruct job as [id rd|id|queue]; cbn [perform].
  - assert (∀ columns data md, db_only (StoreJob_upsert id rd columns data md)) as Hup.
    { intros columns data md. unfold StoreJob_upsert.
      destruct (bencode _); [|apply db_only_throw].
      apply db_only_try_catch; [|intros err; apply db_only_log].
      apply db_only_bind; [apply db_only_prepare|]. intros _.
      apply db_only_bind; [apply db_only_exec|]. intros _. apply db_only_ret. }
    unfold StoreJob_perform. destruct (lt.ti _); [|apply Hup].
    destruct (extract_metadata _). destruct (bencode _); [apply Hup|apply db_only_log].
  - unfold RemoveJob_perform.
    apply db_only_try_catch; [|intros err; apply db_only_log].
    apply db_only_bind; [apply db_only_prepare|]. intros _.
    apply db_only_bind; [apply db_only_exec|]. intros _. apply db_only_ret.
  - unfold StoreQueueJob_perform.
    apply db_only_try_catch; [|intros err; apply db_only_log].
    apply db_only_bind; [apply db_only_prepare|]. intros _. apply db_only_loop.
Qed.

Lemma db_only_for_each jobs : db_only (for_each jobs perform).
Proof.
  induction jobs as [|job jobs IH]; cbn [for_each]; [apply db_only_ret|].
  apply db_only_bind; [apply db_only_perform|]. by intros _.
Qed.
End db_only.

Section worker_theorems.
Context `{!Libtorrent, !Profile, !Driver}.

Lemma keeps_saved_loop queue pos : keeps_saved (StoreQueueJob_loop queue pos).
Proof.
  revert pos. induction queue as [|id queue IH]; intros pos; cbn [StoreQueueJob_loop].
  - apply keeps_saved_ret.
  - apply keeps_saved_bind; [apply keeps_saved_exec|]. intros _. apply IH.
Qed.

Lemma try_catch_log_inr (body : M unit) (message : Message → Message) level w :
  keeps_saved body →
  (try_catch body (λ err, emit (LogMsg (message err) level)) w).1 = inr tt.
Proof.
  intros Hbody. unfold try_catch. destruct (body w) as [[e|[]] w1] eqn:Hrun; [|done].
  destruct (Hbody _ _ _ Hrun) as [_ He]. by destruct (He e eq_refl) as [msg ->].
Qed.

(** With encoders that do not throw, every job returns. *)
Lemma perform_inr job w :
  (∀ e, is_Some (bencode e)) → (perform job w).1 = inr tt.
Proof.
  intros Henc. destruct job as [id rd|id|queue]; cbn [perform].
  - assert (∀ columns data md, (StoreJob_upsert id rd columns data md w).1 = inr tt) as Hup.
    { intros columns data md. unfold StoreJob_upsert.
      destruct (Henc (lt.dictionary_t data)) as [b ->].
      apply (try_catch_log_inr _ (Couldnt_store_resume_data (TorrentID.toString id))).
      apply keeps_saved_bind; [apply keeps_saved_prepare|]. intros _.
      apply keeps_saved_bind; [apply keeps_saved_exec|]. intros _. apply keeps_saved_ret. }
    unfold StoreJob_perform. destruct (lt.ti _); [|apply Hup].
    destruct (extract_metadata _). by destruct (bencode _).
  - apply (try_catch_log_inr _ (Couldnt_delete_resume_data (TorrentID.toString id))).
    apply keeps_saved_bind; [apply keeps_saved_prepare|]. intros _.
    apply keeps_saved_bind; [apply keeps_saved_exec|]. intros _. apply keeps_saved_ret.
  - apply (try_catch_log_inr _ Couldnt_store_queue_positions).
    apply keeps_saved_bind; [apply keeps_saved_prepare|]. intros _. apply keeps_saved_loop.
Qed.

Lemma for_each_inr jobs w :
  (∀ e, is_Some (bencode e)) → (for_each jobs perform w).1 = inr tt.
Proof.
  intros Henc. revert w. induction jobs as [|job jobs IH]; intros w; cbn [for_each]; [done|].
  unfold mbind, M_bind. pose proof (perform_inr job w Henc) as Hjob.
  destruct (perform job w) as [[e|[]] w1]; [done|]. apply IH.
Qed.


Lemma Worker_commit_run n w :
  (0 < n)%nat →
  Worker_commit n w
  = (inr tt, {| w_db := w_db w;
                w_saved := if commit_fails then w_saved w else None;
                w_events := w_events w ++ [unlock] |}).
Proof.
  intros Hn. unfold Worker_commit. rewrite bool_decide_eq_true_2 by done.
  unfold mbind, M_bind, db_commit, emit. destruct commit_fails; [done|]. cbn [orb].
  case_bool_decide as Hs; [|done]. cbn [w_db w_saved w_events]. by rewrite Hs.
Qed.

Lemma run_bind {A B} (m : M A) (f : A → M B) w a w1 :
  m w = (inr a, w1) → (m ≫= f) w = f a w1.
Proof. intros Hrun. unfold mbind, M_bind. by rewrite Hrun. Qed.





(** X22: Jobs already queued when the worker enters its loop are performed
    before any lock is taken and outside any transaction: what they write
    is stored at once, so that the store holds it at the end of the run
    whether or not the commit that follows succeeds; the run emits their
    messages and then an unlock that no lock precedes. *)
Theorem Worker_run_queued_jobs_unlocked queued w :
  (∀ e, is_Some (bencode e)) → open_fails = false → w_saved w = None → queued ≠ [] →
  (Worker_run queued [] w).1 = inr tt
  ∧ (∀ n, committed (for_each (take n queued) perform w).2
          = w_db (for_each (take n queued) perform w).2)
  ∧ w_db (Worker_run queued [] w).2 = w_db (for_each queued perform w).2
  ∧ w_saved (Worker_run queued [] w).2 = None
  ∧ ∃ logs, Forall is_LogMsg logs
      ∧ w_events (for_each queued perform w).2 = w_events w ++ logs
      ∧ w_events (Worker_run queued [] w).2 = w_events w ++ logs ++ [unlock].
Proof.
  intros Henc Hopen Hsaved Hne. unfold Worker_run.
  assert (db_open w = (inr tt, w)) as Ho by (unfold db_open; by rewrite Hopen).
  destruct (db_only_for_each queued w w eq_refl) as (_ & _ & Hs & logs & Hlogs & He & _).
  pose proof (for_each_inr queued w Henc) as Hret.
  destruct (for_each queued perform w) as [[e|[]] w1] eqn:Hrun; [done|]. cbn [fst snd] in *.
  rewrite (run_bind _ _ _ _ _ Ho), (run_bind _ _ _ _ _ Hrun),
    (run_bind _ _ _ _ _ (Worker_commit_run (length queued) w1
                           ltac:(destruct queued; [done|cbn; lia]))).
  cbn [Worker_loop]. unfold mbind, M_bind, mret, M_ret, db_close.
  cbn [fst snd w_db w_saved w_events]. rewrite Hs, Hsaved.
  split_and!; [done| |by destruct commit_fails|done|].
  - intros n. unfold committed.
    destruct (db_only_for_each (take n queued) w w eq_refl) as (_ & _ & -> & _).
    by rewrite Hsaved.
  - exists logs. by rewrite He, <- app_assoc.
Qed.

End worker_theorems.

(** * Runs on the reference instances

    The statements above are instantiated on a store created by [open]
    with the bencode codec of [Reference] and a driver without faults. *)

#[local] Existing Instance Reference.libtorrent.
#[local] Existing Instance Reference.profile.
#[local] Existing Instance Reference.driver.

Definition example_info : lt.torrent_info :=
  {| lt.info_section := lt.dictionary_t [("name", lt.string_t "file")];
     lt.creation_date := 5; lt.creator := ""; lt.comment := "hi" |}.

Definition example_params (name : string) (ti : option lt.torrent_info) (flags : Z)
    (tags : gset string) (ratioLimit : float) : LoadTorrentParams.t :=
  {| LoadTorrentParams.ltAddTorrentParams :=
       {| lt.save_path := "/data"; lt.flags := flags; lt.ti := ti;
          lt.resume_state := [("pieces", lt.string_t "xx")] |};
     LoadTorrentParams.name := name;
     LoadTorrentParams.category := "films";
     LoadTorrentParams.tags := tags;
     LoadTorrentParams.savePath := "/save";
     LoadTorrentParams.downloadPath := "/incomplete";
     LoadTorrentParams.contentLayout := Subfolder;
     LoadTorrentParams.operatingMode := AutoManaged;
     LoadTorrentParams.useAutoTMM := false;
     LoadTorrentParams.firstLastPiecePriority := false;
     LoadTorrentParams.hasFinishedStatus := true;
     LoadTorrentParams.stopped := false;
     LoadTorrentParams.stopCondition := StopCondition.None;
     LoadTorrentParams.ratioLimit := ratioLimit;
     LoadTorrentParams.seedingTimeLimit := 7 |}.

Definition id_a : TorrentID.t := TorrentID.fromString "aa".
Definition id_b : TorrentID.t := TorrentID.fromString "bb".
Definition id_c : TorrentID.t := TorrentID.fromString "cc".

(** A descriptor with content metadata, and one without. *)
Definition with_metadata : LoadTorrentParams.t :=
  example_params "first" (Some example_info) 0 {[ "x"; "y" ]} 1.5.
Definition without_metadata : LoadTorrentParams.t :=
  example_params "second" None 0 ∅ 2.

Definition after (jobs : list Job) (w : World) : World :=
  foldl (λ w job, (perform job w).2) w jobs.

(** A store just created; the same with one record, at queue position 3;
    and with three records stored in the order [id_c], [id_a], [id_b]. *)
Definition created : World := (open None).2.
Definition one_record : World :=
  let w := after [StoreJob id_a with_metadata] created in
  set_db w (with_table (w_db w) DB_TABLE_TORRENTS
              (with_rows (default {| tbl_columns := ∅; tbl_rows := [] |} (torrents (w_db w)))
                         (reposition id_a 3 (from_option tbl_rows [] (torrents (w_db w)))))).
Definition three_records : World :=
  after [StoreJob id_c without_metadata; StoreJob id_a with_metadata;
         StoreJob id_b without_metadata] created.

Definition table_of (w : World) : Table :=
  default {| tbl_columns := ∅; tbl_rows := [] |} (torrents (w_db w)).

Definition row_of (w : World) (id : TorrentID.t) : Row := default ∅ (find_row (w_db w) id).

(** Closed equations are checked by evaluation. *)
Ltac evaluated :=
  lazymatch goal with
  | |- ?x = ?y => exact (@eq_refl _ y <: x = y)
  end.

Lemma table_ok_computed t :
  tbl_columns t = torrents_schema → unique_ok t (tbl_rows t) = true →
  forallb (not_null_ok t) (tbl_rows t) = true → table_ok t.
Proof.
  intros Hs Hu Hn. split; [done..|]. apply Forall_forall. intros r Hr.
  rewrite forallb_forall in Hn. by apply Hn, list_elem_of_In.
Qed.

Lemma one_record_table : torrents (w_db one_record) = Some (table_of one_record).
Proof. evaluated. Qed.

Lemma one_record_ok : table_ok (table_of one_record).
Proof. apply table_ok_computed; evaluated. Qed.

Lemma three_records_table : torrents (w_db three_records) = Some (table_of three_records).
Proof. evaluated. Qed.

Lemma three_records_ok : table_ok (table_of three_records).
Proof. apply table_ok_computed; evaluated. Qed.

Lemma reference_driver_ok s : driver_ok s.
Proof. done. Qed.

(** The resume blob a store job encodes for a descriptor. *)
Definition blob_of (rd : LoadTorrentParams.t) : string :=
  default "" (fst <$> encoded_blobs rd).

(** C1: a second store job on [id_a], now without metadata. *)
Lemma store_job_overwrites_listed_columns_witness :
  ∃ row',
    find_row (w_db (perform (StoreJob id_a without_metadata) one_record).2) id_a = Some row'
    ∧ Forall (λ cv, value row' cv.1 = cv.2)
             (StoreJob_values id_a without_metadata (blob_of without_metadata))
    ∧ value row' "metadata"
      = metadata_after None (value (row_of one_record id_a) "metadata")
    ∧ value row' "id" = value (row_of one_record id_a) "id"
    ∧ value row' "queue_position" = value (row_of one_record id_a) "queue_position".
Proof.
  apply (store_job_overwrites_listed_columns id_a without_metadata one_record
           (table_of one_record) (row_of one_record id_a));
    [apply one_record_table|apply one_record_ok|evaluated|apply reference_driver_ok|
     evaluated].
Defined.

(** The claim reads the upsert as a full replace; the metadata and the
    queue position of the row are still those it had. *)
Lemma store_job_keeps_unlisted_columns :
  lt.ti (LoadTorrentParams.ltAddTorrentParams without_metadata) = None
  ∧ ∃ row',
      find_row (w_db (perform (StoreJob id_a without_metadata) one_record).2) id_a
      = Some row'
      ∧ value row' "name" = Text "second"
      ∧ value row' "metadata"
        = Blob "d7:comment2:hi13:creation datei5e4:infod4:name4:fileee"
      ∧ value row' "queue_position" = Int 3.
Proof.
  split; [done|].
  exists (row_of (perform (StoreJob id_a without_metadata) one_record).2 id_a).
  split_and!; evaluated.
Qed.

(** C2 *)
Lemma load_not_found_iff_no_row_witness :
  ((load id_b one_record).1
   = inr (inl (Couldnt_load_resume_data (TorrentID.toString id_b) Not_found))
   ↔ find_row (w_db one_record) id_b = None)
  ∧ (∀ query, find_row (w_db one_record) id_b = Some query →
       (load id_b one_record).1 = inr (inr (parseQueryResultRow query))).
Proof.
  apply (load_not_found_iff_no_row id_b one_record (table_of one_record));
    [apply one_record_table|apply one_record_ok|apply reference_driver_ok].
Defined.

(** The same store with the resume blob of its record overwritten by
    bytes that are not bencoded. *)
Definition corrupted : World :=
  set_db one_record
    (with_table (w_db one_record) DB_TABLE_TORRENTS
       (with_rows (table_of one_record)
          ((λ r : Row, <["libtorrent_resume_data" := Blob "garbage"]> r)
             <$> tbl_rows (table_of one_record)))).

(** The decoder reports an error for the blob, and [load] returns a
    record all the same. *)
Lemma load_ignores_decoding_errors :
  value (row_of corrupted id_a) "libtorrent_resume_data" = Blob "garbage"
  ∧ (bdecode "garbage").2 = true
  ∧ (load id_a corrupted).1 = inr (inr (parseQueryResultRow (row_of corrupted id_a))).
Proof. split_and!; evaluated. Qed.

(** C3: the finish signal is observed with the lock released. *)
Lemma loadFinished_after_unlock :
  w_events (doLoadAll created).2
  = w_events created ++ [lockForRead; loadStarted []; unlock; loadFinished]
  ∧ last (under_lock false (w_events (doLoadAll one_record).2)) = Some (loadFinished, false).
Proof. split; evaluated. Qed.

(** A file as version 1 left it: no download path, no stop condition, no
    index, one record. *)
Definition version1_file : Database :=
  {| db_tables :=
       {[ DB_TABLE_META :=
            {| tbl_columns := list_to_map tableMetaItems;
               tbl_rows := [ {[ "id" := Int 1; "name" := Text META_VERSION;
                                "value" := Int 1 ]} ] |};
          DB_TABLE_TORRENTS :=
            {| tbl_columns := delete "download_path" (delete "stop_condition" torrents_schema);
               tbl_rows := [ delete "download_path"
                               (delete "stop_condition" (row_of one_record id_a)) ] |} ]};
     db_indexes := ∅;
     db_wal := false |}.

(** C4 *)
Lemma open_establishes_version_witness :
  ∃ dbVersion, detected_version version1_file = Some dbVersion
    ∧ if dbVersion <? DB_VERSION
      then stored_version (w_db (open (Some version1_file)).2)
           = (if bool_decide (meta_rows version1_file = []) then None else Some DB_VERSION)
           ∧ (dbVersion = 1 →
              record_contains (w_db (open (Some version1_file)).2) DB_TABLE_TORRENTS
                              (Column.name DB_COLUMN_DOWNLOAD_PATH) = true)
      else w_db (open (Some version1_file)).2 = version1_file.
Proof.
  apply (open_establishes_version (Some version1_file) (open (Some version1_file)).2).
  evaluated.
Defined.

(** The store [open] created, marked as written by a later version. *)
Definition version5_file : Database :=
  with_table (w_db created) DB_TABLE_META
    {| tbl_columns := list_to_map tableMetaItems;
       tbl_rows := [ {[ "id" := Int 1; "name" := Text META_VERSION; "value" := Int 5 ]} ] |}.

(** [open] returns on it and the stored version is not [DB_VERSION]. *)
Lemma open_keeps_later_version :
  (open (Some version5_file)).1 = inr tt
  ∧ stored_version (w_db (open (Some version5_file)).2) = Some 5.
Proof. split; evaluated. Qed.

(** A record whose resume data has the legacy flag. *)
Definition legacy_record : World :=
  after [StoreJob id_a (example_params "legacy" None lt.torrent_flags.stop_when_ready ∅ 1.5)]
        created.

(** C5 *)
Lemma load_replaces_stop_when_ready_witness :
  let decoded :=
    (read_resume_data
       (bdecode (toByteArray (value (row_of legacy_record id_a)
                                    (Column.name DB_COLUMN_RESUMEDATA)))).1).1 in
  has_flag (lt.flags decoded) lt.torrent_flags.stop_when_ready = true
  ∧ ∃ resumeData, (load id_a legacy_record).1 = inr (inr resumeData)
      ∧ has_flag (lt.flags (LoadTorrentParams.ltAddTorrentParams resumeData))
                 lt.torrent_flags.stop_when_ready = false
      ∧ (∀ n, 0 <= n → n ≠ 10 →
           Z.testbit (lt.flags (LoadTorrentParams.ltAddTorrentParams resumeData)) n
           = Z.testbit (lt.flags decoded) n)
      ∧ LoadTorrentParams.stopCondition resumeData = StopCondition.FilesChecked.
Proof.
  intros decoded.
  assert (has_flag (lt.flags decoded) lt.torrent_flags.stop_when_ready = true) as Hflag
    by evaluated.
  split; [exact Hflag|].
  apply (load_replaces_stop_when_ready id_a legacy_record (table_of legacy_record)
           (row_of legacy_record id_a));
    [evaluated|evaluated|apply reference_driver_ok|evaluated|exact Hflag].
Defined.

(** C6 *)
Lemma store_job_normalizes_flags_witness :
  let p := StoreJob_params with_metadata in
  (∃ row', find_row (w_db (perform (StoreJob id_a with_metadata) one_record).2) id_a
           = Some row'
           ∧ value row' "libtorrent_resume_data" = Blob (blob_of with_metadata))
  ∧ bencode (lt.dictionary_t (resume_part p)) = Some (blob_of with_metadata)
  ∧ if LoadTorrentParams.stopped with_metadata
    then has_flag (lt.flags p) lt.torrent_flags.paused = true
         ∧ has_flag (lt.flags p) lt.torrent_flags.auto_managed = false
    else if bool_decide (LoadTorrentParams.operatingMode with_metadata = AutoManaged)
    then has_flag (lt.flags p) lt.torrent_flags.auto_managed = true
    else has_flag (lt.flags p) lt.torrent_flags.paused = false
         ∧ has_flag (lt.flags p) lt.torrent_flags.auto_managed = false.
Proof.
  apply (store_job_normalizes_flags id_a with_metadata one_record (table_of one_record)
           (blob_of with_metadata)
           (Some "d7:comment2:hi13:creation datei5e4:infod4:name4:fileee"));
    [apply one_record_table|apply one_record_ok|apply reference_driver_ok|evaluated].
Defined.

Lemma three_records_rows : holds_exactly (table_of three_records) [id_a; id_b; id_c].
Proof.
  unfold holds_exactly.
  assert ((λ r : Row, value r "torrent_id") <$> tbl_rows (table_of three_records)
          = [Text "cc"; Text "aa"; Text "bb"]) as -> by evaluated.
  apply (Permutation_cons_append [Text "aa"; Text "bb"] (Text "cc")).
Qed.

(** C7: the records were stored in the order [id_c], [id_a], [id_b]. *)
Lemma reorder_then_list_witness :
  (∃ ra rb rc,
     find_row (w_db (perform (StoreQueueJob [id_a; id_b; id_c]) three_records).2) id_a
     = Some ra
     ∧ value ra "queue_position" = Int 0
     ∧ find_row (w_db (perform (StoreQueueJob [id_a; id_b; id_c]) three_records).2) id_b
       = Some rb
     ∧ value rb "queue_position" = Int 1
     ∧ find_row (w_db (perform (StoreQueueJob [id_a; id_b; id_c]) three_records).2) id_c
       = Some rc
     ∧ value rc "queue_position" = Int 2)
  ∧ (registeredTorrents (perform (StoreQueueJob [id_a; id_b; id_c]) three_records).2).1
    = inr [id_a; id_b; id_c].
Proof.
  apply (reorder_then_list id_a id_b id_c three_records (table_of three_records));
    [apply three_records_table|apply three_records_ok|apply three_records_rows|
     apply reference_driver_ok|apply reference_driver_ok].
Defined.



#[local] Set Warnings "-inexact-float".


(** C9 *)
Lemma queue_position_written_only_by_reorder_witness :
  (∀ id r', find_row (w_db (perform (StoreJob id_b without_metadata) one_record).2) id
            = Some r' →
     value r' "queue_position" =
       match find_row (w_db one_record) id with
       | Some r => value r "queue_position"
       | None => Int (-1)
       end)
  ∧ (∀ id rd b md, StoreJob id_b without_metadata = StoreJob id rd →
       driver_ok (store_statement (stored_names rd)) →
       encoded_blobs rd = Some (b, md) →
       is_Some (find_row (w_db (perform (StoreJob id_b without_metadata) one_record).2) id)).
Proof.
  apply (queue_position_written_only_by_reorder (StoreJob id_b without_metadata) one_record
           (table_of one_record));
    [apply one_record_table|apply one_record_ok|done].
Defined.

(** A descriptor with the two tags ["x"] and ["y"]. *)
Lemma tags_round_trip_witness :
  let tags := LoadTorrentParams.tags with_metadata in
  ∃ row' resumeData,
    find_row (w_db (perform (StoreJob id_b with_metadata) one_record).2) id_b = Some row'
    ∧ (load id_b (perform (StoreJob id_b with_metadata) one_record).2).1
      = inr (inr resumeData)
    ∧ ((∀ tag, tag ∈ tags → contains "," tag = false) → tags ≠ {[ "" ]} →
         LoadTorrentParams.tags resumeData = tags)
    ∧ (tags = ∅ → value row' "tags" = Null ∧ LoadTorrentParams.tags resumeData = ∅)
    ∧ (tags = {[ "" ]} →
         value row' "tags" = Text "" ∧ LoadTorrentParams.tags resumeData = ∅)
    ∧ (tags = {[ "a,b" ]} → LoadTorrentParams.tags resumeData = {[ "a"; "b" ]}).
Proof.
  apply (tags_round_trip id_b with_metadata one_record (table_of one_record)
           (blob_of with_metadata)
           (Some "d7:comment2:hi13:creation datei5e4:infod4:name4:fileee"));
    [apply one_record_table|apply one_record_ok|apply reference_driver_ok|
     apply reference_driver_ok|evaluated].
Defined.

(** A descriptor whose only tag is the empty one: no tag has a comma,
    and the tag set does not come back. *)
Lemma empty_tag_is_lost :
  let rd := example_params "untagged" None 0 {[ "" ]} 1.5 in
  (∀ tag, tag ∈ LoadTorrentParams.tags rd → contains "," tag = false)
  ∧ ∃ resumeData,
      (load id_b (perform (StoreJob id_b rd) one_record).2).1 = inr (inr resumeData)
      ∧ LoadTorrentParams.tags resumeData = ∅
      ∧ LoadTorrentParams.tags resumeData ≠ LoadTorrentParams.tags rd.
Proof.
  intros rd. split.
  - intros tag Htag. change (tag ∈ ({[ "" ]} : gset string)) in Htag.
    by apply elem_of_singleton in Htag as ->.
  - exists (parseQueryResultRow (row_of (perform (StoreJob id_b rd) one_record).2 id_b)).
    assert (LoadTorrentParams.tags
              (parseQueryResultRow (row_of (perform (StoreJob id_b rd) one_record).2 id_b))
            = ∅) as Htags by evaluated.
    split_and!; [evaluated|exact Htags|]. rewrite Htags.
    change (LoadTorrentParams.tags rd) with ({[ "" ]} : gset string).
    apply not_eq_sym, non_empty_singleton_L.
Qed.

(** ** Runs for the further properties *)

Lemma one_record_store_ok : store_ok (w_db one_record).
Proof. exists (table_of one_record). split; [apply one_record_table|apply one_record_ok]. Qed.

Lemma three_records_store_ok : store_ok (w_db three_records).
Proof.
  exists (table_of three_records). split; [apply three_records_table|apply three_records_ok].
Qed.

Lemma reference_encoder_ok e : is_Some (bencode e).
Proof. by eexists. Qed.

(** The three records after a reorder job that lists them all. *)
Definition queued_records : World := after [StoreQueueJob [id_a; id_b; id_c]] three_records.

Lemma queued_records_table : torrents (w_db queued_records) = Some (table_of queued_records).
Proof. evaluated. Qed.

Lemma queued_records_ok : table_ok (table_of queued_records).
Proof. apply table_ok_computed; evaluated. Qed.

(** X1 *)
Lemma jobs_keep_store_ok_witness :
  store_ok (w_db (perform (StoreQueueJob [id_b; id_a]) three_records).2).
Proof.
  apply (jobs_keep_store_ok (StoreQueueJob [id_b; id_a]) three_records).
  apply three_records_store_ok.
Defined.

(** X2 *)
Lemma store_job_leaves_other_records_witness :
  find_row (w_db (perform (StoreJob id_b without_metadata) three_records).2) id_a
  = find_row (w_db three_records) id_a.
Proof.
  apply (store_job_leaves_other_records id_b without_metadata three_records id_a);
    [apply three_records_store_ok|done].
Defined.

(** X3 *)
Lemma remove_job_deletes_one_record_witness :
  let w' := (perform (RemoveJob id_a) three_records).2 in
  find_row (w_db w') id_a = None
  ∧ (∀ id', id' ≠ id_a → find_row (w_db w') id' = find_row (w_db three_records) id')
  ∧ w_events w' = w_events three_records
  ∧ (load id_a w').1
    = inr (inl (Couldnt_load_resume_data (TorrentID.toString id_a) Not_found)).
Proof.
  apply (remove_job_deletes_one_record id_a three_records);
    [apply three_records_store_ok|apply reference_driver_ok|apply reference_driver_ok].
Defined.

(** X4 *)
Lemma store_then_remove_witness :
  w_db (perform (RemoveJob id_b) (perform (StoreJob id_b without_metadata) one_record).2).2
  = w_db one_record.
Proof.
  apply (store_then_remove id_b without_metadata one_record (blob_of without_metadata) None);
    [apply one_record_store_ok|evaluated|apply reference_driver_ok|
     apply reference_driver_ok|evaluated].
Defined.

(** X8 *)
Lemma store_then_load_fields_witness :
  ∃ resumeData,
    (load id_b (perform (StoreJob id_b with_metadata) one_record).2).1 = inr (inr resumeData)
    ∧ LoadTorrentParams.name resumeData = LoadTorrentParams.name with_metadata
    ∧ LoadTorrentParams.category resumeData = LoadTorrentParams.category with_metadata
    ∧ LoadTorrentParams.firstLastPiecePriority resumeData
      = LoadTorrentParams.firstLastPiecePriority with_metadata
    ∧ LoadTorrentParams.hasFinishedStatus resumeData
      = LoadTorrentParams.hasFinishedStatus with_metadata
    ∧ LoadTorrentParams.stopped resumeData = LoadTorrentParams.stopped with_metadata
    ∧ LoadTorrentParams.seedingTimeLimit resumeData
      = LoadTorrentParams.seedingTimeLimit with_metadata.
Proof.
  apply (store_then_load_fields id_b with_metadata one_record (blob_of with_metadata)
           (Some "d7:comment2:hi13:creation datei5e4:infod4:name4:fileee"));
    [apply one_record_store_ok|apply reference_driver_ok|apply reference_driver_ok|
     evaluated|done].
Defined.

(** X9 *)
Lemma store_then_load_paths_witness :
  ∃ resumeData,
    (load id_b (perform (StoreJob id_b with_metadata) one_record).2).1 = inr (inr resumeData)
    ∧ if LoadTorrentParams.useAutoTMM with_metadata
         || bool_decide (LoadTorrentParams.savePath with_metadata = "")
      then LoadTorrentParams.useAutoTMM resumeData = true
           ∧ LoadTorrentParams.savePath resumeData = ""
           ∧ LoadTorrentParams.downloadPath resumeData = ""
      else LoadTorrentParams.useAutoTMM resumeData = false
           ∧ LoadTorrentParams.savePath resumeData = LoadTorrentParams.savePath with_metadata
           ∧ LoadTorrentParams.downloadPath resumeData
             = LoadTorrentParams.downloadPath with_metadata.
Proof.
  apply (store_then_load_paths id_b with_metadata one_record (blob_of with_metadata)
           (Some "d7:comment2:hi13:creation datei5e4:infod4:name4:fileee"));
    [apply one_record_store_ok|apply reference_driver_ok|apply reference_driver_ok|
     evaluated|done|done].
Defined.

(** X10 *)
Lemma reorder_job_changes_positions_only_witness :
  match find_row (w_db three_records) id_c with
  | Some r =>
      ∃ r', find_row (w_db (perform (StoreQueueJob [id_b; id_a]) three_records).2) id_c
            = Some r'
        ∧ (∀ c, c ≠ "queue_position" → value r' c = value r c)
        ∧ (id_c ∉ [id_b; id_a] → r' = r)
  | None => find_row (w_db (perform (StoreQueueJob [id_b; id_a]) three_records).2) id_c = None
  end.
Proof.
  apply (reorder_job_changes_positions_only [id_b; id_a] three_records id_c).
  apply three_records_store_ok.
Defined.

(** X11 *)
Lemma reorder_job_sets_positions_witness :
  ∃ r', find_row (w_db (perform (StoreQueueJob [id_b; id_a]) three_records).2) id_a = Some r'
    ∧ value r' "queue_position" = Int (Z.of_nat 1).
Proof.
  apply (reorder_job_sets_positions [id_b; id_a] three_records 1 id_a
           (row_of three_records id_a));
    [apply three_records_store_ok|apply reference_driver_ok|compute_done|done|evaluated].
Defined.

Lemma three_records_rows_rotated : holds_exactly (table_of three_records) [id_b; id_c; id_a].
Proof.
  unfold holds_exactly.
  assert ((λ r : Row, value r "torrent_id") <$> tbl_rows (table_of three_records)
          = [Text "cc"; Text "aa"; Text "bb"]) as -> by evaluated.
  etrans; [apply (Permutation_cons_append [Text "aa"; Text "bb"] (Text "cc"))|].
  apply (Permutation_cons_append [Text "bb"; Text "cc"] (Text "aa")).
Qed.

(** X12 *)
Lemma reorder_then_list_any_queue_witness :
  (registeredTorrents (perform (StoreQueueJob [id_b; id_c; id_a]) three_records).2).1
  = inr [id_b; id_c; id_a].
Proof.
  apply (reorder_then_list_any_queue [id_b; id_c; id_a] three_records
           (table_of three_records));
    [apply three_records_table|apply three_records_ok|apply three_records_rows_rotated|
     apply reference_driver_ok|apply reference_driver_ok].
Defined.

Lemma queued_records_positions :
  Forall (λ r : Row, ∃ pos, value r "queue_position" = Int pos)
         (tbl_rows (table_of queued_records)).
Proof.
  assert ((λ r : Row, value r "queue_position") <$> tbl_rows (table_of queued_records)
          = [Int 2; Int 0; Int 1]) as Hrows by evaluated.
  assert (Forall (λ v, ∃ pos, v = Int pos)
            ((λ r : Row, value r "queue_position") <$> tbl_rows (table_of queued_records)))
    as Hall by (rewrite Hrows; repeat constructor; by eexists).
  apply Forall_forall. intros r Hr. apply (proj1 (Forall_forall _ _) Hall).
  by apply (list_elem_of_fmap_2 (λ r : Row, value r "queue_position")).
Qed.

(** X13 *)
Lemma registeredTorrents_lists_by_position_witness :
  ∃ rows, registeredTorrents queued_records = (inr (row_id <$> rows), queued_records)
    ∧ rows ≡ₚ tbl_rows (table_of queued_records)
    ∧ StronglySorted (λ a b, rowid "queue_position" a <= rowid "queue_position" b) rows.
Proof.
  apply (registeredTorrents_lists_by_position queued_records (table_of queued_records));
    [apply queued_records_table|apply queued_records_ok|done|apply queued_records_positions].
Defined.

(** A resume dictionary with two of the metadata keys. *)
Definition example_dictionary : lt.dictionary_type :=
  [("comment", lt.string_t "hi"); ("info", lt.dictionary_t [("name", lt.string_t "file")]);
   ("pieces", lt.string_t "xx"); ("save_path", lt.string_t "/data")].

(** X14 *)
Lemma extract_metadata_partitions_witness :
  let kv := ("pieces", lt.string_t "xx") in
  (kv ∈ (extract_metadata example_dictionary).1
   ↔ kv ∈ example_dictionary ∧ kv.1 ∈ metadata_keys)
  ∧ (kv ∈ (extract_metadata example_dictionary).2
     ↔ kv ∈ example_dictionary ∧ kv.1 ∉ metadata_keys).
Proof.
  apply (extract_metadata_partitions example_dictionary ("pieces", lt.string_t "xx")).
  compute_done.
Defined.

Lemma three_records_ids :
  Forall (λ r : Row, ∃ s, value r "torrent_id" = Text s) (tbl_rows (table_of three_records)).
Proof.
  assert ((λ r : Row, value r "torrent_id") <$> tbl_rows (table_of three_records)
          = [Text "cc"; Text "aa"; Text "bb"]) as Hrows by evaluated.
  assert (Forall (λ v, ∃ s, v = Text s)
            ((λ r : Row, value r "torrent_id") <$> tbl_rows (table_of three_records)))
    as Hall by (rewrite Hrows; repeat constructor; by eexists).
  apply Forall_forall. intros r Hr. apply (proj1 (Forall_forall _ _) Hall).
  by apply (list_elem_of_fmap_2 (λ r : Row, value r "torrent_id")).
Qed.

(** X15 *)
Lemma doLoadAll_reports_each_record_witness :
  ∃ ids records,
    registeredTorrents three_records = (inr ids, three_records)
    ∧ doLoadAll three_records
      = (inr tt, emits three_records
                   ([lockForRead; loadStarted ids] ++ records ++ [unlock; loadFinished]))
    ∧ Forall2 (λ id signal, ∃ resumeData,
                 (load id three_records).1 = inr (inr resumeData)
                 ∧ signal = onResumeDataLoaded id (inr resumeData)) ids records.
Proof.
  apply (doLoadAll_reports_each_record three_records (table_of three_records));
    [apply three_records_table|apply three_records_ok|apply three_records_ids|done|done|done|
     apply reference_driver_ok].
Defined.

(** X16 *)
Lemma currentDBVersion_reads_stored_version_witness :
  currentDBVersion created
  = (match stored_version (w_db created) with
     | Some dbVersion => inr dbVersion
     | None => inl (RuntimeError Database_is_corrupted)
     end, log (log created lockForRead) unlock).
Proof.
  apply (currentDBVersion_reads_stored_version created meta_created);
    [evaluated|compute_done|compute_done|apply reference_driver_ok].
Defined.

(** X18 *)
Lemma open_creates_empty_store_witness :
  db_tables (w_db created)
  = <[DB_TABLE_TORRENTS := torrents_created]> (<[DB_TABLE_META := meta_created]> ∅)
  ∧ db_indexes (w_db created)
    = {[ torrentsQueuePositionIndexName :=
           (DB_TABLE_TORRENTS, Column.name DB_COLUMN_QUEUE_POSITION) ]}
  ∧ store_ok (w_db created)
  ∧ (exec_fails selectTorrentIDStatement = false → (registeredTorrents created).1 = inr []).
Proof. apply (open_creates_empty_store created). evaluated. Defined.

(** X19 *)
Lemma open_migrates_version_1_witness :
  let t := default {| tbl_columns := ∅; tbl_rows := [] |} (torrents version1_file) in
  torrents (w_db (open (Some version1_file)).2)
  = Some {| tbl_columns :=
              <["stop_condition" := TEXT_NOT_NULL_DEFAULT "None"]>
                (<["download_path" := NULLABLE "TEXT"]> (tbl_columns t));
            tbl_rows :=
              (λ r : Row, <["stop_condition" := Text "None"]> (<["download_path" := Null]> r))
                <$> tbl_rows t |}
  ∧ is_Some (db_indexes (w_db (open (Some version1_file)).2)
               !! torrentsQueuePositionIndexName).
Proof.
  intros t.
  apply (open_migrates_version_1 version1_file (open (Some version1_file)).2 t); evaluated.
Defined.


(** *** Runs with a driver or an encoder that fails *)

(** A driver that prepares no statement. *)
Definition refusing_driver : Driver := {|
  open_fails := false; transaction_fails := false; commit_fails := false;
  prepare_fails := λ _, true; exec_fails := λ _, false; wal_available := true
|}.

(** A driver on a file system without shared memory: the journal mode
    stays what it was. *)
Definition driver_without_WAL : Driver := {|
  open_fails := false; transaction_fails := false; commit_fails := false;
  prepare_fails := λ _, false; exec_fails := λ _, false; wal_available := false
|}.

(** A driver that cannot commit. *)
Definition driver_without_commit : Driver := {|
  open_fails := false; transaction_fails := false; commit_fails := true;
  prepare_fails := λ _, false; exec_fails := λ _, false; wal_available := true
|}.



Section refusing_driver.
#[local] Existing Instance refusing_driver.

(** X5 *)
Lemma load_returns_witness :
  load id_a one_record
  = (inr (if prepare_fails selectTorrentStatement || exec_fails selectTorrentStatement
          then inl (Couldnt_load_resume_data (TorrentID.toString id_a)
                      (lastError_text DriverFailure))
          else match find_row (w_db one_record) id_a with
               | None => inl (Couldnt_load_resume_data (TorrentID.toString id_a) Not_found)
               | Some query => inr (parseQueryResultRow query)
               end), one_record).
Proof. apply (load_returns id_a one_record), one_record_store_ok. Defined.

#[local] Existing Instance refusing_driver.

(** X6 *)
Lemma refused_job_is_logged_witness :
  ∃ message,
    perform (StoreJob id_b with_metadata) one_record
    = (inr tt, log one_record (LogMsg message CRITICAL)).
Proof.
  apply (refused_job_is_logged (StoreJob id_b with_metadata) one_record);
    [apply one_record_store_ok| |done].
  intros id rd [= <- <-].
  exists (blob_of with_metadata,
          Some "d7:comment2:hi13:creation datei5e4:infod4:name4:fileee").
  evaluated.
Defined.
End refusing_driver.



Section driver_without_commit.
#[local] Existing Instance driver_without_commit.

(** X17 *)
Lemma open_failure_leaves_store_witness :
  let w := (open (Some version1_file)).2 in
  (∃ message, RuntimeError (lastError_text DriverFailure) = RuntimeError message)
  ∧ db_tables (w_db w) = db_tables (default empty_database (Some version1_file))
  ∧ db_indexes (w_db w) = db_indexes (default empty_database (Some version1_file))
  ∧ ∀ db, Some version1_file = Some db → w_db w = db.
Proof.
  intros w.
  apply (open_failure_leaves_store (Some version1_file)
           (RuntimeError (lastError_text DriverFailure)) w).
  evaluated.
Defined.

(** X22 *)
Lemma Worker_run_queued_jobs_unlocked_witness :
  let queued := [StoreJob id_a with_metadata; StoreJob id_b without_metadata] in
  (Worker_run queued [] created).1 = inr tt
  ∧ (∀ n, committed (for_each (take n queued) perform created).2
          = w_db (for_each (take n queued) perform created).2)
  ∧ w_db (Worker_run queued [] created).2 = w_db (for_each queued perform created).2
  ∧ w_saved (Worker_run queued [] created).2 = None
  ∧ ∃ logs, Forall is_LogMsg logs
      ∧ w_events (for_each queued perform created).2 = w_events created ++ logs
      ∧ w_events (Worker_run queued [] created).2 = w_events created ++ logs ++ [unlock].
Proof.
  intros queued.
  apply (Worker_run_queued_jobs_unlocked queued created);
    [apply reference_encoder_ok|done|evaluated|done].
Defined.

End driver_without_commit.


Section driver_without_WAL.
#[local] Existing Instance driver_without_WAL.

(** X20 *)
Lemma createDB_tolerates_missing_WAL_witness :
  ∃ w, open None = (inr tt, w)
    ∧ w_events w
      = (if exec_fails PragmaJournalModeWAL
         then [LogMsg (Couldnt_enable_WAL (lastError_text DriverFailure)) WARNING]
         else if wal_available then []
         else [LogMsg (Couldnt_enable_WAL WAL_mode_is_probably_unsupported) WARNING])
        ++ [workerStarted]
    ∧ db_wal (w_db w) = negb (exec_fails PragmaJournalModeWAL) && wal_available.
Proof. apply createDB_tolerates_missing_WAL; done. Defined.
End driver_without_WAL.
